(** * bpl: arena allocator and growable array

    A shallow embedding of the memory subsystem of the [bpl] C++ library
    ([bpl/bit.hpp], [bpl/math.hpp], [bpl/memory.hpp], [bpl/arena.hpp],
    [bpl/allocator.hpp], [bpl/span.hpp], [bpl/algorithm.hpp],
    [bpl/array.hpp]) and the properties of it that the specification
    states.

    Conventions.
    - [size_t] and [uintptr_t] are 64-bit unsigned integers; they are
      modelled as [Z] and every arithmetic operation of the source is followed
      by an explicit [wrap] (reduction modulo [2^64]).
    - Pointers are addresses ([ptr_to_addr] and [addr_to_ptr] are bit casts),
      [nullptr] is address [0].
    - [BPL_DEBUG_ASSERT] is compiled out when [NDEBUG] is defined; the
      embedding follows the optimised build and the assertions appear as
      hypotheses of the lemmas.  [BPL_ASSERT] always runs and aborts the
      process: a function that can abort returns an [option]. *)

From Stdlib Require Import ZArith Lia.
From stdpp Require Import base option list gmap.

Local Open Scope Z_scope.

(** ** Machine integers *)

Definition SIZE_MAX : Z := 2 ^ 64 - 1.

(** Reduction of an unbounded integer to a [size_t] / [uintptr_t]. *)
Definition wrap (z : Z) : Z := z mod 2 ^ 64.

(** [x] is a value of type [size_t]. *)
Definition is_size_t (x : Z) : Prop := 0 <= x <= SIZE_MAX.

(** ** [bpl/math.hpp] *)

(** [bpl::max(x, y)] with the default comparison [bpl::less]:
    [less(y, x) ? x : y]. *)
Definition max (x y : Z) : Z := if y <? x then x else y.

(** [bpl::min(x, y)]: [less(y, x) ? y : x]. *)
Definition min (x y : Z) : Z := if y <? x then y else x.

(** ** [bpl/bit.hpp] *)

(** [bpl::is_pow2] is [std::has_single_bit]: [x] is an integral power of two. *)
Definition is_pow2 (x : Z) : bool := (0 <? x) && (x =? 2 ^ Z.log2 x).

(** [align_backward(x, alignment)]: [x & ~(alignment - 1)] on 64 bits. *)
Definition align_backward (x alignment : Z) : Z :=
  Z.land x (wrap (Z.lnot (wrap (alignment - 1)))).

(** [align_forward(x, alignment)]:
    [align_backward(x + (alignment - 1), alignment)]. *)
Definition align_forward (x alignment : Z) : Z :=
  align_backward (wrap (x + wrap (alignment - 1))) alignment.

(** ** [bpl/bit.hpp] and [bpl/math.hpp]: integers of a given type

    An integral type is given by its width in bits and its signedness;
    values of the type are the integers between [int_min] and [int_max];
    signed types are two's complement. *)

Record int_type : Type := IntType { bits : Z; signed : bool }.

Definition int_min (ty : int_type) : Z :=
  if signed ty then - 2 ^ (bits ty - 1) else 0.
Definition int_max (ty : int_type) : Z :=
  if signed ty then 2 ^ (bits ty - 1) - 1 else 2 ^ bits ty - 1.
Definition in_range (ty : int_type) (x : Z) : Prop :=
  int_min ty <= x <= int_max ty.

Definition size_t_type : int_type := IntType 64 false.
Definition int32_type : int_type := IntType 32 true.

(** [bits_of<T>]: [sizeof(T) * 8]. *)
Definition bits_of (ty : int_type) : Z := bits ty.

(** [to_unsigned(x)]: the bit pattern of [x] read as unsigned. *)
Definition to_unsigned (ty : int_type) (x : Z) : Z := x mod 2 ^ bits ty.

(** [to_signed(x)]: the bit pattern of [x] read as two's complement. *)
Definition to_signed (ty : int_type) (x : Z) : Z :=
  let u := x mod 2 ^ bits ty in
  if u <? 2 ^ (bits ty - 1) then u else u - 2 ^ bits ty.

(** [checked_shl(x, amount)] on an unsigned type. *)
Definition checked_shl (ty : int_type) (x amount : Z) : option Z :=
  if amount >=? bits_of ty then None
  else Some (Z.shiftl x amount mod 2 ^ bits ty).

(** [strict_shl]: [BPL_ASSERT(result)] aborts on [nullopt]. *)
Definition strict_shl (ty : int_type) (x amount : Z) : option Z :=
  checked_shl ty x amount.

Definition checked_shr (ty : int_type) (x amount : Z) : option Z :=
  if amount >=? bits_of ty then None
  else Some (Z.shiftr x amount).

Definition strict_shr (ty : int_type) (x amount : Z) : option Z :=
  checked_shr ty x amount.

(** [bpl::clamp(lo, x, hi)] with the default comparison; the debug
    assertion asks for [!(hi < lo)]. *)
Definition clamp (lo x hi : Z) : Z := min (max lo x) hi.

(** [checked_add], [checked_sub], [checked_mul]: the builtins report an
    overflow when the exact result is not a value of the type. *)
Definition checked (ty : int_type) (exact : Z) : option Z :=
  if (int_min ty <=? exact) && (exact <=? int_max ty) then Some exact
  else None.
Definition checked_add (ty : int_type) (x y : Z) : option Z :=
  checked ty (x + y).
Definition checked_sub (ty : int_type) (x y : Z) : option Z :=
  checked ty (x - y).
Definition checked_mul (ty : int_type) (x y : Z) : option Z :=
  checked ty (x * y).

(** [checked_div]: [nullopt] on a zero divisor; the division of C++
    truncates towards zero.  The quotient of the least value of a signed
    type by [-1] is not a value of the type: the division is undefined
    there and traps, which is the outer [None]. *)
Definition checked_div (ty : int_type) (x y : Z) : option (option Z) :=
  if y =? 0 then Some None
  else if (int_min ty <=? Z.quot x y) && (Z.quot x y <=? int_max ty)
       then Some (Some (Z.quot x y))
       else None.

(** The [strict_] operations abort when the checked one has no value. *)
Definition strict_add (ty : int_type) (x y : Z) : option Z :=
  checked_add ty x y.
Definition strict_sub (ty : int_type) (x y : Z) : option Z :=
  checked_sub ty x y.
Definition strict_mul (ty : int_type) (x y : Z) : option Z :=
  checked_mul ty x y.
Definition strict_div (ty : int_type) (x y : Z) : option Z :=
  match checked_div ty x y with
  | Some (Some q) => Some q
  | _ => None
  end.

(** [saturating_add]. *)
Definition saturating_add (ty : int_type) (x y : Z) : Z :=
  match checked_add ty x y with
  | Some sum => sum
  | None =>
      if negb (signed ty) then int_max ty
      else if x >? 0 then int_max ty else int_min ty
  end.

(** ** [bpl/memory.hpp]: memory blocks *)

Module MemoryBlock.
Record t : Type := mk { ptr : Z; size : Z }.

(** The value-initialised block [{}]: null pointer, no bytes. *)
Definition empty : t := {| ptr := 0; size := 0 |}.

(** The defaulted [operator==]: member-wise comparison. *)
Definition eqb (a b : t) : bool := (ptr a =? ptr b) && (size a =? size b).
End MemoryBlock.

Abbreviation MemoryBlock := MemoryBlock.t.

(** ** [bpl/arena.hpp] *)

Module Arena.
Import MemoryBlock.

Record t : Type := mk { m_block : MemoryBlock; m_end : Z }.

(** [Arena(size_t capacity)].  The region comes from [reserve_memory]
    (defined in the platform layer, which only declares it in
    [bpl/os.hpp]); it is the argument [reserved] here.  The two
    [BPL_ASSERT]s abort on a zero capacity and on a failed commit. *)
Definition create (capacity : Z) (reserved : MemoryBlock) (committed : bool)
  : option t :=
  if negb (capacity >? 0) then None
  else if negb committed then None
  else Some {| m_block := reserved; m_end := ptr reserved |}.

Definition capacity (a : t) : Z := size (m_block a).

Definition size (a : t) : Z := wrap (m_end a - ptr (m_block a)).

Definition empty (a : t) : bool := size a =? 0.

Definition push (sz alignment : Z) (a : t) : MemoryBlock * t :=
  let addr_begin := align_forward (m_end a) alignment in
  let addr_end := align_forward (wrap (addr_begin + sz)) alignment in
  if addr_end >? wrap (ptr (m_block a) + MemoryBlock.size (m_block a)) then
    (MemoryBlock.empty, a)
  else
    ({| ptr := addr_begin; MemoryBlock.size := wrap (addr_end - addr_begin) |},
     {| m_block := m_block a; m_end := addr_end |}).

Definition pop (block : MemoryBlock) (alignment : Z) (a : t) : bool * t :=
  let block_end := wrap (ptr block + MemoryBlock.size block) in
  let arena_end_aligned := align_forward (m_end a) alignment in
  if negb (block_end =? arena_end_aligned) then (false, a)
  else (true, {| m_block := m_block a; m_end := ptr block |}).

Definition clear (a : t) : t :=
  {| m_block := m_block a; m_end := ptr (m_block a) |}.

Definition allocate (sz alignment : Z) (a : t) : MemoryBlock * t :=
  push sz alignment a.

Definition deallocate (block : MemoryBlock) (alignment : Z) (a : t) : t :=
  snd (pop block alignment a).

Definition try_grow (block : MemoryBlock) (alignment additional : Z) (a : t)
  : MemoryBlock * t :=
  let block_end := wrap (ptr block + MemoryBlock.size block) in
  let arena_end := m_end a in
  if negb (block_end =? arena_end) then (MemoryBlock.empty, a)
  else
    let '(new_block, a') := push additional alignment a in
    ({| ptr := ptr block;
        MemoryBlock.size :=
          wrap (MemoryBlock.size block + MemoryBlock.size new_block) |}, a').

Definition try_shrink (block : MemoryBlock) (alignment new_size : Z) (a : t)
  : bool * t :=
  if new_size >? MemoryBlock.size block then (false, a)
  else
    pop {| ptr := wrap (ptr block + new_size);
           MemoryBlock.size := wrap (MemoryBlock.size block - new_size) |}
        alignment a.

(** The data-model invariant of the specification:
    [base <= cursor <= base + capacity]. *)
Definition cursor_in_region (a : t) : Prop :=
  ptr (m_block a) <= m_end a
  <= ptr (m_block a) + MemoryBlock.size (m_block a).

(** The reserved region is a region of the address space. *)
Definition region_ok (a : t) : Prop :=
  0 <= ptr (m_block a) /\ 0 <= MemoryBlock.size (m_block a) /\
  ptr (m_block a) + MemoryBlock.size (m_block a) <= SIZE_MAX.
End Arena.

Abbreviation Arena := Arena.t.

(** ** Sequences of arena calls

    The properties of the arena speak about runs of calls; the runs are
    written out here. *)

Section ArenaRuns.
Import MemoryBlock Arena.

(** None of the additions of [push] wraps around: the documented
    preconditions of its two [align_forward] calls, the sum
    [addr_begin + size] taken in unbounded integers. *)
Definition push_no_wrap (sz alignment : Z) (a : Arena) : Prop :=
  m_end a + (alignment - 1) <= SIZE_MAX /\
  align_forward (m_end a) alignment + sz + (alignment - 1) <= SIZE_MAX.

(** [push] called once per size, in order, with one alignment; the blocks
    are returned in the order of the calls. *)
Fixpoint push_all (alignment : Z) (szs : list Z) (a : Arena)
  : list MemoryBlock * Arena :=
  match szs with
  | [] => ([], a)
  | sz :: rest =>
      let '(b, a1) := push sz alignment a in
      let '(bs, an) := push_all alignment rest a1 in
      (b :: bs, an)
  end.

(** [pop] called once per block, in the order of the list. *)
Fixpoint pop_all (alignment : Z) (bs : list MemoryBlock) (a : Arena)
  : list bool * Arena :=
  match bs with
  | [] => ([], a)
  | b :: rest =>
      let '(ok, a1) := pop b alignment a in
      let '(oks, an) := pop_all alignment rest a1 in
      (ok :: oks, an)
  end.

(** Every push of the run receives a [size_t] and returns a non-empty
    block. *)
Fixpoint pushes_nonempty (alignment : Z) (szs : list Z) (a : Arena) : Prop :=
  match szs with
  | [] => True
  | sz :: rest =>
      is_size_t sz /\
      MemoryBlock.size (fst (push sz alignment a)) <> 0 /\
      pushes_nonempty alignment rest (snd (push sz alignment a))
  end.

(** No push of the run wraps around. *)
Fixpoint pushes_no_wrap (alignment : Z) (szs : list Z) (a : Arena) : Prop :=
  match szs with
  | [] => True
  | sz :: rest =>
      push_no_wrap sz alignment a /\
      pushes_no_wrap alignment rest (snd (push sz alignment a))
  end.

(** The LIFO discipline for the blocks [b_1 .. b_n] pushed by the run
    [szs] from [a]: with [b_1 .. b_(j+1)] still live (the later ones popped,
    last first), popping the top block [b_(j+1)] succeeds and rewinds the
    cursor to its pointer, and popping any earlier block fails and leaves
    the arena as it is. *)
Definition lifo_discipline (alignment : Z) (szs : list Z) (a : Arena) : Prop :=
  let bs := fst (push_all alignment szs a) in
  let a_n := snd (push_all alignment szs a) in
  forall (j : nat) (bj : MemoryBlock),
    bs !! j = Some bj ->
    let popped := pop_all alignment (rev (drop (S j) bs)) a_n in
    fst popped = replicate (length bs - S j) true /\
    pop bj alignment (snd popped) =
      (true, {| m_block := m_block a; m_end := ptr bj |}) /\
    forall (i : nat) (bi : MemoryBlock),
      (i < j)%nat -> bs !! i = Some bi ->
      pop bi alignment (snd popped) = (false, snd popped).

(** The calls of the allocator interface of the arena. *)
Inductive call : Type :=
| Push (sz alignment : Z)
| Pop (block : MemoryBlock) (alignment : Z)
| Clear
| TryGrow (block : MemoryBlock) (alignment additional : Z)
| TryShrink (block : MemoryBlock) (alignment new_size : Z).

(** The arena after a call (the value the call returns is dropped). *)
Definition after (c : call) (a : Arena) : Arena :=
  match c with
  | Push sz al => snd (push sz al a)
  | Pop b al => snd (pop b al a)
  | Clear => clear a
  | TryGrow b al additional => snd (try_grow b al additional a)
  | TryShrink b al new_size => snd (try_shrink b al new_size a)
  end.

(** The states a run of calls goes through, the initial one left out. *)
Fixpoint states (cs : list call) (a : Arena) : list Arena :=
  match cs with
  | [] => []
  | c :: rest => after c a :: states rest (after c a)
  end.

(** The arena after a run of calls. *)
Definition final (cs : list call) (a : Arena) : Arena :=
  foldl (fun a c => after c a) a cs.

(** A block lies inside the reserved region of the arena. *)
Definition block_in_region (b : MemoryBlock) (a : Arena) : Prop :=
  ptr (m_block a) <= ptr b /\ 0 <= MemoryBlock.size b /\
  ptr b + MemoryBlock.size b
    <= ptr (m_block a) + MemoryBlock.size (m_block a).

(** A call respects the contract of the allocator interface in state [a]:
    alignments are powers of two, sizes are [size_t] values that do not wrap
    the cursor arithmetic, and a block given back lies inside the region
    (as every block the arena hands out does); [try_shrink] keeps a prefix
    of its block. *)
Definition call_ok (c : call) (a : Arena) : Prop :=
  match c with
  | Push sz al =>
      is_pow2 al = true /\ is_size_t al /\ is_size_t sz /\ push_no_wrap sz al a
  | Pop b al => block_in_region b a
  | Clear => True
  | TryGrow b al additional =>
      is_pow2 al = true /\ is_size_t al /\ is_size_t additional /\
      push_no_wrap additional al a
  | TryShrink b al new_size =>
      block_in_region b a /\ 0 <= new_size
  end.

(** Every call of the run respects the contract in the state it is made
    in. *)
Fixpoint calls_ok (cs : list call) (a : Arena) : Prop :=
  match cs with
  | [] => True
  | c :: rest => call_ok c a /\ calls_ok rest (after c a)
  end.

(** The arena of the test suite: a region of one page at address [4096]. *)
Definition arena_4096 : Arena :=
  {| m_block := {| ptr := 4096; MemoryBlock.size := 4096 |}; m_end := 4096 |}.

(** The block is the top of the stack: it ends at the cursor. *)
Definition top_of_stack (block : MemoryBlock) (a : Arena) : Prop :=
  ptr block + MemoryBlock.size block = m_end a.

(** The trailing [block.size - new_size] bytes of a block. *)
Definition tail_of (block : MemoryBlock) (new_size : Z) : MemoryBlock :=
  {| ptr := ptr block + new_size;
     MemoryBlock.size := MemoryBlock.size block - new_size |}.

(** [Arena arena; auto b = arena.push(16, 8); arena.try_shrink(b, 8, 13);]
    on the arena of the test suite: [b] is [{4096, 16}]. *)
Definition arena_shrunk_to_13 : Arena :=
  snd (try_shrink {| ptr := 4096; MemoryBlock.size := 16 |} 8 13
         (snd (push 16 8 arena_4096))).

End ArenaRuns.

(** ** The object store and the platform heap

    The array is generic in its element type [T]; what the code uses of
    [T] is [sizeof(T)], [alignof(T)] and the value-initialised [T()] that
    [std::construct_at(p)] builds when [construct] is called without
    arguments. *)

Class ElementType (T : Type) : Type :=
  { sizeof : Z; alignof : Z; value_init : T }.

(** [int] on the platforms the library supports. *)
#[export] Instance int_element : ElementType Z :=
  {| sizeof := 4; alignof := 4; value_init := 0 |}.

(** ** [bpl/memory.hpp]: pointers *)

(** [pointer_in_range(begin, ptr, end)]. *)
Definition pointer_in_range (begin_ p end_ : Z) : bool :=
  (begin_ <=? p) && (p <? end_).

(** [align_ptr_backward(ptr, alignment)] for a pointer to [T]: the pointer
    moves by whole elements. *)
Definition align_ptr_backward {T} `{ElementType T} (p alignment : Z) : Z :=
  let addr := p in
  let aligned_addr := align_backward addr alignment in
  let distance := wrap (addr - aligned_addr) / sizeof in
  wrap (p - distance * sizeof).

(** [align_ptr_forward(ptr, alignment)]. *)
Definition align_ptr_forward {T} `{ElementType T} (p alignment : Z) : Z :=
  let addr := p in
  let aligned_addr := align_forward addr alignment in
  let distance := wrap (aligned_addr - addr) / sizeof in
  wrap (p + distance * sizeof).

(** [sizeof(void* )]. *)
Definition sizeof_ptr : Z := 8.

(** The memory the array works on.  [objects] holds the live objects of
    type [T] by address: [std::construct_at(p, v)] stores [v] at [p],
    [std::destroy_at(p)] removes the entry, and an address without an entry
    holds no live, constructed element.  [next_free] is the state of the
    platform heap behind [std::aligned_alloc] and [std::free], which are not
    code of the library: the heap hands out fresh addresses in increasing
    order, never reuses one, and fails (returns [nullptr]) when the request
    does not fit below [SIZE_MAX]. *)
Record heap (T : Type) : Type :=
  Heap { objects : gmap Z T; next_free : Z }.
Arguments Heap {T} _ _.
Arguments objects {T} _.
Arguments next_free {T} _.

Definition aligned_alloc {T} (alignment sz : Z) (h : heap T) : Z * heap T :=
  let p := align_forward (next_free h) alignment in
  if p + sz <=? SIZE_MAX
  then (p, Heap (objects h) (p + Z.max sz 1))
  else (0, h).

Definition free {T} (p : Z) (h : heap T) : heap T := h.

(** Computations on the heap that may abort the process ([None]). *)
Definition M (T X : Type) : Type := heap T -> option (X * heap T).

Definition ret {T X} (x : X) : M T X := fun h => Some (x, h).

Definition bind {T X Y} (c : M T X) (k : X -> M T Y) : M T Y :=
  fun h => match c h with
           | Some (x, h') => k x h'
           | None => None
           end.

Definition abort {T X} : M T X := fun _ => None.

(** A step that only touches the objects. *)
Definition on_objects {T X} (f : gmap Z T -> gmap Z T * X) : M T X :=
  fun h => let '(m, x) := f (objects h) in Some (x, Heap m (next_free h)).

Notation "'let*' x ':=' c 'in' k" := (bind c (fun x => k))
  (at level 10, x name, c at level 200, k at level 200).

(** ** [bpl/allocator.hpp]: [GlobalAllocator] *)

Module GlobalAllocator.
(** A stateless allocator: an empty struct. *)
Inductive t : Type := mk.

Definition allocate {T} (sz alignment : Z) : M T MemoryBlock :=
  fun h =>
    let alignment := max sizeof_ptr alignment in
    let aligned_size := align_forward sz alignment in
    let '(p, h') := aligned_alloc alignment aligned_size h in
    if p =? 0 then None
    else Some ({| MemoryBlock.ptr := p; MemoryBlock.size := aligned_size |}, h').

Definition deallocate {T} (block : MemoryBlock) (alignment : Z) : M T unit :=
  fun h => Some (tt, free (MemoryBlock.ptr block) h).
End GlobalAllocator.

(** ** [bpl/span.hpp] *)

Module Span.
(** [Span<T>]: a pointer and a number of elements. *)
Record t (T : Type) : Type := mk { m_data : Z; m_count : Z }.
Arguments mk {T} _ _.
Arguments m_data {T} _.
Arguments m_count {T} _.

(** [Bounds], with designated initialisers.  The field [last] is left out:
    no caller in the library sets it, and the branch of [operator[]] for it
    reads the disengaged [end]. *)
Record Bounds : Type := bounds { start : Z; end_ : option Z; count : option Z }.

Section Span.
Context {T : Type} `{ElementType T}.

Definition data (s : t T) : Z := m_data s.
Definition size (s : t T) : Z := m_count s.

(** [data() + idx]: the address of the element at [idx]. *)
Definition at_ (s : t T) (idx : Z) : Z := wrap (data s + idx * sizeof).

(** [operator[](Bounds)]. *)
Definition sub (s : t T) (b : Bounds) : t T :=
  match end_ b with
  | Some e => mk (at_ s (start b)) (wrap (e - start b))
  | None =>
      match count b with
      | Some c => mk (at_ s (start b)) c
      | None => mk (at_ s (start b)) (wrap (size s - start b))
      end
  end.
End Span.
End Span.

Abbreviation Span := Span.t.

(** ** [bpl/memory.hpp] and [bpl/algorithm.hpp]: algorithms on ranges

    A range-based [for] over a span visits the elements at the indices
    [0 .. size - 1] in order.  Moving or copying from an address that holds
    no live element gives no live element, and an assignment constructs
    nothing: assigning to an address that holds no live element leaves it
    without one. *)

(** A forwarded pack [std::forward<Args>(args)...].  [construct] forwards
    the same pack anew in every iteration: an argument passed as an rvalue
    may be moved from by the first [std::construct_at], so a later
    iteration need not build what the first one built.  A pack is given by
    what it builds: [args k] is the element built from the pack when it has
    been forwarded [k] times before. *)
Definition pack (T : Type) : Type := nat -> T.

(** A pack that builds the same element every time: no argument, arguments
    passed as lvalues, or arguments whose move is a copy. *)
Definition copied {T : Type} (v : T) : pack T := fun _ => v.

(** The elements a pack builds at its first [n] forwardings, in order. *)
Definition built {T : Type} (args : pack T) (n : nat) : list T :=
  args <$> seq 0 n.

Section Algorithms.
Context {T : Type} `{ElementType T}.

(** The body of a loop run once per index, in the order of the list. *)
Definition for_each (idxs : list Z) (body : Z -> gmap Z T -> gmap Z T)
  (m : gmap Z T) : gmap Z T :=
  foldl (fun m i => body i m) m idxs.

(** [std::construct_at(dst, std::move( *src)); std::destroy_at(src)]. *)
Definition relocate_at (src dst : Z) (m : gmap Z T) : gmap Z T :=
  delete src (partial_alter (fun _ => m !! src) dst m).

(** [*dst = *src]: the element at [dst], if one is alive there, takes the
    value of the element at [src], and is no determinate element when [src]
    holds none; a [dst] without a live element stays without one. *)
Definition copy_at (src dst : Z) (m : gmap Z T) : gmap Z T :=
  match m !! dst with
  | Some _ => partial_alter (fun _ => m !! src) dst m
  | None => m
  end.

(** [*dst = x]. *)
Definition assign_at (dst : Z) (x : T) (m : gmap Z T) : gmap Z T :=
  match m !! dst with
  | Some _ => <[dst := x]> m
  | None => m
  end.

Definition construct (r : Span T) (args : pack T) (m : gmap Z T)
  : gmap Z T * Z :=
  (for_each (seqZ 0 (Span.size r))
     (fun i => <[Span.at_ r i := args (Z.to_nat i)]>) m,
   Span.size r).

Definition relocate (src dst : Span T) (m : gmap Z T) : gmap Z T * Z :=
  let n := min (Span.size src) (Span.size dst) in
  (for_each (seqZ 0 n)
     (fun i => relocate_at (Span.at_ src i) (Span.at_ dst i)) m, n).

Definition relocate_backward (src dst : Span T) (m : gmap Z T)
  : gmap Z T * Z :=
  let count := Span.size src in
  let src_index := wrap (Span.size src - 1) in
  let dst_index := wrap (Span.size dst - 1) in
  (for_each (seqZ 0 count)
     (fun i => relocate_at (Span.at_ src (wrap (src_index - i)))
                           (Span.at_ dst (wrap (dst_index - i)))) m,
   count).

Definition destroy_backward (r : Span T) (m : gmap Z T) : gmap Z T * Z :=
  (for_each (reverse (seqZ 0 (Span.size r)))
     (fun i => delete (Span.at_ r i)) m,
   Span.size r).

(** [uninitialized_copy(src, dst)] from a range of values: the loop runs
    over [src] only; [dst] is not checked. *)
Definition uninitialized_copy (src : list T) (dst : Span T) (m : gmap Z T)
  : gmap Z T * Z :=
  (fst (foldl (fun '(m, i) x => (<[Span.at_ dst i := x]> m, i + 1))
              (m, 0) src),
   Z.of_nat (length src)).

(** [copy(src, dst)] between two spans of the same storage. *)
Definition copy (src dst : Span T) (m : gmap Z T) : gmap Z T * Z :=
  let n := min (Span.size src) (Span.size dst) in
  (for_each (seqZ 0 n)
     (fun i => copy_at (Span.at_ src i) (Span.at_ dst i)) m, n).

Definition fill (r : Span T) (x : T) (m : gmap Z T) : gmap Z T * Z :=
  (for_each (seqZ 0 (Span.size r)) (fun i => assign_at (Span.at_ r i) x) m,
   Span.size r).

End Algorithms.

(** ** Well-formed spans and arrays *)

Section Shapes.
Context {T : Type} `{ElementType T}.

(** The elements of the span lie in the address space. *)
Definition span_fits (s : Span T) : Prop :=
  0 < sizeof /\ 0 <= Span.data s /\ 0 <= Span.size s /\
  Span.data s + Span.size s * sizeof <= SIZE_MAX.

(** An address lies outside the bytes of the span. *)
Definition outside (s : Span T) (p : Z) : Prop :=
  p < Span.data s \/ Span.data s + Span.size s * sizeof <= p.

(** The bytes of two spans do not overlap. *)
Definition disjoint_spans (s d : Span T) : Prop :=
  Span.data s + Span.size s * sizeof <= Span.data d \/
  Span.data d + Span.size d * sizeof <= Span.data s.

End Shapes.

(** ** [bpl/array.hpp] *)

Module Array.
(** [Array<T, GlobalAllocator>]. *)
Record t (T : Type) : Type :=
  mk { m_block : MemoryBlock; m_count : Z; m_allocator : GlobalAllocator.t }.
Arguments mk {T} _ _ _.
Arguments m_block {T} _.
Arguments m_count {T} _.
Arguments m_allocator {T} _.

Section Array.
Context {T : Type} `{ElementType T}.

Definition set_block (a : t T) (b : MemoryBlock) : t T :=
  mk b (m_count a) (m_allocator a).
Definition set_count (a : t T) (n : Z) : t T :=
  mk (m_block a) n (m_allocator a).

(** *** Iterators and inspection *)

Definition data (a : t T) : Z := MemoryBlock.ptr (m_block a).
Definition size (a : t T) : Z := m_count a.
Definition size_bytes (a : t T) : Z := wrap (size a * sizeof).
Definition empty (a : t T) : bool := size a =? 0.
Definition capacity (a : t T) : Z := MemoryBlock.size (m_block a) / sizeof.
Definition alignment (a : t T) : Z := alignof.
Definition begin_ (a : t T) : Z := data a.
Definition end_ (a : t T) : Z := wrap (data a + size a * sizeof).

(** [Span( *this )]: the live elements. *)
Definition as_span (a : t T) : Span T := Span.mk (data a) (size a).

(** [as_raw_span()]: the whole block. *)
Definition as_raw_span (a : t T) : Span T := Span.mk (data a) (capacity a).

(** [operator[](idx)]: the element at [idx], if one is alive there. *)
Definition get (a : t T) (idx : Z) (h : heap T) : option T :=
  objects h !! Span.at_ (as_span a) idx.

(** The elements at the indices [0 .. size() - 1]. *)
Definition elements (a : t T) (h : heap T) : list (option T) :=
  (fun i => get a i h) <$> seqZ 0 (size a).

(** *** Private helpers *)

Definition allocate_amortized (count : Z) (a : t T) : M T MemoryBlock :=
  let bytes := wrap (count * sizeof) in
  let bytes :=
    if bytes >=? SIZE_MAX / 2 then SIZE_MAX
    else max (wrap (wrap (capacity a * sizeof) * 2)) bytes in
  GlobalAllocator.allocate bytes (alignment a).

Definition deallocate (a : t T) : M T (t T) :=
  if negb (data a =? 0) then
    let* _ := GlobalAllocator.deallocate (m_block a) (alignment a) in
    ret (set_block a MemoryBlock.empty)
  else ret a.

(** *** Constructors, destructor, moves *)

(** [Array()]. *)
Definition default : t T := mk MemoryBlock.empty 0 GlobalAllocator.mk.

(** [Array(A&& allocator)]. *)
Definition with_allocator (allocator : GlobalAllocator.t) : t T :=
  mk MemoryBlock.empty 0 allocator.

(** [Array(uninit, allocator, count)]. *)
Definition with_uninit (allocator : GlobalAllocator.t) (count : Z)
  : M T (t T) :=
  let a := with_allocator allocator in
  if count =? 0 then ret a
  else
    let* b := GlobalAllocator.allocate (wrap (count * sizeof)) (alignment a) in
    ret (mk b count (m_allocator a)).

(** [Array(allocator, count, args...)]. *)
Definition with_count (allocator : GlobalAllocator.t) (count : Z)
  (args : pack T) : M T (t T) :=
  let* a := with_uninit allocator count in
  let* _ := on_objects (construct (as_span a) args) in
  ret a.

Definition clear (a : t T) : M T (t T) :=
  let* _ := on_objects (destroy_backward (as_span a)) in
  ret (set_count a 0).

(** [~Array()]. *)
Definition destructor (a : t T) : M T (t T) :=
  let* a := clear a in
  deallocate a.

(** The body shared by [Array(Array&&)] and [operator=(Array&&)]: the
    pair returned is the destination and the moved-from source. *)
Definition move_assign (this other : t T) : M T (t T * t T) :=
  let* this := clear this in
  let* this := deallocate this in
  ret (mk (m_block other) (m_count other) (m_allocator other),
       mk MemoryBlock.empty 0 (m_allocator other)).

(** [Array(Array&& other)]: the members start from their default
    initialisers. *)
Definition move_construct (other : t T) : M T (t T * t T) :=
  move_assign default other.

(** *** Modifiers *)

Definition reserve (count : Z) (a : t T) : M T (t T) :=
  if count <=? capacity a then ret a
  else
    let* new_block :=
      GlobalAllocator.allocate (wrap (count * sizeof)) (alignment a) in
    let* _ :=
      on_objects
        (relocate (as_span a)
           (Span.mk (MemoryBlock.ptr new_block)
                    (MemoryBlock.size new_block / sizeof))) in
    let* _ := GlobalAllocator.deallocate (m_block a) (alignment a) in
    ret (set_block a new_block).

Definition resize_uninit (count : Z) (a : t T) : M T (t T) :=
  let* a :=
    if count >? capacity a then reserve count a
    else if count <? size a then
      let* _ :=
        on_objects
          (destroy_backward
             (Span.sub (as_span a) (Span.bounds count None None))) in
      ret a
    else ret a in
  ret (set_count a count).

(** [resize(count, args...)]. *)
Definition resize (count : Z) (args : pack T) (a : t T) : M T (t T) :=
  let* a :=
    if count >? size a then
      let* a := if count >? capacity a then reserve count a else ret a in
      let* _ :=
        on_objects
          (construct
             (Span.sub (as_raw_span a)
                (Span.bounds (size a) (Some count) None)) args) in
      ret a
    else if count <? size a then
      let* _ :=
        on_objects
          (destroy_backward
             (Span.sub (as_span a) (Span.bounds count None None))) in
      ret a
    else ret a in
  ret (set_count a count).

(** [assign(count, x)]: [x] is a [const T&], copied into every element;
    [construct] without arguments value-initialises. *)
Definition assign (count : Z) (x : T) (a : t T) : M T (t T) :=
  let* a :=
    if count <=? capacity a then
      if count <=? size a then
        let* _ :=
          on_objects
            (fill (Span.sub (as_span a) (Span.bounds 0 None (Some count)))
                  x) in
        ret a
      else
        let* _ := on_objects (fill (as_span a) x) in
        let* _ :=
          on_objects
            (construct
               (Span.sub (as_raw_span a)
                  (Span.bounds (size a) (Some count) None))
               (copied value_init)) in
        ret a
    else
      let* tmp := with_uninit (m_allocator a) count in
      let* moved := move_assign a tmp in
      let* _ := destructor (snd moved) in
      let* _ :=
        on_objects
          (construct
             (Span.sub (as_span (fst moved))
                (Span.bounds 0 None (Some count))) (copied x)) in
      ret (fst moved) in
  ret (set_count a count).

(** [append(args...)]: the pack is forwarded once; [v] is the element it
    builds. *)
Definition append (v : T) (a : t T) : M T (t T) :=
  let* a := reserve (wrap (size a + 1)) a in
  let* _ := on_objects (fun m => (<[end_ a := v]> m, tt)) in
  ret (set_count a (wrap (m_count a + 1))).

(** [append_n(n, args...)]. *)
Definition append_n (n : Z) (args : pack T) (a : t T) : M T (t T) :=
  let* a := reserve (wrap (size a + n)) a in
  let* k :=
    on_objects
      (construct
         (Span.sub (as_raw_span a) (Span.bounds (size a) None (Some n)))
         args) in
  ret (set_count a (wrap (m_count a + k))).

(** [insert(i, args...)]: the pack is forwarded once; [v] is the element
    it builds. *)
Definition insert (i : Z) (v : T) (a : t T) : M T (t T) :=
  let* a := reserve (wrap (size a + 1)) a in
  let* _ :=
    on_objects
      (relocate_backward
         (Span.sub (as_span a) (Span.bounds i None None))
         (Span.sub (as_raw_span a)
            (Span.bounds (wrap (size a + 1)) None None))) in
  let* _ :=
    on_objects (fun m => (<[wrap (data a + i * sizeof) := v]> m, tt)) in
  ret (set_count a (wrap (m_count a + 1))).

Definition insert_range (idx : Z) (range : list T) (a : t T) : M T (t T) :=
  if Z.of_nat (length range) =? 0 then ret a
  else
    let* a := reserve (wrap (size a + Z.of_nat (length range))) a in
    let* _ :=
      on_objects
        (relocate_backward
           (Span.sub (as_span a) (Span.bounds idx None None))
           (Span.sub (as_raw_span a)
              (Span.bounds 0
                 (Some (wrap (size a + Z.of_nat (length range)))) None))) in
    let* k :=
      on_objects
        (uninitialized_copy range
           (Span.sub (as_raw_span a) (Span.bounds idx None None))) in
    ret (set_count a (wrap (m_count a + k))).

(** [remove(idx)]: the [BPL_ASSERT] aborts when [idx] is out of bounds. *)
Definition remove (idx : Z) (a : t T) : M T (option T * t T) :=
  if negb (idx <? size a) then abort
  else
    let* x := (fun h => Some (get a idx h, h)) in
    let* _ :=
      on_objects (fun m => (delete (Span.at_ (as_span a) idx) m, tt)) in
    let* _ :=
      on_objects
        (copy (Span.sub (as_span a) (Span.bounds (wrap (idx + 1)) None None))
              (Span.sub (as_span a) (Span.bounds idx None None))) in
    ret (x, set_count a (wrap (m_count a - 1))).

(** [remove(start, end)]. *)
Definition remove_range (start end_ : Z) (a : t T) : M T (t T) :=
  let* _ :=
    on_objects
      (destroy_backward
         (Span.sub (as_span a) (Span.bounds start (Some end_) None))) in
  let* _ :=
    on_objects
      (copy (Span.sub (as_span a) (Span.bounds end_ None None))
            (Span.sub (as_span a) (Span.bounds start None None))) in
  ret (set_count a (wrap (m_count a - wrap (end_ - start)))).

Definition swap (a other : t T) : t T * t T := (other, a).

End Array.
End Array.

Abbreviation Array := Array.t.

(** ** Well-formed arrays *)

Section ArrayShapes.
Context {T : Type} `{ElementType T}.

(** The element type has a positive size and a power-of-two alignment. *)
Definition element_ok : Prop :=
  0 < sizeof /\ is_size_t sizeof /\
  is_pow2 alignof = true /\ is_size_t alignof.

(** The alignment [GlobalAllocator] asks the platform for. *)
Definition heap_alignment : Z := max sizeof_ptr alignof.

(** The platform heap can serve a request of [bytes] bytes: the bytes,
    rounded up to the alignment, fit between the first free address and
    [SIZE_MAX].  The sum is one of unbounded integers, so [bytes] is a
    number of bytes that did not wrap around. *)
Definition heap_has_room (h : heap T) (bytes : Z) : Prop :=
  0 < next_free h /\
  next_free h + (heap_alignment - 1) + (bytes + heap_alignment) <= SIZE_MAX.

(** The array owns a block of the heap and its size is within its
    capacity. *)
Definition array_ok (a : Array T) (h : heap T) : Prop :=
  0 <= MemoryBlock.ptr (Array.m_block a) /\
  0 <= MemoryBlock.size (Array.m_block a) /\
  MemoryBlock.ptr (Array.m_block a) + MemoryBlock.size (Array.m_block a)
    <= next_free h /\
  next_free h <= SIZE_MAX /\
  0 <= Array.size a <= Array.capacity a.

(** The array holds the values of the list [l], in order, all alive. *)
Definition holds (a : Array T) (h : heap T) (l : list T) : Prop :=
  Array.size a = Z.of_nat (length l) /\
  forall (i : nat) v, l !! i = Some v ->
    Array.get a (Z.of_nat i) h = Some v.

End ArrayShapes.

(** ** The declared overloads

    The copy constructor delegates to [Array(other.data(), other.size())]
    and the copy assignment calls [this->assign(other.data(),
    other.size())].  Which function such a call names is decided by
    overload resolution over the declarations of the class; the
    declarations and the part of the rules that the two calls need are
    written out here. *)

Module Overloads.

(** The types of the parameters in the declarations of [Array<T, A>]. *)
Inductive param : Type :=
| P_size_t            (* [size_t] *)
| P_const_T_ref       (* [const T&] *)
| P_Array_lref        (* [Array&], [const Array&] *)
| P_Array_rref        (* [Array&&] *)
| P_allocator_rref    (* [A&&], with [A = GlobalAllocator] *)
| P_uninit_t          (* [uninit_t] *)
| P_from_range_t      (* [from_range_t] *)
| P_range             (* [R&&] constrained by [range] or [sized_range] *)
| P_pack.             (* [Args&&...]: any number of arguments *)

(** The types of the arguments of the two calls. *)
Inductive arg : Type :=
| A_T_ptr             (* [T*], [const T*]: the type of [other.data()] *)
| A_size_t.           (* [size_t]: the type of [other.size()] *)

(** Implicit convertibility of an argument to a parameter.  A pointer does
    not convert to an integer, to an empty struct without converting
    constructor, to a tag type whose only constructor is [explicit], nor to
    an array; a pointer has no [begin()]/[end()], so it is no [range]. *)
Definition converts (x : arg) (p : param) : bool :=
  match x, p with
  | A_size_t, P_size_t => true
  | A_size_t, P_const_T_ref => true
  | _, _ => false
  end.

(** A declaration is viable for a list of arguments. *)
Fixpoint viable (args : list arg) (params : list param) : bool :=
  match params, args with
  | [P_pack], _ => true
  | [], [] => true
  | p :: ps, x :: xs => converts x p && viable xs ps
  | _, _ => false
  end.

(** The constructors declared in the class, in the order of the source. *)
Definition constructors : list (list param) :=
  [ [];                                        (* [Array()] *)
    [P_Array_lref];                            (* [Array(Array&)] *)
    [P_Array_rref];                            (* [Array(Array&&)] *)
    [P_allocator_rref];                        (* [Array(A&&)] *)
    [P_uninit_t; P_size_t];                    (* [Array(uninit_t, size_t)] *)
    [P_uninit_t; P_allocator_rref; P_size_t];
    [P_size_t; P_pack];                        (* [Array(size_t, Args&&...)] *)
    [P_allocator_rref; P_size_t; P_pack];
    [P_from_range_t; P_range];                 (* [range R] *)
    [P_from_range_t; P_allocator_rref; P_range];
    [P_from_range_t; P_range];                 (* [sized_range R] *)
    [P_from_range_t; P_allocator_rref; P_range] ].

(** The overloads of [assign]. *)
Definition assign_overloads : list (list param) :=
  [ [P_size_t; P_const_T_ref];                 (* [assign(size_t, const T&)] *)
    [P_range] ].                               (* [assign(R&&)] *)

(** The arguments of the delegation in [Array(Array& other)] and of the
    call in [operator=(const Array& other)]. *)
Definition copy_call : list arg := [A_T_ptr; A_size_t].

End Overloads.

(** ** Runs of the array used below *)

(** A heap without live objects whose first free address is [4096]. *)
Definition heap_4096 : heap Z := Heap ∅ 4096.

(** [Array<int> a(4, 7); a.append(9);] *)
Definition run_append : M Z (Array Z * Array Z) :=
  let* a := Array.with_count GlobalAllocator.mk 4 (copied 7) in
  let* a' := Array.append 9 a in
  ret (a, a').

(** [Array<int> a; a.reserve(6); a.append(10); a.append(20);] *)
Definition run_two_of_six : M Z (Array Z) :=
  let* a := Array.reserve 6 Array.default in
  let* a := Array.append 10 a in
  Array.append 20 a.

(** ... followed by [a.insert(1, 30);] *)
Definition run_insert : M Z (Array Z) :=
  let* a := run_two_of_six in
  Array.insert 1 30 a.

(** ... or followed by [a.insert_range(1, {30, 40});] *)
Definition run_insert_range : M Z (Array Z) :=
  let* a := run_two_of_six in
  Array.insert_range 1 [30; 40] a.

(** [Array<int> a(1, 7); a.assign(2, 5);] *)
Definition run_assign : M Z (Array Z * Array Z) :=
  let* a := Array.with_count GlobalAllocator.mk 1 (copied 7) in
  let* a' := Array.assign 2 5 a in
  ret (a, a').

(** Two [int]s, 10 and 20, alive at the addresses 4096 and 4100. *)
Definition two_ints : gmap Z Z := <[4100 := 20]> (<[4096 := 10]> ∅).

(** The whole block of an array, slot by slot. *)
Definition slots {T} `{ElementType T} (a : Array T) (h : heap T)
  : list (option T) :=
  (fun i => objects h !! Span.at_ (Array.as_raw_span a) i)
    <$> seqZ 0 (Array.capacity a).

(** An array of capacity 6 that holds 10 and 20, and its heap: the block of
    24 bytes at 4096 is the only allocation. *)
Definition array_10_20 : Array Z :=
  Array.mk (MemoryBlock.mk 4096 24) 2 GlobalAllocator.mk.
Definition heap_10_20 : heap Z := Heap two_ints 4120.

(** * Properties of the bit helpers *)

Section Align.

Lemma wrap_small z : is_size_t z -> wrap z = z.
Proof. unfold is_size_t, SIZE_MAX, wrap. intros. apply Z.mod_small. lia. Qed.

Lemma wrap_range z : is_size_t (wrap z).
Proof.
  unfold is_size_t, SIZE_MAX, wrap.
  pose proof (Z.mod_pos_bound z (2 ^ 64) ltac:(lia)). lia.
Qed.

Lemma is_pow2_spec x :
  is_pow2 x = true -> is_size_t x -> exists k, 0 <= k < 64 /\ x = 2 ^ k.
Proof.
  unfold is_pow2, is_size_t, SIZE_MAX. intros H Hx.
  apply andb_prop in H as [Hpos Heq].
  apply Z.ltb_lt in Hpos. apply Z.eqb_eq in Heq.
  exists (Z.log2 x). split; [|exact Heq].
  split; [apply Z.log2_nonneg|].
  apply Z.log2_lt_pow2; lia.
Qed.

Lemma is_pow2_pow k : 0 <= k -> is_pow2 (2 ^ k) = true.
Proof.
  intros. unfold is_pow2. rewrite Z.log2_pow2 by lia.
  apply andb_true_intro. split; [apply Z.ltb_lt; lia | apply Z.eqb_refl].
Qed.

(** Clearing the low [k] bits rounds down to a multiple of [2^k]. *)
Lemma land_lnot_ones x k :
  0 <= k -> Z.land x (Z.lnot (2 ^ k - 1)) = 2 ^ k * (x / 2 ^ k).
Proof.
  intros Hk.
  replace (2 ^ k - 1) with (Z.ones k) by (rewrite Z.ones_equiv; lia).
  rewrite <- Z.ldiff_land, Z.ldiff_ones_r by lia.
  rewrite Z.shiftr_div_pow2, Z.shiftl_mul_pow2 by lia. lia.
Qed.

Lemma land_wrap_r x m : is_size_t x -> Z.land x (wrap m) = Z.land x m.
Proof.
  unfold is_size_t, SIZE_MAX, wrap. intros Hx.
  apply Z.bits_inj'. intros n Hn.
  rewrite !Z.land_spec, Z.testbit_mod_pow2 by lia.
  destruct (Z.ltb_spec n 64); [reflexivity|].
  rewrite (Z.bits_above_log2 x n); [reflexivity|lia|].
  destruct (Z.eq_dec x 0) as [->|]; [simpl; lia|].
  assert (Z.log2 x < 64) by (apply Z.log2_lt_pow2; lia). lia.
Qed.

Lemma align_backward_pow2 x k :
  0 <= k < 64 -> is_size_t x ->
  align_backward x (2 ^ k) = 2 ^ k * (x / 2 ^ k).
Proof.
  intros Hk Hx. unfold align_backward.
  assert (0 < 2 ^ k <= 2 ^ 63).
  { split; [lia|]. apply Z.pow_le_mono_r; lia. }
  rewrite (wrap_small (2 ^ k - 1)) by (unfold is_size_t, SIZE_MAX; lia).
  rewrite land_wrap_r by assumption.
  apply land_lnot_ones. lia.
Qed.

Lemma align_forward_pow2 x k :
  0 <= k < 64 -> 0 <= x -> x + (2 ^ k - 1) <= SIZE_MAX ->
  align_forward x (2 ^ k) = 2 ^ k * ((x + (2 ^ k - 1)) / 2 ^ k).
Proof.
  intros Hk Hx Hfit. unfold align_forward.
  assert (0 < 2 ^ k <= 2 ^ 63).
  { split; [lia|]. apply Z.pow_le_mono_r; lia. }
  rewrite (wrap_small (2 ^ k - 1)) by (unfold is_size_t, SIZE_MAX; lia).
  rewrite (wrap_small (x + _)) by (unfold is_size_t; lia).
  apply align_backward_pow2; [lia|unfold is_size_t; lia].
Qed.

(** What [align_forward] guarantees under its documented preconditions
    ([alignment] a power of two, [x + (alignment - 1)] does not
    overflow). *)
Lemma align_forward_bounds x al :
  is_pow2 al = true -> is_size_t al -> 0 <= x -> x + (al - 1) <= SIZE_MAX ->
  x <= align_forward x al < x + al /\ (align_forward x al) mod al = 0.
Proof.
  intros Hp Hal Hx Hfit.
  destruct (is_pow2_spec al Hp Hal) as (k & Hk & ->).
  rewrite align_forward_pow2 by assumption.
  assert (0 < 2 ^ k) by lia.
  pose proof (Z.div_mod (x + (2 ^ k - 1)) (2 ^ k) ltac:(lia)).
  pose proof (Z.mod_pos_bound (x + (2 ^ k - 1)) (2 ^ k) ltac:(lia)).
  split; [lia|].
  rewrite Z.mul_comm. apply Z.mod_mul. lia.
Qed.

Lemma align_forward_aligned x al :
  is_pow2 al = true -> is_size_t al -> is_size_t x -> x mod al = 0 ->
  align_forward x al = x.
Proof.
  intros Hp Hal Hx Hmod.
  destruct (is_pow2_spec al Hp Hal) as (k & Hk & ->).
  assert (0 < 2 ^ k) by lia.
  apply Z.div_exact in Hmod; [|lia].
  assert (x + (2 ^ k - 1) <= SIZE_MAX).
  { unfold is_size_t, SIZE_MAX in *.
    assert (2 ^ 64 = 2 ^ k * 2 ^ (64 - k)) as E
      by (rewrite <- Z.pow_add_r by lia; f_equal; lia).
    assert (x / 2 ^ k < 2 ^ (64 - k)) by nia. nia. }
  rewrite align_forward_pow2 by (unfold is_size_t in *; lia).
  replace (x + (2 ^ k - 1)) with (x / 2 ^ k * 2 ^ k + (2 ^ k - 1)) by lia.
  rewrite Z.div_add_l by lia.
  rewrite (Z.div_small (2 ^ k - 1)) by lia. lia.
Qed.

Lemma align_forward_one x : is_size_t x -> align_forward x 1 = x.
Proof.
  intros Hx. apply align_forward_aligned; try assumption.
    - reflexivity.
    - unfold is_size_t, SIZE_MAX; lia.
    - apply Z.mod_1_r.
Qed.

End Align.

(** * The arena *)

Section ArenaFacts.
Import MemoryBlock Arena.

(** [push], as the source computes it. *)
Lemma push_unfold sz al a :
  push sz al a =
  let addr_begin := align_forward (m_end a) al in
  let addr_end := align_forward (wrap (addr_begin + sz)) al in
  if addr_end >? wrap (ptr (m_block a) + MemoryBlock.size (m_block a))
  then (MemoryBlock.empty, a)
  else ({| ptr := addr_begin; MemoryBlock.size := wrap (addr_end - addr_begin) |},
        {| m_block := m_block a; m_end := addr_end |}).
Proof. reflexivity. Qed.

(** [push] in unbounded arithmetic, when nothing wraps. *)
Lemma push_exact sz al a :
  region_ok a -> cursor_in_region a ->
  is_pow2 al = true -> is_size_t al -> is_size_t sz ->
  push_no_wrap sz al a ->
  let addr_begin := align_forward (m_end a) al in
  let addr_end := align_forward (addr_begin + sz) al in
  push sz al a =
    (if addr_end >? ptr (m_block a) + MemoryBlock.size (m_block a)
     then (MemoryBlock.empty, a)
     else ({| ptr := addr_begin; MemoryBlock.size := addr_end - addr_begin |},
           {| m_block := m_block a; m_end := addr_end |})) /\
  m_end a <= addr_begin /\ addr_begin + sz <= addr_end /\
  addr_begin mod al = 0 /\ addr_end mod al = 0 /\ is_size_t addr_end.
Proof.
  intros (Hb & Hs & Hr) [Hlo Hhi] Hp Hal Hsz [Hw1 Hw2]. cbv zeta.
  unfold is_size_t in *.
  destruct (align_forward_bounds (m_end a) al Hp Hal ltac:(lia) Hw1)
    as [[Hb1 Hb2] Hb3].
  destruct (align_forward_bounds (align_forward (m_end a) al + sz) al Hp Hal
              ltac:(lia) Hw2) as [[He1 He2] He3].
  assert (0 < al) by (unfold is_pow2 in Hp; apply andb_prop in Hp as [Hp _];
                      apply Z.ltb_lt in Hp; exact Hp).
  split; [|repeat split; lia].
  unfold push.
  rewrite (wrap_small (align_forward (m_end a) al + sz))
    by (unfold is_size_t; lia).
  rewrite (wrap_small (ptr (m_block a) + _)) by (unfold is_size_t; lia).
  destruct (_ >? _); [reflexivity|].
  rewrite wrap_small by (unfold is_size_t; lia). reflexivity.
Qed.

(** [pop], by cases. *)
Lemma pop_true block al a :
  wrap (ptr block + MemoryBlock.size block) = align_forward (m_end a) al ->
  pop block al a = (true, {| m_block := m_block a; m_end := ptr block |}).
Proof. intros H. unfold pop. rewrite H, Z.eqb_refl. reflexivity. Qed.

Lemma pop_false block al a :
  wrap (ptr block + MemoryBlock.size block) <> align_forward (m_end a) al ->
  pop block al a = (false, a).
Proof.
  intros H. unfold pop. apply Z.eqb_neq in H. rewrite H. reflexivity.
Qed.

Lemma pop_region block al a : m_block (snd (pop block al a)) = m_block a.
Proof. unfold pop. destruct (negb _); reflexivity. Qed.


(** ** [push] *)

(** C5, as amended.  For every arena whose cursor lies in its region and
    every [push(size, alignment)] with a power-of-two alignment whose
    additions do not wrap around: with [begin = align_forward(end,
    alignment)] and [new_end = align_forward(begin + size, alignment)], if
    [new_end > base + capacity] the call returns the empty block and leaves
    the arena unchanged; otherwise the cursor becomes [new_end], the
    returned block is [{begin, new_end - begin}], it holds at least [size]
    bytes and it lies inside the reserved region. *)
Theorem push_within_region sz al a :
  region_ok a -> cursor_in_region a ->
  is_pow2 al = true -> is_size_t al -> is_size_t sz ->
  push_no_wrap sz al a ->
  let addr_begin := align_forward (m_end a) al in
  let new_end := align_forward (addr_begin + sz) al in
  let limit := ptr (m_block a) + MemoryBlock.size (m_block a) in
  (new_end > limit -> push sz al a = (MemoryBlock.empty, a)) /\
  (new_end <= limit ->
     push sz al a =
       ({| ptr := addr_begin; MemoryBlock.size := new_end - addr_begin |},
        {| m_block := m_block a; m_end := new_end |}) /\
     sz <= new_end - addr_begin /\
     block_in_region (fst (push sz al a)) a /\
     cursor_in_region (snd (push sz al a))).
Proof.
  intros Hr Hc Hp Hal Hsz Hw. cbv zeta.
  destruct (push_exact sz al a Hr Hc Hp Hal Hsz Hw)
    as (Hpush & Hb & He & _ & _ & _).
  destruct Hc as [Hlo Hhi]. unfold is_size_t in Hsz.
  split; intros Hcmp.
  - rewrite Hpush. apply Z.gtb_gt in Hcmp. rewrite Hcmp. reflexivity.
  - rewrite Hpush.
    destruct (Z.gtb_spec (align_forward (align_forward (m_end a) al + sz) al)
                (ptr (m_block a) + MemoryBlock.size (m_block a))); [lia|].
    unfold block_in_region, cursor_in_region. simpl. repeat split; lia.
Qed.

Lemma push_within_region_witness :
  push 16 4 arena_4096 =
    ({| ptr := 4096; MemoryBlock.size := 16 |},
     {| m_block := m_block arena_4096; m_end := 4112 |}) /\
  block_in_region (fst (push 16 4 arena_4096)) arena_4096.
Proof.
  pose proof (push_within_region 16 4 arena_4096) as H.
  assert (region_ok arena_4096) as Hr by (vm_compute; intuition discriminate).
  assert (cursor_in_region arena_4096) as Hc
    by (vm_compute; intuition discriminate).
  assert (is_size_t 4) as H4 by (vm_compute; intuition discriminate).
  assert (is_size_t 16) as H16 by (vm_compute; intuition discriminate).
  assert (push_no_wrap 16 4 arena_4096) as Hw
    by (vm_compute; intuition discriminate).
  specialize (H Hr Hc eq_refl H4 H16 Hw). cbv zeta in H.
  destruct H as [_ H].
  assert (align_forward (align_forward (m_end arena_4096) 4 + 16) 4
          <= ptr (m_block arena_4096) + MemoryBlock.size (m_block arena_4096))
    as Hle by (vm_compute; discriminate).
  destruct (H Hle) as (Heq & _ & Hin & _).
  split; [exact Heq | exact Hin].
Defined.

(** C5, as stated, fails: a [size] close to [SIZE_MAX] makes
    [addr_begin + size] wrap around, the bound check passes, and the block
    handed out reaches far beyond the reserved region (and the cursor ends
    below the base). *)
Lemma push_beyond_region :
  ~ (forall sz al a,
       region_ok a -> cursor_in_region a ->
       is_pow2 al = true -> is_size_t al -> is_size_t sz ->
       MemoryBlock.size (fst (push sz al a)) <> 0 ->
       block_in_region (fst (push sz al a)) a).
Proof.
  intros H.
  specialize (H (2 ^ 64 - 16) 1 arena_4096).
  assert (block_in_region (fst (push (2 ^ 64 - 16) 1 arena_4096)) arena_4096)
    as (_ & _ & Hin).
  { apply H; vm_compute; intuition discriminate. }
  vm_compute in Hin. apply Hin. reflexivity.
Qed.

(** The run of [push] at that input. *)
Example push_beyond_region_run :
  push (2 ^ 64 - 16) 1 arena_4096 =
    ({| ptr := 4096; MemoryBlock.size := 2 ^ 64 - 16 |},
     {| m_block := m_block arena_4096; m_end := 4080 |}).
Proof. vm_compute. reflexivity. Qed.

(** ** [try_grow] *)

Lemma try_grow_not_top block al additional a :
  wrap (ptr block + MemoryBlock.size block) <> m_end a ->
  try_grow block al additional a = (MemoryBlock.empty, a).
Proof.
  intros H. unfold try_grow. apply Z.eqb_neq in H. rewrite H. reflexivity.
Qed.

Lemma try_grow_top block al additional a :
  wrap (ptr block + MemoryBlock.size block) = m_end a ->
  try_grow block al additional a =
    ({| ptr := ptr block;
        MemoryBlock.size :=
          wrap (MemoryBlock.size block
                + MemoryBlock.size (fst (push additional al a))) |},
     snd (push additional al a)).
Proof.
  intros H. unfold try_grow. rewrite H, Z.eqb_refl. simpl.
  destruct (push additional al a). reflexivity.
Qed.

(** When the block is the top of the stack and [push] finds no room,
    [try_grow] answers with the block it was given, not with the empty
    block. *)
Lemma try_grow_no_room block al additional a :
  is_size_t (MemoryBlock.size block) ->
  wrap (ptr block + MemoryBlock.size block) = m_end a ->
  push additional al a = (MemoryBlock.empty, a) ->
  try_grow block al additional a = (block, a).
Proof.
  intros Hs Htop Hpush. rewrite try_grow_top by assumption.
  rewrite Hpush. simpl. rewrite Z.add_0_r, wrap_small by assumption.
  destruct block; reflexivity.
Qed.

(** [try_grow] changes the arena only through [push]. *)
Lemma try_grow_after block al additional a :
  snd (try_grow block al additional a) = a \/
  snd (try_grow block al additional a) = snd (push additional al a).
Proof.
  unfold try_grow. destruct (negb _); [left; reflexivity|].
  destruct (push additional al a). right. reflexivity.
Qed.

(** C8: the claim fails on the code.  In the arena of one page, the block
    [{4096, 16}] returned by [push(16, 4)] is the top of the stack;
    [try_grow] of it by [8192] bytes, which the arena has no room for,
    returns the block [{4096, 16}] of size 16, not an empty block, and leaves
    the arena unchanged. *)
Theorem try_grow_full_arena_returns_block :
  let '(block, a1) := push 16 4 arena_4096 in
  block = {| ptr := 4096; MemoryBlock.size := 16 |} /\
  push 8192 4 a1 = (MemoryBlock.empty, a1) /\
  try_grow block 4 8192 a1 = (block, a1) /\
  MemoryBlock.size (fst (try_grow block 4 8192 a1)) = 16.
Proof. vm_compute. repeat split; reflexivity. Qed.

(** ** [try_shrink] *)

Lemma try_shrink_too_large block al new_size a :
  new_size > MemoryBlock.size block ->
  try_shrink block al new_size a = (false, a).
Proof.
  intros H. unfold try_shrink. apply Z.gtb_gt in H. rewrite H. reflexivity.
Qed.

Lemma wrap_add_sub p s n : wrap (wrap (p + n) + wrap (s - n)) = wrap (p + s).
Proof.
  unfold wrap. rewrite <- Z.add_mod by lia. f_equal. lia.
Qed.

(** C9, amended.  At a cursor that is a multiple of the alignment, for a
    block inside the address space and [new_size <= block.size],
    [try_shrink(block, alignment, new_size)] is [pop] of the trailing
    [block.size - new_size] bytes of [block].  When that trailing region is
    the top of the stack, that is, when it ends at the cursor, the call
    returns [true] and rewinds the cursor to [block.ptr + new_size], which
    is not beyond the old cursor; otherwise it returns [false] and leaves
    the arena unchanged. *)
Theorem try_shrink_pops_tail block al new_size a :
  is_pow2 al = true -> is_size_t al ->
  is_size_t (m_end a) -> m_end a mod al = 0 ->
  0 <= ptr block -> ptr block + MemoryBlock.size block <= SIZE_MAX ->
  0 <= new_size <= MemoryBlock.size block ->
  try_shrink block al new_size a = pop (tail_of block new_size) al a /\
  (top_of_stack (tail_of block new_size) a ->
   try_shrink block al new_size a
     = (true, {| m_block := m_block a; m_end := ptr block + new_size |}) /\
   ptr block + new_size <= m_end a) /\
  (~ top_of_stack (tail_of block new_size) a ->
   try_shrink block al new_size a = (false, a)).
Proof.
  intros Hp Hal Hend Hmod Hptr Hfit Hn.
  assert (try_shrink block al new_size a = pop (tail_of block new_size) al a)
    as Heq.
  { unfold try_shrink, tail_of.
    destruct (Z.gtb_spec new_size (MemoryBlock.size block)); [lia|].
    rewrite !wrap_small by (unfold is_size_t; lia). reflexivity. }
  assert (wrap (ptr (tail_of block new_size)
                + MemoryBlock.size (tail_of block new_size))
          = ptr block + MemoryBlock.size block) as Hblock_end.
  { unfold tail_of. cbn [ptr MemoryBlock.size].
    rewrite wrap_small by (unfold is_size_t; lia). lia. }
  pose proof (align_forward_aligned (m_end a) al Hp Hal Hend Hmod) as Hcursor.
  split; [exact Heq|]. rewrite Heq. unfold top_of_stack. split.
  - intros Htop. split.
    + rewrite pop_true; [reflexivity|].
      rewrite Hblock_end, Hcursor. unfold tail_of in Htop.
      cbn [ptr MemoryBlock.size] in Htop. lia.
    + unfold tail_of in Htop. cbn [ptr MemoryBlock.size] in Htop. lia.
  - intros Htop. apply pop_false.
    rewrite Hblock_end, Hcursor. unfold tail_of in Htop.
    cbn [ptr MemoryBlock.size] in Htop. lia.
Qed.

Lemma try_shrink_pops_tail_witness :
  try_shrink {| ptr := 4096; MemoryBlock.size := 16 |} 8 13
    (snd (push 16 8 arena_4096))
  = (true, {| m_block := m_block arena_4096; m_end := 4109 |}) /\
  try_shrink {| ptr := 4096; MemoryBlock.size := 8 |} 8 4
    (snd (push 16 8 arena_4096))
  = (false, snd (push 16 8 arena_4096)).
Proof.
  split.
  - destruct (try_shrink_pops_tail
                {| ptr := 4096; MemoryBlock.size := 16 |} 8 13
                (snd (push 16 8 arena_4096)))
      as (_ & Htop & _).
    + reflexivity.
    + vm_compute; intuition discriminate.
    + vm_compute; intuition discriminate.
    + reflexivity.
    + vm_compute; discriminate.
    + vm_compute; discriminate.
    + vm_compute; intuition discriminate.
    + apply Htop. reflexivity.
  - destruct (try_shrink_pops_tail
                {| ptr := 4096; MemoryBlock.size := 8 |} 8 4
                (snd (push 16 8 arena_4096)))
      as (_ & _ & Hnot).
    + reflexivity.
    + vm_compute; intuition discriminate.
    + vm_compute; intuition discriminate.
    + reflexivity.
    + vm_compute; discriminate.
    + vm_compute; discriminate.
    + vm_compute; intuition discriminate.
    + apply Hnot. vm_compute. discriminate.
Defined.

(** C9 as stated fails on the code at a cursor that is not a multiple of
    the alignment, as [try_shrink] itself leaves it: after [push(16, 8)]
    and [try_shrink(b, 8, 13)] the cursor is [4109].  The tail of the kept
    block [{4096, 13}] beyond 5 bytes ends at the cursor, yet
    [try_shrink] returns [false]; the tail of [{4096, 16}] beyond 14 bytes
    ends at [4112], not at the cursor, yet [try_shrink] returns [true] and
    moves the cursor forward to [4110]. *)
Theorem try_shrink_at_unaligned_cursor :
  m_end arena_shrunk_to_13 = 4109 /\
  (top_of_stack (tail_of {| ptr := 4096; MemoryBlock.size := 13 |} 5)
     arena_shrunk_to_13 /\
   try_shrink {| ptr := 4096; MemoryBlock.size := 13 |} 8 5
     arena_shrunk_to_13
   = (false, arena_shrunk_to_13)) /\
  (~ top_of_stack (tail_of {| ptr := 4096; MemoryBlock.size := 16 |} 14)
       arena_shrunk_to_13 /\
   try_shrink {| ptr := 4096; MemoryBlock.size := 16 |} 8 14
     arena_shrunk_to_13
   = (true, {| m_block := m_block arena_shrunk_to_13; m_end := 4110 |})).
Proof.
  split; [reflexivity|]. split.
  - split; [reflexivity|]. vm_compute. reflexivity.
  - split; [vm_compute; discriminate|]. vm_compute. reflexivity.
Qed.

(** ** The cursor invariant *)

Lemma after_region c a : m_block (after c a) = m_block a.
Proof.
  destruct c as [sz al|b al| |b al additional|b al n]; simpl.
  - unfold push. destruct (_ >? _); reflexivity.
  - apply pop_region.
  - reflexivity.
  - destruct (try_grow_after b al additional a) as [-> | ->]; [reflexivity|].
    unfold push. destruct (_ >? _); reflexivity.
  - unfold try_shrink. destruct (_ >? _); [reflexivity|apply pop_region].
Qed.

Lemma push_cursor sz al a :
  region_ok a -> cursor_in_region a ->
  is_pow2 al = true -> is_size_t al -> is_size_t sz ->
  push_no_wrap sz al a ->
  cursor_in_region (snd (push sz al a)).
Proof.
  intros Hr Hc Hp Hal Hsz Hw.
  destruct (push_exact sz al a Hr Hc Hp Hal Hsz Hw)
    as (Hpush & Hb & He & _ & _ & _).
  rewrite Hpush. destruct Hc as [Hlo Hhi]. unfold is_size_t in Hsz.
  destruct (Z.gtb_spec (align_forward (align_forward (m_end a) al + sz) al)
              (ptr (m_block a) + MemoryBlock.size (m_block a)));
    unfold cursor_in_region; simpl; lia.
Qed.

(** One call that respects the contract keeps the cursor in the region. *)
Lemma after_cursor c a :
  region_ok a -> cursor_in_region a -> call_ok c a ->
  cursor_in_region (after c a).
Proof.
  intros Hr Hc Hok.
  destruct c as [sz al|b al| |b al additional|b al n]; simpl in *.
  - destruct Hok as (Hp & Hal & Hsz & Hw). apply push_cursor; assumption.
  - unfold pop. destruct (negb _); [exact Hc|].
    destruct Hok as (H1 & H2 & H3). unfold cursor_in_region. simpl. lia.
  - destruct Hr as (H1 & H2 & H3). unfold clear, cursor_in_region. simpl. lia.
  - destruct Hok as (Hp & Hal & Hsz & Hw).
    destruct (try_grow_after b al additional a) as [-> | ->];
      [exact Hc | apply push_cursor; assumption].
  - destruct Hok as ((H1 & H2 & H3) & Hn).
    unfold try_shrink. destruct (Z.gtb_spec n (MemoryBlock.size b)); [exact Hc|].
    unfold pop. destruct (negb _); [exact Hc|].
    destruct Hr as (R1 & R2 & R3).
    unfold cursor_in_region. simpl.
    rewrite wrap_small by (unfold is_size_t; lia). lia.
Qed.

Lemma states_cursor cs : forall a,
  region_ok a -> cursor_in_region a -> calls_ok cs a ->
  Forall (fun a' => cursor_in_region a' /\ m_block a' = m_block a)
         (states cs a).
Proof.
  induction cs as [|c cs IH]; intros a Hr Hc Hok; simpl.
  - constructor.
  - destruct Hok as [Hc1 Hrest].
    pose proof (after_cursor c a Hr Hc Hc1) as Hc'.
    pose proof (after_region c a) as Hreg.
    constructor; [split; assumption|].
    assert (region_ok (after c a)) as Hr'
      by (unfold region_ok; rewrite Hreg; exact Hr).
    eapply Forall_impl; [apply IH; assumption|].
    simpl. intros a' [H1 H2]. split; [exact H1 | congruence].
Qed.

(** C10, as amended.  For every arena created with capacity [c] over a
    reserved region of the address space, and every sequence of [push],
    [pop], [clear], [try_grow] and [try_shrink] calls that respect the
    contract of the interface (power-of-two alignments, sizes that do not
    wrap the cursor arithmetic, blocks given to [pop] and [try_shrink] that
    lie inside the reserved region), [base <= cursor <= base + capacity]
    holds after every call, and the region never changes. *)
Theorem cursor_stays_in_region c reserved a cs :
  Arena.create c reserved true = Some a ->
  is_size_t (ptr reserved) -> is_size_t (MemoryBlock.size reserved) ->
  ptr reserved + MemoryBlock.size reserved <= SIZE_MAX ->
  calls_ok cs a ->
  Forall (fun a' => cursor_in_region a' /\ m_block a' = reserved)
         (states cs a).
Proof.
  intros Hcreate Hp Hs Hfit Hok. unfold Arena.create in Hcreate.
  destruct (negb (c >? 0)); [discriminate|]. simpl in Hcreate.
  injection Hcreate as <-. unfold is_size_t in *.
  apply (states_cursor cs {| m_block := reserved; m_end := ptr reserved |});
    [| |exact Hok].
  - unfold region_ok. simpl. lia.
  - unfold cursor_in_region. simpl. lia.
Qed.

Lemma cursor_stays_in_region_witness :
  Forall (fun a' => cursor_in_region a' /\
                    m_block a' = {| ptr := 4096; MemoryBlock.size := 4096 |})
    (states [Push 16 4; Push 16 4;
             Pop {| ptr := 4096; MemoryBlock.size := 16 |} 4;
             Pop {| ptr := 4112; MemoryBlock.size := 16 |} 4;
             TryGrow {| ptr := 4096; MemoryBlock.size := 16 |} 4 16;
             TryShrink {| ptr := 4096; MemoryBlock.size := 32 |} 4 8;
             Clear] arena_4096).
Proof.
  apply (cursor_stays_in_region 64 {| ptr := 4096; MemoryBlock.size := 4096 |}).
  - reflexivity.
  - vm_compute; intuition discriminate.
  - vm_compute; intuition discriminate.
  - vm_compute; discriminate.
  - vm_compute; intuition discriminate.
Defined.

(** C10, as stated, fails: with arbitrary block arguments the cursor leaves
    the region.  [pop] only compares the end of the block with the cursor;
    the block [{0, 4096}] ends at the cursor of the fresh arena, and popping
    it moves the cursor to address [0], below the base. *)
Lemma cursor_leaves_region :
  ~ (forall c reserved a cs,
       Arena.create c reserved true = Some a ->
       is_size_t (ptr reserved) -> is_size_t (MemoryBlock.size reserved) ->
       ptr reserved + MemoryBlock.size reserved <= SIZE_MAX ->
       Forall cursor_in_region (states cs a)).
Proof.
  intros H.
  specialize (H 64 {| ptr := 4096; MemoryBlock.size := 4096 |} arena_4096
                [Pop {| ptr := 0; MemoryBlock.size := 4096 |} 1]).
  assert (Forall cursor_in_region
            (states [Pop {| ptr := 0; MemoryBlock.size := 4096 |} 1]
                    arena_4096)) as Hall.
  { apply H; vm_compute; intuition discriminate. }
  apply Forall_cons_1 in Hall as [[Hlo _] _].
  vm_compute in Hlo. apply Hlo. reflexivity.
Qed.

(** ** The LIFO discipline *)

Lemma push_all_cons al sz szs a :
  push_all al (sz :: szs) a =
    (fst (push sz al a) :: fst (push_all al szs (snd (push sz al a))),
     snd (push_all al szs (snd (push sz al a)))).
Proof.
  simpl. destruct (push sz al a) as [b a1]. simpl.
  destruct (push_all al szs a1). reflexivity.
Qed.

Lemma pop_all_cons al b bs a :
  pop_all al (b :: bs) a =
    (fst (pop b al a) :: fst (pop_all al bs (snd (pop b al a))),
     snd (pop_all al bs (snd (pop b al a)))).
Proof.
  simpl. destruct (pop b al a) as [ok a1]. simpl.
  destruct (pop_all al bs a1). reflexivity.
Qed.

Lemma push_all_app al s1 : forall s2 a,
  push_all al (s1 ++ s2) a =
    (fst (push_all al s1 a) ++ fst (push_all al s2 (snd (push_all al s1 a))),
     snd (push_all al s2 (snd (push_all al s1 a)))).
Proof.
  induction s1 as [|sz s1 IH]; intros s2 a.
  - simpl. destruct (push_all al s2 a). reflexivity.
  - rewrite <- app_comm_cons, !push_all_cons, IH. reflexivity.
Qed.

Lemma pop_all_app al l1 : forall l2 a,
  pop_all al (l1 ++ l2) a =
    (fst (pop_all al l1 a) ++ fst (pop_all al l2 (snd (pop_all al l1 a))),
     snd (pop_all al l2 (snd (pop_all al l1 a)))).
Proof.
  induction l1 as [|b l1 IH]; intros l2 a.
  - simpl. destruct (pop_all al l2 a). reflexivity.
  - rewrite <- app_comm_cons, !pop_all_cons, IH. reflexivity.
Qed.

Lemma pushes_nonempty_app al s1 : forall s2 a,
  pushes_nonempty al (s1 ++ s2) a ->
  pushes_nonempty al s1 a /\
  pushes_nonempty al s2 (snd (push_all al s1 a)).
Proof.
  induction s1 as [|sz s1 IH]; intros s2 a H.
  - split; [exact I | exact H].
  - rewrite <- app_comm_cons in H. destruct H as (H1 & H2 & H3).
    apply IH in H3 as [H3 H4]. rewrite push_all_cons. simpl. tauto.
Qed.

Lemma pushes_no_wrap_app al s1 : forall s2 a,
  pushes_no_wrap al (s1 ++ s2) a ->
  pushes_no_wrap al s1 a /\
  pushes_no_wrap al s2 (snd (push_all al s1 a)).
Proof.
  induction s1 as [|sz s1 IH]; intros s2 a H.
  - split; [exact I | exact H].
  - rewrite <- app_comm_cons in H. destruct H as (H1 & H2).
    apply IH in H2 as [H2 H3]. rewrite push_all_cons. simpl. tauto.
Qed.

Section Lifo.
Variable al : Z.
Hypothesis Hpow : is_pow2 al = true.
Hypothesis Hal : is_size_t al.

(** One successful push, in unbounded arithmetic. *)
Lemma push_step sz a :
  region_ok a -> cursor_in_region a -> is_size_t sz ->
  push_no_wrap sz al a ->
  MemoryBlock.size (fst (push sz al a)) <> 0 ->
  let b := fst (push sz al a) in
  let a1 := snd (push sz al a) in
  m_block a1 = m_block a /\ region_ok a1 /\ cursor_in_region a1 /\
  ptr b = align_forward (m_end a) al /\ m_end a <= ptr b /\
  0 < MemoryBlock.size b /\ ptr b + MemoryBlock.size b = m_end a1 /\
  m_end a1 mod al = 0.
Proof.
  intros Hr Hc Hsz Hw Hne. cbv zeta.
  destruct (push_exact sz al a Hr Hc Hpow Hal Hsz Hw)
    as (Hpush & Hb & He & _ & Hmod & _).
  rewrite Hpush in *. destruct Hc as [Hlo Hhi]. unfold is_size_t in Hsz.
  destruct (Z.gtb_spec (align_forward (align_forward (m_end a) al + sz) al)
              (ptr (m_block a) + MemoryBlock.size (m_block a))) as [Hgt|Hle];
    simpl in *; [congruence|].
  unfold region_ok, cursor_in_region. simpl.
  repeat split; try apply Hr; try lia; try exact Hmod.
Qed.

(** What a run of successful pushes leaves behind. *)
Lemma push_all_facts szs : forall a,
  region_ok a -> cursor_in_region a ->
  pushes_nonempty al szs a -> pushes_no_wrap al szs a ->
  let bs := fst (push_all al szs a) in
  let an := snd (push_all al szs a) in
  m_block an = m_block a /\ region_ok an /\ cursor_in_region an /\
  m_end a <= m_end an /\ length bs = length szs /\
  (szs <> [] -> m_end an mod al = 0 /\ m_end a < m_end an) /\
  (forall (i : nat) bi, bs !! i = Some bi ->
     m_end a <= ptr bi /\ 0 < MemoryBlock.size bi /\
     ptr bi + MemoryBlock.size bi <= m_end an /\
     (S i = length bs -> ptr bi + MemoryBlock.size bi = m_end an) /\
     ((S i < length bs)%nat -> ptr bi + MemoryBlock.size bi < m_end an)).
Proof.
  induction szs as [|sz szs IH]; intros a Hr Hc Hne Hw; cbv zeta.
  - simpl. do 5 (split; [first [assumption|reflexivity|lia]|]).
    split; [congruence|].
    intros i bi Hi. rewrite lookup_nil in Hi. discriminate.
  - destruct Hne as (Hsz & Hne1 & Hne). destruct Hw as (Hw1 & Hw).
    rewrite push_all_cons. cbn [fst snd].
    destruct (push_step sz a Hr Hc Hsz Hw1 Hne1)
      as (Hblk & Hr1 & Hc1 & Hptr & Hge & Hpos & Hend & Hmod).
    destruct (IH _ Hr1 Hc1 Hne Hw)
      as (Hblk' & Hr' & Hc' & Hmono & Hlen & Hfin & Hall).
    split; [congruence|]. split; [assumption|]. split; [assumption|].
    split; [lia|]. split; [cbn [length]; congruence|].
    split.
    + intros _. destruct szs as [|sz' szs'].
      * cbn [push_all fst snd] in *. split; [exact Hmod | lia].
      * destruct Hfin as [Hm Hlt]; [discriminate|]. split; [exact Hm | lia].
    + intros [|i] bi Hi; cbn [lookup list_lookup] in Hi.
      * injection Hi as <-. repeat split; try lia.
        -- intros Hone. cbn [length] in Hone.
           destruct szs;
             [cbn [push_all fst snd] in *; lia | cbn [length] in *; lia].
        -- intros Hmore. cbn [length] in Hmore.
           destruct szs as [|sz' szs']; [cbn [length] in *; lia|].
           destruct Hfin as [_ Hlt]; [discriminate|]. lia.
      * destruct (Hall i bi Hi) as (H1 & H2 & H3 & H4 & H5).
        repeat split; try lia.
        -- intros Hone. apply H4. cbn [length] in Hone. lia.
        -- intros Hmore. apply H5. cbn [length] in Hmore. lia.
Qed.

(** Popping, last first, everything a run pushed from an aligned cursor
    succeeds at every step and gives the arena back as it was. *)
Lemma pop_all_rewinds szs : forall a,
  region_ok a -> cursor_in_region a ->
  pushes_nonempty al szs a -> pushes_no_wrap al szs a ->
  m_end a mod al = 0 ->
  pop_all al (rev (fst (push_all al szs a))) (snd (push_all al szs a)) =
    (replicate (length szs) true, a).
Proof.
  induction szs as [|sz szs IH]; intros a Hr Hc Hne Hw Hmod.
  - reflexivity.
  - destruct Hne as (Hsz & Hne1 & Hne). destruct Hw as (Hw1 & Hw).
    rewrite push_all_cons. cbn [fst snd].
    destruct (push_step sz a Hr Hc Hsz Hw1 Hne1)
      as (Hblk & Hr1 & Hc1 & Hptr & Hge & Hpos & Hend & Hmod1).
    simpl rev. rewrite pop_all_app, (IH _ Hr1 Hc1 Hne Hw Hmod1).
    cbn [fst snd].
    assert (is_size_t (m_end a)) as Hsa.
    { destruct Hr as (? & ? & ?), Hc. unfold is_size_t. lia. }
    assert (is_size_t (m_end (snd (push sz al a)))) as Hs1.
    { destruct Hr1 as (? & ? & ?), Hc1. unfold is_size_t. lia. }
    rewrite pop_all_cons, pop_true.
    + cbn [fst snd pop_all length]. rewrite replicate_S_end. f_equal.
      rewrite Hblk, Hptr, (align_forward_aligned _ _ Hpow Hal Hsa Hmod).
      destruct a; reflexivity.
    + rewrite Hend, (wrap_small _ Hs1).
      symmetry. apply align_forward_aligned; assumption.
Qed.

Lemma lifo_split s1 s2 a :
  region_ok a -> cursor_in_region a ->
  pushes_nonempty al (s1 ++ s2) a -> pushes_no_wrap al (s1 ++ s2) a ->
  s1 <> [] ->
  let bs1 := fst (push_all al s1 a) in
  let a1 := snd (push_all al s1 a) in
  let bs2 := fst (push_all al s2 a1) in
  let an := snd (push_all al s2 a1) in
  pop_all al (rev bs2) an = (replicate (length s2) true, a1) /\
  forall (j : nat) bj, S j = length s1 -> bs1 !! j = Some bj ->
    pop bj al a1 = (true, {| m_block := m_block a; m_end := ptr bj |}) /\
    forall (i : nat) bi, (i < j)%nat -> bs1 !! i = Some bi ->
      pop bi al a1 = (false, a1).
Proof.
  intros Hr Hc Hne Hw Hs1. cbv zeta.
  apply pushes_nonempty_app in Hne as [Hne1 Hne2].
  apply pushes_no_wrap_app in Hw as [Hw1 Hw2].
  destruct (push_all_facts s1 a Hr Hc Hne1 Hw1)
    as (Hblk & Hr1 & Hc1 & Hmono & Hlen & Hfin & Hall).
  destruct (Hfin Hs1) as [Hmod _].
  assert (is_size_t (m_end (snd (push_all al s1 a)))) as Hsz1.
  { destruct Hr1 as (? & ? & ?), Hc1. unfold is_size_t. lia. }
  assert (align_forward (m_end (snd (push_all al s1 a))) al
          = m_end (snd (push_all al s1 a))) as Haf
    by (apply align_forward_aligned; assumption).
  assert (0 <= m_end a) as Hea by (destruct Hr as (? & ? & ?), Hc; lia).
  split; [apply pop_all_rewinds; assumption|].
  intros j bj Hj Hbj. split.
  - destruct (Hall j bj Hbj) as (_ & _ & _ & Heq & _).
    rewrite pop_true; [rewrite Hblk; reflexivity|].
    rewrite Heq by lia. rewrite wrap_small by assumption. symmetry. exact Haf.
  - intros i bi Hij Hbi.
    destruct (Hall i bi Hbi) as (Hge & Hpos & _ & _ & Hlt).
    apply pop_false. rewrite Haf.
    specialize (Hlt ltac:(lia)).
    rewrite wrap_small; [lia|].
    unfold is_size_t in *. lia.
Qed.

Lemma lifo_app s1 s2 a :
  region_ok a -> cursor_in_region a ->
  pushes_nonempty al (s1 ++ s2) a -> pushes_no_wrap al (s1 ++ s2) a ->
  forall (j : nat) bj,
    S j = length s1 ->
    fst (push_all al (s1 ++ s2) a) !! j = Some bj ->
    let bs := fst (push_all al (s1 ++ s2) a) in
    let popped :=
      pop_all al (rev (drop (S j) bs)) (snd (push_all al (s1 ++ s2) a)) in
    fst popped = replicate (length bs - S j) true /\
    pop bj al (snd popped) =
      (true, {| m_block := m_block a; m_end := ptr bj |}) /\
    forall (i : nat) bi, (i < j)%nat -> bs !! i = Some bi ->
      pop bi al (snd popped) = (false, snd popped).
Proof.
  intros Hr Hc Hne Hw j bj Hj Hbj. cbv zeta.
  assert (s1 <> []) as Hnil by (destruct s1; [simpl in Hj; lia|discriminate]).
  destruct (lifo_split s1 s2 a Hr Hc Hne Hw Hnil) as [Hrew Htop].
  destruct (pushes_nonempty_app _ _ _ _ Hne) as [Hne1 Hne2].
  destruct (pushes_no_wrap_app _ _ _ _ Hw) as [Hw1 Hw2].
  destruct (push_all_facts s1 a Hr Hc Hne1 Hw1)
    as (_ & Hr1 & Hc1 & _ & Hlen1 & _).
  destruct (push_all_facts s2 _ Hr1 Hc1 Hne2 Hw2)
    as (_ & _ & _ & _ & Hlen2 & _).
  rewrite push_all_app in *. cbn [fst snd] in *.
  assert (S j = length (fst (push_all al s1 a))) as Hj1 by congruence.
  assert (drop (S j) (fst (push_all al s1 a)
                      ++ fst (push_all al s2 (snd (push_all al s1 a))))
          = fst (push_all al s2 (snd (push_all al s1 a)))) as Hdrop
    by (rewrite Hj1; apply drop_app_length).
  rewrite !Hdrop, !Hrew. cbn [fst snd].
  rewrite lookup_app_l in Hbj by lia.
  destruct (Htop j bj Hj Hbj) as [Hpop Hfail].
  split; [|split].
  - f_equal. rewrite length_app. lia.
  - exact Hpop.
  - intros i bi Hij Hbi. rewrite lookup_app_l in Hbi by lia.
    exact (Hfail i bi Hij Hbi).
Qed.

(** C6, as amended.  For every arena whose cursor lies in its region and
    every run of [push] calls with one power-of-two alignment that return
    non-empty blocks [b_1 .. b_n] and whose additions do not wrap around:
    [pop(b_n)], then [pop(b_(n-1))], and so on succeed in strict reverse
    order, each rewinding the cursor to the pointer of the popped block, and
    [pop(b_i)] while a later block is still live returns [false] and leaves
    the arena unchanged. *)
Theorem arena_lifo szs a :
  region_ok a -> cursor_in_region a ->
  pushes_nonempty al szs a -> pushes_no_wrap al szs a ->
  lifo_discipline al szs a.
Proof.
  intros Hr Hc Hne Hw j bj Hj.
  destruct (push_all_facts szs a Hr Hc Hne Hw) as (_ & _ & _ & _ & Hlen & _).
  pose proof (lookup_lt_Some _ _ _ Hj) as Hjlt.
  pose proof (lifo_app (take (S j) szs) (drop (S j) szs) a) as H.
  rewrite take_drop in H.
  apply (H Hr Hc Hne Hw j bj); [|exact Hj].
  rewrite length_take. lia.
Qed.

End Lifo.

Lemma arena_lifo_witness : lifo_discipline 4 [16; 16] arena_4096.
Proof.
  apply (arena_lifo 4 eq_refl).
  - vm_compute; intuition discriminate.
  - vm_compute; intuition discriminate.
  - vm_compute; intuition discriminate.
  - vm_compute; intuition discriminate.
  - vm_compute; intuition discriminate.
Defined.

(** The scenario of the test suite ([TEST(Arena, pop)]): after two pushes of
    16 bytes, popping the first block fails, popping the second succeeds,
    then popping the first succeeds and the arena is empty. *)
Example arena_pop_scenario :
  let '(block2, a1) := push 16 4 arena_4096 in
  let '(block3, a2) := push 16 4 a1 in
  pop block2 4 a2 = (false, a2) /\
  pop block3 4 a2 = (true, a1) /\
  pop block2 4 a1 = (true, arena_4096) /\
  Arena.empty arena_4096 = true.
Proof. vm_compute. repeat split; reflexivity. Qed.

(** C6, as stated, fails: a push whose size makes [addr_begin + size] wrap
    around moves the cursor backwards.  After [push(8, 1)],
    [push(2^64 - 4, 1)] and [push(4, 1)], all of which return non-empty
    blocks, the cursor is back at the end of the first block, and popping
    the first block succeeds while the two later blocks are live. *)
Lemma arena_lifo_broken_by_wrap :
  ~ (forall al szs a,
       region_ok a -> cursor_in_region a ->
       is_pow2 al = true -> is_size_t al ->
       pushes_nonempty al szs a ->
       lifo_discipline al szs a).
Proof.
  intros H.
  assert (lifo_discipline 1 [8; 2 ^ 64 - 4; 4] arena_4096) as Hl.
  { apply H; vm_compute; intuition discriminate. }
  destruct (Hl 2%nat {| ptr := 4100; MemoryBlock.size := 4 |})
    as (_ & _ & Hfail); [vm_compute; reflexivity|].
  specialize (Hfail 0%nat {| ptr := 4096; MemoryBlock.size := 8 |}).
  assert (pop {| ptr := 4096; MemoryBlock.size := 8 |} 1
            (snd (pop_all 1
               (rev (drop 3 (fst (push_all 1 [8; 2 ^ 64 - 4; 4] arena_4096))))
               (snd (push_all 1 [8; 2 ^ 64 - 4; 4] arena_4096))))
          = (true, {| m_block := m_block arena_4096; m_end := 4096 |})) as Hrun
    by (vm_compute; reflexivity).
  rewrite Hfail in Hrun; [discriminate|lia|vm_compute; reflexivity].
Qed.

End ArenaFacts.

(** * The array *)

Section ArrayRuns.
Import MemoryBlock.

(** C1: the claim fails on the code.  [append] grows through
    [reserve(size() + 1)], which asks the allocator for exactly
    [(size() + 1) * sizeof(T)] bytes; [allocate_amortized], which doubles,
    is never called.  A full [Array<int>] of 4 elements (16 bytes) grows to a
    block of 24 bytes (20 bytes rounded up by the allocator), not to
    [max(16 * 2, 20) = 32] bytes. *)
Theorem append_grows_to_exact_fit :
  match run_append heap_4096 with
  | Some ((a, a'), h) =>
      Array.size a = 4 /\ Array.capacity a = 4 /\
      size (Array.m_block a) = 16 /\
      Array.size a' = 5 /\ size (Array.m_block a') = 24 /\
      max (size (Array.m_block a) * 2) ((Array.size a + 1) * sizeof) = 32 /\
      size (Array.m_block a') <>
        max (size (Array.m_block a) * 2) ((Array.size a + 1) * sizeof)
  | None => False
  end.
Proof. vm_compute. repeat split; discriminate. Qed.

(** The unused helper does double: on the same array it asks for 32
    bytes. *)
Example allocate_amortized_doubles :
  fst <$> (let* a := Array.with_count GlobalAllocator.mk 4 (copied 7) in
           Array.allocate_amortized 5 a) heap_4096
  = Some {| ptr := 4112; size := 32 |}.
Proof. vm_compute. reflexivity. Qed.

(** C2: the claim fails on the code, through the defect of [insert]
    described at C3.  After [reserve(6)], two [append]s and [insert(1, 30)]
    the array has [size() == 3 <= capacity() == 6], but index 2, which is
    below [size()], holds no live element: [insert] moved the element that
    was at index 1 to the last slot of the block instead of to index 2. *)
Theorem insert_leaves_dead_slot_below_size :
  match run_insert heap_4096 with
  | Some (a, h) =>
      Array.size a = 3 /\ Array.capacity a = 6 /\
      Array.size a <= Array.capacity a /\
      Array.get a 0 h = Some 10 /\ Array.get a 1 h = Some 30 /\
      Array.get a 2 h = None
  | None => False
  end.
Proof. vm_compute. repeat split; discriminate. Qed.

(** C3: the claim fails on the code for [insert].  [insert] relocates the
    tail [[idx, n)] into the span [as_raw_span()[{.start = size() + 1}]],
    whose last slot is the last slot of the block, so the tail ends at
    the end of the capacity, not one slot to the right.  With [n = 2],
    capacity 6 and [insert(1, 30)], the element 20 formerly at index 1 is
    at index 5, not at index 2, and index 2 is dead. *)
Theorem insert_moves_tail_to_block_end :
  match run_two_of_six heap_4096, run_insert heap_4096 with
  | Some (a0, h0), Some (a, h) =>
      Array.elements a0 h0 = [Some 10; Some 20] /\
      Array.capacity a0 = 6 /\
      Array.size a = 3 /\
      Array.elements a h = [Some 10; Some 30; None] /\
      slots a h = [Some 10; Some 30; None; None; None; Some 20]
  | _, _ => False
  end.
Proof. vm_compute. repeat split; reflexivity. Qed.

(** [insert_range], the sibling of [insert], shifts by the length of the
    range on the same array. *)
Example insert_range_shifts_tail :
  match run_insert_range heap_4096 with
  | Some (a, h) =>
      Array.size a = 4 /\
      slots a h = [Some 10; Some 30; Some 40; Some 20; None; None]
  | None => False
  end.
Proof. vm_compute. repeat split; reflexivity. Qed.

(** C4: the claim fails on the code.  When [size() < count <= capacity()],
    [assign(count, x)] overwrites the existing elements with [x] but
    constructs the extra ones with [construct(span)], without [x]: they are
    value-initialised.  An [Array<int>] of one element in a block of two
    slots holds [5, 0] after [assign(2, 5)], not [5, 5]; the block is
    kept. *)
Theorem assign_constructs_extras_without_value :
  match run_assign heap_4096 with
  | Some ((a, a'), h) =>
      Array.size a = 1 /\ Array.capacity a = 2 /\
      Array.m_block a' = Array.m_block a /\
      Array.size a' = 2 /\
      Array.elements a' h = [Some 5; Some 0] /\
      Array.get a' 1 h <> Some 5
  | None => False
  end.
Proof.
  vm_compute. repeat split; try reflexivity. intros H. discriminate H.
Qed.

(** C7: the claim fails on the code for the copies.  The delegation
    [Array(other.data(), other.size())] of the copy constructor and the call
    [assign(other.data(), other.size())] of the copy assignment pass a
    pointer and a [size_t]; no declared constructor and no overload of
    [assign] is viable for these arguments, so neither copy names a
    function: a program that copies an [Array] is ill-formed, and no deep
    copy exists to be made. *)
Theorem copy_has_no_viable_overload :
  filter (fun ps => Overloads.viable Overloads.copy_call ps = true)
         Overloads.constructors = [] /\
  filter (fun ps => Overloads.viable Overloads.copy_call ps = true)
         Overloads.assign_overloads = [].
Proof. vm_compute. split; reflexivity. Qed.

End ArrayRuns.

(** * Further properties: bits and arithmetic *)

Section BitMathFacts.

Lemma pow2_positive al : is_pow2 al = true -> 0 < al.
Proof.
  unfold is_pow2. intros H. apply andb_prop in H as [H _].
  apply Z.ltb_lt in H. exact H.
Qed.

(** [align_backward] rounds down to the nearest multiple of a power-of-two
    alignment: the result is a multiple of the alignment, at most [x] and
    less than one alignment below [x]. *)
Theorem align_backward_rounds_down x al :
  is_pow2 al = true -> is_size_t al -> is_size_t x ->
  x - al < align_backward x al <= x /\ align_backward x al mod al = 0.
Proof.
  intros Hp Hal Hx.
  destruct (is_pow2_spec al Hp Hal) as (k & Hk & ->).
  rewrite align_backward_pow2 by assumption.
  assert (0 < 2 ^ k) by lia.
  pose proof (Z.div_mod x (2 ^ k) ltac:(lia)).
  pose proof (Z.mod_pos_bound x (2 ^ k) ltac:(lia)).
  split; [lia|]. rewrite Z.mul_comm. apply Z.mod_mul. lia.
Qed.

Lemma align_backward_rounds_down_witness :
  13 - 8 < align_backward 13 8 <= 13 /\ align_backward 13 8 mod 8 = 0.
Proof.
  apply (align_backward_rounds_down 13 8).
  - reflexivity.
  - vm_compute; intuition discriminate.
  - vm_compute; intuition discriminate.
Defined.

(** [align_forward] rounds up to the nearest multiple of a power-of-two
    alignment when [x + (alignment - 1)] does not overflow: the result is a
    multiple of the alignment, at least [x] and less than one alignment
    above [x]. *)
Theorem align_forward_rounds_up x al :
  is_pow2 al = true -> is_size_t al -> 0 <= x -> x + (al - 1) <= SIZE_MAX ->
  x <= align_forward x al < x + al /\ align_forward x al mod al = 0.
Proof. apply align_forward_bounds. Qed.

Lemma align_forward_rounds_up_witness :
  13 <= align_forward 13 8 < 13 + 8 /\ align_forward 13 8 mod 8 = 0.
Proof.
  apply (align_forward_rounds_up 13 8).
  - reflexivity.
  - vm_compute; intuition discriminate.
  - lia.
  - vm_compute; discriminate.
Defined.

(** Without its precondition [align_forward] does not round up: when
    [x + (alignment - 1)] overflows the result wraps to a small address. *)
Theorem align_forward_wraps_on_overflow :
  align_forward (2 ^ 64 - 3) 8 = 0.
Proof. vm_compute. reflexivity. Qed.

(** [align_forward] is idempotent. *)
Theorem align_forward_idempotent x al :
  is_pow2 al = true -> is_size_t al -> 0 <= x -> x + (al - 1) <= SIZE_MAX ->
  align_forward (align_forward x al) al = align_forward x al.
Proof.
  intros Hp Hal Hx Hfit.
  destruct (align_forward_bounds x al Hp Hal Hx Hfit) as [[H1 H2] H3].
  apply align_forward_aligned; try assumption.
  unfold is_size_t in *. lia.
Qed.

Lemma align_forward_idempotent_witness :
  align_forward (align_forward 13 8) 8 = align_forward 13 8.
Proof.
  apply (align_forward_idempotent 13 8).
  - reflexivity.
  - vm_compute; intuition discriminate.
  - lia.
  - vm_compute; discriminate.
Defined.

(** [to_signed] undoes [to_unsigned] on every value of a signed type, and
    [to_unsigned] undoes [to_signed] on every value of the unsigned type of
    the same width. *)
Theorem to_signed_to_unsigned w x :
  0 < w ->
  (in_range (IntType w true) x ->
   to_signed (IntType w true) (to_unsigned (IntType w true) x) = x) /\
  (in_range (IntType w false) x ->
   to_unsigned (IntType w false) (to_signed (IntType w false) x) = x).
Proof.
  intros Hw. unfold in_range, int_min, int_max, to_signed, to_unsigned.
  simpl.
  assert (2 ^ w = 2 * 2 ^ (w - 1)) as E.
  { replace w with (1 + (w - 1)) at 1 by lia.
    rewrite Z.pow_add_r by lia. reflexivity. }
  assert (0 < 2 ^ (w - 1)) by (apply Z.pow_pos_nonneg; lia).
  split; intros Hx.
  - rewrite Z.mod_mod by lia.
    destruct (Z.ltb_spec (x mod 2 ^ w) (2 ^ (w - 1))) as [Hlt|Hge].
    + destruct (Z_lt_le_dec x 0) as [Hneg|Hpos].
      * exfalso. assert (x mod 2 ^ w = x + 2 ^ w); [|lia].
        symmetry. apply (Z.mod_unique_pos _ _ (-1)); lia.
      * apply Z.mod_small. lia.
    + destruct (Z_lt_le_dec x 0) as [Hneg|Hpos].
      * assert (x mod 2 ^ w = x + 2 ^ w); [|lia].
        symmetry. apply (Z.mod_unique_pos _ _ (-1)); lia.
      * exfalso. rewrite Z.mod_small in Hge by lia. lia.
  - rewrite (Z.mod_small x) by lia.
    destruct (Z.ltb_spec x (2 ^ (w - 1))).
    + apply Z.mod_small. lia.
    + symmetry. apply (Z.mod_unique_pos _ _ (-1)); lia.
Qed.

Lemma to_signed_to_unsigned_witness :
  to_signed int32_type (to_unsigned int32_type (-5)) = -5.
Proof.
  destruct (to_signed_to_unsigned 32 (-5) ltac:(lia)) as [H _].
  apply H. vm_compute. intuition discriminate.
Defined.

(** [checked_shl] and [checked_shr] have no value exactly when the amount
    is at least the width of the type; a left shift that loses no bit is
    undone by the right shift of the same amount. *)
Theorem checked_shift_round_trip ty x amount :
  0 <= amount -> 0 <= x ->
  (checked_shl ty x amount = None <-> bits ty <= amount) /\
  (checked_shr ty x amount = None <-> bits ty <= amount) /\
  (amount < bits ty -> x < 2 ^ (bits ty - amount) ->
   exists y, checked_shl ty x amount = Some y /\
             checked_shr ty y amount = Some x).
Proof.
  intros Ha Hx. unfold checked_shl, checked_shr, bits_of.
  destruct (Z.geb_spec amount (bits ty)) as [Hge|Hlt].
  - repeat split; try reflexivity; try lia.
  - split; [split; [discriminate|lia]|].
    split; [split; [discriminate|lia]|].
    intros _ Hfit. eexists. split; [reflexivity|]. f_equal.
    rewrite Z.shiftl_mul_pow2 by lia.
    assert (2 ^ bits ty = 2 ^ (bits ty - amount) * 2 ^ amount) as E
      by (rewrite <- Z.pow_add_r by lia; f_equal; lia).
    assert (0 < 2 ^ amount) by (apply Z.pow_pos_nonneg; lia).
    rewrite Z.mod_small by nia.
    rewrite Z.shiftr_div_pow2 by lia. apply Z.div_mul. lia.
Qed.

Lemma checked_shift_round_trip_witness :
  exists y, checked_shl size_t_type 5 3 = Some y /\
            checked_shr size_t_type y 3 = Some 5.
Proof.
  destruct (checked_shift_round_trip size_t_type 5 3 ltac:(lia) ltac:(lia))
    as (_ & _ & H).
  apply H; [vm_compute; reflexivity | vm_compute; reflexivity].
Defined.

(** [clamp(lo, x, hi)] with [lo <= hi] lies between [lo] and [hi] and is
    [x] itself when [x] already does. *)
Theorem clamp_between lo x hi :
  lo <= hi ->
  lo <= clamp lo x hi <= hi /\ (lo <= x <= hi -> clamp lo x hi = x).
Proof.
  intros H. unfold clamp, min, max.
  destruct (Z.ltb_spec x lo);
    [destruct (Z.ltb_spec hi lo) | destruct (Z.ltb_spec hi x)]; lia.
Qed.

Lemma clamp_between_witness :
  1 <= clamp 1 7 5 <= 5 /\ clamp 1 3 5 = 3.
Proof.
  split.
  - apply (clamp_between 1 7 5). lia.
  - apply (clamp_between 1 3 5); lia.
Defined.

(** [saturating_add] is the exact sum clamped to the range of the type, for
    signed and unsigned types alike. *)
Theorem saturating_add_clamps ty x y :
  0 < bits ty -> in_range ty x -> in_range ty y ->
  saturating_add ty x y = Z.max (int_min ty) (Z.min (int_max ty) (x + y)).
Proof.
  intros Hb. unfold in_range, saturating_add, checked_add, checked.
  assert (0 < 2 ^ (bits ty - 1)) by (apply Z.pow_pos_nonneg; lia).
  assert (0 < 2 ^ bits ty) by (apply Z.pow_pos_nonneg; lia).
  unfold int_min, int_max. destruct (signed ty); simpl; intros Hx Hy.
  - destruct (Z.leb_spec (- 2 ^ (bits ty - 1)) (x + y));
      destruct (Z.leb_spec (x + y) (2 ^ (bits ty - 1) - 1)); simpl;
      try destruct (Z.gtb_spec x 0); lia.
  - destruct (Z.leb_spec 0 (x + y));
      destruct (Z.leb_spec (x + y) (2 ^ bits ty - 1)); simpl; lia.
Qed.

Lemma saturating_add_clamps_witness :
  saturating_add int32_type (2 ^ 31 - 1) 5 =
    Z.max (int_min int32_type) (Z.min (int_max int32_type) (2 ^ 31 - 1 + 5)).
Proof.
  apply (saturating_add_clamps int32_type).
  - reflexivity.
  - vm_compute; intuition discriminate.
  - vm_compute; intuition discriminate.
Defined.

End BitMathFacts.

(** * Further properties: the arena *)

Section ArenaMore.
Import MemoryBlock Arena.

(** A [push] that respects the preconditions either fails, returning the
    empty block and leaving the arena as it is, or returns a block whose
    pointer and size are multiples of the alignment, that starts less than
    one alignment after the old cursor, holds the requested bytes with less
    than one alignment of padding, and ends at the new cursor. *)
Theorem push_block_aligned sz al a :
  region_ok a -> cursor_in_region a ->
  is_pow2 al = true -> is_size_t al -> is_size_t sz ->
  push_no_wrap sz al a ->
  let b := fst (push sz al a) in
  let a1 := snd (push sz al a) in
  (b = MemoryBlock.empty /\ a1 = a) \/
  (ptr b mod al = 0 /\ MemoryBlock.size b mod al = 0 /\
   m_end a <= ptr b < m_end a + al /\
   sz <= MemoryBlock.size b < sz + al /\
   m_end a1 = ptr b + MemoryBlock.size b /\ m_block a1 = m_block a).
Proof.
  intros Hr Hc Hp Hal Hsz [Hw1 Hw2]. cbv zeta.
  destruct (push_exact sz al a Hr Hc Hp Hal Hsz (conj Hw1 Hw2))
    as (Hpush & _ & _ & Hm1 & Hm2 & _).
  assert (0 <= m_end a) as Hend by (destruct Hr as (? & ? & ?), Hc; lia).
  destruct (align_forward_bounds (m_end a) al Hp Hal Hend Hw1)
    as [[Hb1 Hb2] _].
  unfold is_size_t in Hsz.
  destruct (align_forward_bounds (align_forward (m_end a) al + sz) al Hp Hal
              ltac:(lia) Hw2) as [[He1 He2] _].
  pose proof (pow2_positive al Hp) as Hpos.
  rewrite Hpush.
  destruct (_ >? _); [left; split; reflexivity|right].
  cbn [fst snd ptr MemoryBlock.size m_end m_block].
  repeat split; try lia; try assumption.
  rewrite Zminus_mod, Hm1, Hm2. reflexivity.
Qed.

Lemma push_block_aligned_witness :
  let b := fst (push 13 8 arena_4096) in
  let a1 := snd (push 13 8 arena_4096) in
  (b = MemoryBlock.empty /\ a1 = arena_4096) \/
  (ptr b mod 8 = 0 /\ MemoryBlock.size b mod 8 = 0 /\
   m_end arena_4096 <= ptr b < m_end arena_4096 + 8 /\
   13 <= MemoryBlock.size b < 13 + 8 /\
   m_end a1 = ptr b + MemoryBlock.size b /\
   m_block a1 = m_block arena_4096).
Proof.
  apply (push_block_aligned 13 8 arena_4096).
  - vm_compute; intuition discriminate.
  - vm_compute; intuition discriminate.
  - reflexivity.
  - vm_compute; intuition discriminate.
  - vm_compute; intuition discriminate.
  - vm_compute; intuition discriminate.
Defined.

(** The blocks returned by consecutive pushes with one alignment never
    overlap: an earlier block ends at or before the pointer of every later
    one. *)
Theorem pushed_blocks_disjoint al szs : forall a,
  is_pow2 al = true -> is_size_t al ->
  region_ok a -> cursor_in_region a ->
  pushes_nonempty al szs a -> pushes_no_wrap al szs a ->
  forall (i j : nat) bi bj,
    (i < j)%nat ->
    fst (push_all al szs a) !! i = Some bi ->
    fst (push_all al szs a) !! j = Some bj ->
    ptr bi + MemoryBlock.size bi <= ptr bj.
Proof.
  induction szs as [|sz szs IH]; intros a Hp Hal Hr Hc Hne Hw i j bi bj Hij Hi Hj.
  - simpl in Hi. rewrite lookup_nil in Hi. discriminate.
  - destruct Hne as (Hsz & Hne1 & Hne). destruct Hw as (Hw1 & Hw).
    rewrite push_all_cons in Hi, Hj. cbn [fst] in Hi, Hj.
    destruct (push_step al Hp Hal sz a Hr Hc Hsz Hw1 Hne1)
      as (_ & Hr1 & Hc1 & _ & _ & _ & Hend & _).
    destruct j as [|j]; [lia|]. simpl in Hj.
    destruct i as [|i]; simpl in Hi.
    + injection Hi as <-.
      destruct (push_all_facts al Hp Hal szs _ Hr1 Hc1 Hne Hw)
        as (_ & _ & _ & _ & _ & _ & Hall).
      destruct (Hall j bj Hj) as (Hge & _). lia.
    + apply (IH _ Hp Hal Hr1 Hc1 Hne Hw i j); [lia|assumption|assumption].
Qed.

Lemma pushed_blocks_disjoint_witness :
  fst (push_all 4 [16; 5; 7] arena_4096)
    = [MemoryBlock.mk 4096 16; MemoryBlock.mk 4112 8; MemoryBlock.mk 4120 8]
  /\ ptr (MemoryBlock.mk 4096 16) + MemoryBlock.size (MemoryBlock.mk 4096 16)
     <= ptr (MemoryBlock.mk 4120 8).
Proof.
  split; [vm_compute; reflexivity|].
  apply (pushed_blocks_disjoint 4 [16; 5; 7] arena_4096) with 0%nat 2%nat.
  - reflexivity.
  - vm_compute; intuition discriminate.
  - vm_compute; intuition discriminate.
  - vm_compute; intuition discriminate.
  - vm_compute; intuition discriminate.
  - vm_compute; intuition discriminate.
  - lia.
  - vm_compute; reflexivity.
  - vm_compute; reflexivity.
Defined.

(** [try_grow] of the top block at an aligned cursor, when the arena has
    room, extends the block in place: the result starts at the same pointer,
    holds at least [additional] more bytes, ends at the new cursor, and is
    itself the top of the stack, so that popping it rewinds the cursor to
    the pointer of the block. *)
Theorem try_grow_extends_in_place block al additional a :
  region_ok a -> cursor_in_region a ->
  is_pow2 al = true -> is_size_t al -> is_size_t additional ->
  push_no_wrap additional al a ->
  m_end a mod al = 0 ->
  0 <= ptr block -> 0 <= MemoryBlock.size block ->
  ptr block + MemoryBlock.size block = m_end a ->
  align_forward (m_end a + additional) al
    <= ptr (m_block a) + MemoryBlock.size (m_block a) ->
  let g := fst (try_grow block al additional a) in
  let a1 := snd (try_grow block al additional a) in
  ptr g = ptr block /\
  MemoryBlock.size block + additional <= MemoryBlock.size g /\
  ptr g + MemoryBlock.size g = m_end a1 /\
  pop g al a1 = (true, {| m_block := m_block a; m_end := ptr block |}).
Proof.
  intros Hr Hc Hp Hal Hadd Hw Hmod Hptr Hsize Htop Hroom. cbv zeta.
  assert (is_size_t (m_end a)) as Hsa.
  { destruct Hr as (? & ? & ?), Hc. unfold is_size_t. lia. }
  pose proof (align_forward_aligned _ _ Hp Hal Hsa Hmod) as Haf.
  destruct (push_exact additional al a Hr Hc Hp Hal Hadd Hw)
    as (Hpush & _ & He & _ & Hm2 & Hse).
  rewrite Haf in Hpush, He, Hm2, Hse.
  destruct (Z.gtb_spec (align_forward (m_end a + additional) al)
              (ptr (m_block a) + MemoryBlock.size (m_block a))) as [|_];
    [lia|].
  rewrite try_grow_top
    by (rewrite Htop; apply wrap_small; exact Hsa).
  rewrite Hpush. cbn [fst snd ptr MemoryBlock.size m_end m_block].
  unfold is_size_t in *.
  rewrite (wrap_small (MemoryBlock.size block + _))
    by (unfold is_size_t; lia).
  repeat split; try lia.
  rewrite pop_true; [reflexivity|]. cbn [ptr MemoryBlock.size m_end].
  rewrite (align_forward_aligned _ _ Hp Hal Hse Hm2).
  replace (ptr block + (MemoryBlock.size block
             + (align_forward (m_end a + additional) al - m_end a)))
    with (align_forward (m_end a + additional) al) by lia.
  apply wrap_small. exact Hse.
Qed.

Lemma try_grow_extends_in_place_witness :
  let a := snd (push 16 4 arena_4096) in
  let block := {| ptr := 4096; MemoryBlock.size := 16 |} in
  pop (fst (try_grow block 4 10 a)) 4 (snd (try_grow block 4 10 a))
  = (true, {| m_block := m_block a; m_end := 4096 |}).
Proof.
  refine (proj2 (proj2 (proj2
    (try_grow_extends_in_place {| ptr := 4096; MemoryBlock.size := 16 |} 4 10
       (snd (push 16 4 arena_4096)) _ _ _ _ _ _ _ _ _ _ _)))).
  all: vm_compute; intuition discriminate.
Defined.

(** An aligned address leaves room for the padding of [align_forward]. *)
Lemma aligned_room x al :
  is_pow2 al = true -> is_size_t al -> is_size_t x -> x mod al = 0 ->
  x + (al - 1) <= SIZE_MAX.
Proof.
  intros Hp Hal Hx Hmod.
  destruct (is_pow2_spec al Hp Hal) as (k & Hk & ->).
  assert (0 < 2 ^ k) by lia.
  apply Z.div_exact in Hmod; [|lia].
  unfold is_size_t, SIZE_MAX in *.
  assert (2 ^ 64 = 2 ^ k * 2 ^ (64 - k)) as E
    by (rewrite <- Z.pow_add_r by lia; f_equal; lia).
  assert (x / 2 ^ k < 2 ^ (64 - k)) by nia. nia.
Qed.

(** Shrinking the top block and growing the kept prefix back by the same
    amount restores the block and the arena, when the block and the new
    size are multiples of the alignment. *)
Theorem try_shrink_try_grow_round_trip block al new_size a :
  region_ok a -> cursor_in_region a ->
  is_pow2 al = true -> is_size_t al ->
  ptr (m_block a) <= ptr block -> ptr block mod al = 0 ->
  MemoryBlock.size block mod al = 0 -> new_size mod al = 0 ->
  0 <= new_size <= MemoryBlock.size block ->
  ptr block + MemoryBlock.size block = m_end a ->
  let shrunk := try_shrink block al new_size a in
  fst shrunk = true /\
  m_end (snd shrunk) = ptr block + new_size /\
  try_grow {| ptr := ptr block; MemoryBlock.size := new_size |} al
           (MemoryBlock.size block - new_size) (snd shrunk)
  = (block, a).
Proof.
  intros Hr Hc Hp Hal Hptr Hpm Hsm Hnm Hn Htop. cbv zeta.
  pose proof (pow2_positive al Hp) as Hpos.
  assert (is_size_t (m_end a)) as Hsa.
  { destruct Hr as (? & ? & ?), Hc. unfold is_size_t. lia. }
  assert (0 <= ptr block) as Hp0 by (destruct Hr as (? & ? & ?); lia).
  assert (m_end a mod al = 0) as Hem.
  { rewrite <- Htop, Z.add_mod, Hpm, Hsm by lia. reflexivity. }
  assert ((ptr block + new_size) mod al = 0) as Hnm'.
  { rewrite Z.add_mod, Hpm, Hnm by lia. reflexivity. }
  assert (is_size_t (ptr block + new_size)) as Hsn
    by (unfold is_size_t in *; lia).
  assert (try_shrink block al new_size a
          = (true, {| m_block := m_block a; m_end := ptr block + new_size |}))
    as Hshrink.
  { unfold try_shrink.
    destruct (Z.gtb_spec new_size (MemoryBlock.size block)); [lia|].
    rewrite (wrap_small (ptr block + new_size)) by exact Hsn.
    rewrite (wrap_small (_ - _)) by (unfold is_size_t in *; lia).
    apply pop_true. cbn [ptr MemoryBlock.size].
    rewrite (align_forward_aligned _ _ Hp Hal Hsa Hem).
    replace (ptr block + new_size + (MemoryBlock.size block - new_size))
      with (m_end a) by lia.
    apply wrap_small. exact Hsa. }
  rewrite Hshrink. cbn [fst snd m_end].
  split; [reflexivity|]. split; [reflexivity|].
  set (a1 := {| m_block := m_block a; m_end := ptr block + new_size |}).
  assert (region_ok a1) as Hr1 by exact Hr.
  assert (cursor_in_region a1) as Hc1.
  { destruct Hc. unfold cursor_in_region, a1. cbn [m_block m_end]. lia. }
  assert (is_size_t (MemoryBlock.size block - new_size)) as Hsd
    by (unfold is_size_t in *; lia).
  pose proof (align_forward_aligned _ _ Hp Hal Hsn Hnm') as Haf1.
  assert (push_no_wrap (MemoryBlock.size block - new_size) al a1) as Hw.
  { unfold push_no_wrap, a1. cbn [m_end]. rewrite Haf1. split.
    - apply aligned_room; assumption.
    - replace (ptr block + new_size + (MemoryBlock.size block - new_size))
        with (m_end a) by lia.
      apply aligned_room; assumption. }
  destruct (push_exact _ al a1 Hr1 Hc1 Hp Hal Hsd Hw) as (Hpush & _).
  unfold a1 in Hpush. cbn [m_end m_block] in Hpush.
  rewrite Haf1 in Hpush.
  replace (ptr block + new_size + (MemoryBlock.size block - new_size))
    with (m_end a) in Hpush by lia.
  rewrite (align_forward_aligned _ _ Hp Hal Hsa Hem) in Hpush.
  destruct (Z.gtb_spec (m_end a)
              (ptr (m_block a) + MemoryBlock.size (m_block a))) as [Hgt|_];
    [destruct Hc; lia|].
  unfold a1.
  rewrite try_grow_top
    by (cbn [ptr MemoryBlock.size m_end]; apply wrap_small; exact Hsn).
  rewrite Hpush. cbn [fst snd ptr MemoryBlock.size].
  replace (new_size + (m_end a - (ptr block + new_size)))
    with (MemoryBlock.size block) by lia.
  rewrite wrap_small by (unfold is_size_t in *; lia).
  destruct block, a. reflexivity.
Qed.

Lemma try_shrink_try_grow_round_trip_witness :
  let a := snd (push 16 4 arena_4096) in
  let block := {| ptr := 4096; MemoryBlock.size := 16 |} in
  try_grow {| ptr := 4096; MemoryBlock.size := 8 |} 4 (16 - 8)
           (snd (try_shrink block 4 8 a)) = (block, a).
Proof.
  refine (proj2 (proj2
    (try_shrink_try_grow_round_trip {| ptr := 4096; MemoryBlock.size := 16 |}
       4 8 (snd (push 16 4 arena_4096)) _ _ _ _ _ _ _ _ _ _))).
  all: vm_compute; intuition discriminate.
Defined.

(** Whatever calls were made, with whatever arguments, [clear] gives back
    the arena as it was created, and the arena is then empty. *)
Theorem clear_restores_created_arena c reserved a cs :
  Arena.create c reserved true = Some a ->
  clear (final cs a) = a /\ Arena.empty (clear (final cs a)) = true.
Proof.
  intros Hcreate.
  assert (forall cs a0, m_block (final cs a0) = m_block a0) as Hreg.
  { clear. induction cs as [|c cs IH]; intros a0; [reflexivity|].
    unfold final in *. simpl. rewrite IH. apply after_region. }
  unfold Arena.create in Hcreate.
  destruct (negb (c >? 0)); [discriminate|]. simpl in Hcreate.
  injection Hcreate as <-.
  unfold clear, Arena.empty, Arena.size. rewrite !Hreg.
  cbn [m_block m_end]. rewrite Z.sub_diag. split; reflexivity.
Qed.

Lemma clear_restores_created_arena_witness :
  clear (final [Push 16 4; Pop {| ptr := 0; MemoryBlock.size := 4112 |} 1;
                Push 100 8] arena_4096) = arena_4096.
Proof.
  apply (clear_restores_created_arena 64
           {| ptr := 4096; MemoryBlock.size := 4096 |}).
  reflexivity.
Defined.

End ArenaMore.

(** * Further properties: algorithms on ranges *)

Section RangeFacts.
Context {T : Type} `{ElementType T}.

Lemma for_each_snoc (l : list Z) i (body : Z -> gmap Z T -> gmap Z T) m :
  for_each (l ++ [i]) body m = body i (for_each l body m).
Proof. unfold for_each. rewrite foldl_snoc. reflexivity. Qed.

Lemma at_exact (s : Span T) i :
  span_fits s -> 0 <= i <= Span.size s ->
  Span.at_ s i = Span.data s + i * sizeof.
Proof.
  intros (Hs & Hd & Hn & Hfit) Hi. unfold Span.at_.
  apply wrap_small. unfold is_size_t. nia.
Qed.

(** Stores of the values [val i] at the addresses [addr i], [i] in [l]. *)
Lemma for_each_store_hit (addr : Z -> Z) (val : Z -> T) l : forall m i,
  i ∈ l -> (forall j, j ∈ l -> addr j = addr i -> j = i) ->
  for_each l (fun i => <[addr i := val i]>) m !! addr i = Some (val i).
Proof.
  induction l as [|x l IH] using rev_ind; intros m i Hi Hinj.
  - apply elem_of_nil in Hi. contradiction.
  - rewrite for_each_snoc.
    destruct (decide (addr x = addr i)) as [E|Hne].
    + rewrite (Hinj x) by (try exact E; apply elem_of_app; right;
                           apply list_elem_of_singleton; reflexivity).
      apply lookup_insert_eq.
    + rewrite lookup_insert_ne by exact Hne.
      apply IH.
      * apply elem_of_app in Hi as [Hi|Hi]; [exact Hi|].
        apply list_elem_of_singleton in Hi. congruence.
      * intros j Hj. apply Hinj, elem_of_app. left. exact Hj.
Qed.

Lemma for_each_store_miss (addr : Z -> Z) (val : Z -> T) l : forall m p,
  (forall i, i ∈ l -> addr i <> p) ->
  for_each l (fun i => <[addr i := val i]>) m !! p = m !! p.
Proof.
  induction l as [|x l IH] using rev_ind; intros m p Hp.
  - reflexivity.
  - rewrite for_each_snoc, lookup_insert_ne.
    + apply IH. intros i Hi. apply Hp, elem_of_app. left. exact Hi.
    + apply Hp, elem_of_app. right. apply list_elem_of_singleton. reflexivity.
Qed.

(** Assignments of one value to the addresses [addr i], [i] in [l]. *)
Lemma for_each_assign_miss (addr : Z -> Z) (x : T) l : forall m p,
  (forall i, i ∈ l -> addr i <> p) ->
  for_each l (fun i => assign_at (addr i) x) m !! p = m !! p.
Proof.
  induction l as [|y l IH] using rev_ind; intros m p Hp.
  - reflexivity.
  - rewrite for_each_snoc. unfold assign_at at 1.
    assert (addr y <> p) as Hy
      by (apply Hp, elem_of_app; right; apply list_elem_of_singleton;
          reflexivity).
    destruct (_ !! addr y); [rewrite lookup_insert_ne by exact Hy|];
      apply IH; intros i Hi; apply Hp, elem_of_app; left; exact Hi.
Qed.

Lemma for_each_assign_dead (addr : Z -> Z) (x : T) l : forall m p,
  m !! p = None ->
  for_each l (fun i => assign_at (addr i) x) m !! p = None.
Proof.
  induction l as [|y l IH] using rev_ind; intros m p Hp.
  - exact Hp.
  - rewrite for_each_snoc. unfold assign_at at 1.
    destruct (for_each l _ m !! addr y) eqn:E; [|apply IH; exact Hp].
    destruct (decide (addr y = p)) as [<-|Hne].
    + rewrite IH in E by exact Hp. discriminate.
    + rewrite lookup_insert_ne by exact Hne. apply IH. exact Hp.
Qed.

Lemma for_each_assign_alive (addr : Z -> Z) (x : T) l : forall m p,
  is_Some (m !! p) ->
  is_Some (for_each l (fun i => assign_at (addr i) x) m !! p).
Proof.
  induction l as [|y l IH] using rev_ind; intros m p Hp.
  - exact Hp.
  - rewrite for_each_snoc. unfold assign_at at 1.
    destruct (for_each l _ m !! addr y) eqn:E; [|apply IH; exact Hp].
    destruct (decide (addr y = p)) as [<-|Hne].
    + rewrite lookup_insert_eq. eexists. reflexivity.
    + rewrite lookup_insert_ne by exact Hne. apply IH. exact Hp.
Qed.

Lemma for_each_assign_hit (addr : Z -> Z) (x : T) l : forall m i,
  i ∈ l -> is_Some (m !! addr i) ->
  for_each l (fun i => assign_at (addr i) x) m !! addr i = Some x.
Proof.
  induction l as [|y l IH] using rev_ind; intros m i Hi Hlive.
  - apply elem_of_nil in Hi. contradiction.
  - rewrite for_each_snoc. unfold assign_at at 1.
    destruct (decide (addr y = addr i)) as [E|Hne].
    + rewrite E.
      destruct (for_each_assign_alive addr x l m (addr i) Hlive) as [v ->].
      apply lookup_insert_eq.
    + assert (i ∈ l) as Hil.
      { apply elem_of_app in Hi as [Hi|Hi]; [exact Hi|].
        apply list_elem_of_singleton in Hi. congruence. }
      destruct (_ !! addr y); [rewrite lookup_insert_ne by exact Hne|];
        apply IH; assumption.
Qed.

Lemma for_each_delete_hit (addr : Z -> Z) l : forall (m : gmap Z T) i,
  i ∈ l -> for_each l (fun i => delete (addr i)) m !! addr i = None.
Proof.
  induction l as [|x l IH] using rev_ind; intros m i Hi.
  - apply elem_of_nil in Hi. contradiction.
  - rewrite for_each_snoc.
    destruct (decide (addr x = addr i)) as [->|Hne].
    + apply lookup_delete_eq.
    + rewrite lookup_delete_ne by exact Hne.
      apply IH. apply elem_of_app in Hi as [Hi|Hi]; [exact Hi|].
      apply list_elem_of_singleton in Hi. congruence.
Qed.

Lemma for_each_delete_miss (addr : Z -> Z) l : forall (m : gmap Z T) p,
  (forall i, i ∈ l -> addr i <> p) ->
  for_each l (fun i => delete (addr i)) m !! p = m !! p.
Proof.
  induction l as [|x l IH] using rev_ind; intros m p Hp.
  - reflexivity.
  - rewrite for_each_snoc, lookup_delete_ne.
    + apply IH. intros i Hi. apply Hp, elem_of_app. left. exact Hi.
    + apply Hp, elem_of_app. right. apply list_elem_of_singleton. reflexivity.
Qed.

Lemma at_not_outside (s : Span T) i p :
  span_fits s -> 0 <= i < Span.size s -> outside s p -> Span.at_ s i <> p.
Proof.
  intros Hs Hi Hout. rewrite at_exact by (assumption || lia).
  destruct Hs as (Hsz & Hd & Hn & Hfit). unfold outside in Hout. nia.
Qed.

Lemma at_injective (s : Span T) i j :
  span_fits s -> 0 <= i < Span.size s -> 0 <= j < Span.size s ->
  Span.at_ s j = Span.at_ s i -> j = i.
Proof.
  intros Hs Hi Hj. rewrite !at_exact by (assumption || lia).
  destruct Hs as (Hsz & _). nia.
Qed.

Lemma construct_post_spec (r : Span T) (args : pack T) (m : gmap Z T) :
  span_fits r ->
  snd (construct r args m) = Span.size r /\
  (forall i, 0 <= i < Span.size r ->
     fst (construct r args m) !! Span.at_ r i = Some (args (Z.to_nat i))) /\
  (forall p, outside r p -> fst (construct r args m) !! p = m !! p).
Proof.
  intros Hs. split; [reflexivity|]. split.
  - intros i Hi. unfold construct. cbn [fst].
    apply (for_each_store_hit (Span.at_ r) (fun i => args (Z.to_nat i))).
    + apply elem_of_seqZ. lia.
    + intros j Hj. apply elem_of_seqZ in Hj.
      apply at_injective; [assumption|lia|lia].
  - intros p Hp. unfold construct. cbn [fst].
    apply (for_each_store_miss (Span.at_ r) (fun i => args (Z.to_nat i))).
    intros i Hi. apply elem_of_seqZ in Hi.
    apply at_not_outside; [assumption|lia|assumption].
Qed.

Lemma fill_post_spec (r : Span T) (x : T) (m : gmap Z T) :
  span_fits r ->
  snd (fill r x m) = Span.size r /\
  (forall i, 0 <= i < Span.size r -> is_Some (m !! Span.at_ r i) ->
     fst (fill r x m) !! Span.at_ r i = Some x) /\
  (forall p, m !! p = None -> fst (fill r x m) !! p = None) /\
  (forall p, outside r p -> fst (fill r x m) !! p = m !! p).
Proof.
  intros Hs. split; [reflexivity|]. split; [|split].
  - intros i Hi Hlive. unfold fill. cbn [fst].
    apply (for_each_assign_hit (Span.at_ r)); [|exact Hlive].
    apply elem_of_seqZ. lia.
  - intros p Hp. unfold fill. cbn [fst].
    apply for_each_assign_dead. exact Hp.
  - intros p Hp. unfold fill. cbn [fst].
    apply (for_each_assign_miss (Span.at_ r)).
    intros i Hi. apply elem_of_seqZ in Hi.
    apply at_not_outside; [assumption|lia|assumption].
Qed.

(** [construct(range, args...)] builds an element in every place of the
    range, alive before or not: the element at index [i] is the one the
    pack builds at its [i]-th forwarding, so all are equal when the pack is
    copied.  [fill(range, x)] assigns: every element of the range that is
    alive becomes [x], and a place without a live element stays without
    one.  Both report the number of elements of the range and change
    nothing outside the range. *)
Theorem construct_fill_post (r : Span T) (args : pack T) (x : T)
  (m : gmap Z T) :
  span_fits r ->
  (snd (construct r args m) = Span.size r /\
   (forall i, 0 <= i < Span.size r ->
      fst (construct r args m) !! Span.at_ r i = Some (args (Z.to_nat i))) /\
   (forall i, 0 <= i < Span.size r ->
      fst (construct r (copied x) m) !! Span.at_ r i = Some x) /\
   (forall p, outside r p -> fst (construct r args m) !! p = m !! p)) /\
  (snd (fill r x m) = Span.size r /\
   (forall i, 0 <= i < Span.size r -> is_Some (m !! Span.at_ r i) ->
      fst (fill r x m) !! Span.at_ r i = Some x) /\
   (forall p, m !! p = None -> fst (fill r x m) !! p = None) /\
   (forall p, outside r p -> fst (fill r x m) !! p = m !! p)).
Proof.
  intros Hs.
  destruct (construct_post_spec r args m Hs) as (C1 & C2 & C3).
  destruct (construct_post_spec r (copied x) m Hs) as (_ & C4 & _).
  split; [|exact (fill_post_spec r x m Hs)].
  split; [exact C1|]. split; [exact C2|]. split; [exact C4|exact C3].
Qed.

Lemma destroy_backward_post_spec (r : Span T) (m : gmap Z T) :
  span_fits r ->
  snd (destroy_backward r m) = Span.size r /\
  (forall i, 0 <= i < Span.size r ->
     fst (destroy_backward r m) !! Span.at_ r i = None) /\
  (forall p, outside r p -> fst (destroy_backward r m) !! p = m !! p).
Proof.
  intros Hs. split; [reflexivity|]. split.
  - intros i Hi. unfold destroy_backward. cbn [fst].
    apply (for_each_delete_hit (Span.at_ r)).
    apply elem_of_reverse, elem_of_seqZ. lia.
  - intros p Hp. unfold destroy_backward. cbn [fst].
    apply (for_each_delete_miss (Span.at_ r)).
    intros i Hi. apply elem_of_reverse, elem_of_seqZ in Hi.
    apply at_not_outside; [assumption|lia|assumption].
Qed.

(** [destroy_backward] leaves no element of the range alive, reports the
    number of elements of the range, and changes nothing outside the
    range. *)
Theorem destroy_backward_post (r : Span T) (m : gmap Z T) :
  span_fits r ->
  snd (destroy_backward r m) = Span.size r /\
  (forall i, 0 <= i < Span.size r ->
     fst (destroy_backward r m) !! Span.at_ r i = None) /\
  (forall p, outside r p -> fst (destroy_backward r m) !! p = m !! p).
Proof. exact (destroy_backward_post_spec r m). Qed.

(** A run of relocations [s k -> d k], [k = 0 .. n - 1], in which no
    destination is a source that is still to be read, moves every element
    and leaves the sources that are not destinations dead. *)
Lemma relocate_steps (s d : Z -> Z) (n : nat) (m : gmap Z T) :
  (forall k k', 0 <= k -> k <= k' -> k' < Z.of_nat n -> d k <> s k') ->
  (forall k k', 0 <= k -> k < k' -> k' < Z.of_nat n -> d k <> d k') ->
  (forall k k', 0 <= k -> k < k' -> k' < Z.of_nat n -> s k <> s k') ->
  let m' := for_each (seqZ 0 (Z.of_nat n))
              (fun k => relocate_at (s k) (d k)) m in
  (forall k, 0 <= k < Z.of_nat n -> m' !! d k = m !! s k) /\
  (forall k, 0 <= k < Z.of_nat n ->
     (forall k', 0 <= k' < Z.of_nat n -> d k' <> s k) -> m' !! s k = None) /\
  (forall p, (forall k, 0 <= k < Z.of_nat n -> p <> s k /\ p <> d k) ->
     m' !! p = m !! p).
Proof.
  induction n as [|n IH]; intros Hds Hdd Hss; cbv zeta.
  - cbn [Z.of_nat seqZ]. repeat split; intros; try lia; reflexivity.
  - rewrite seqZ_S, for_each_snoc, Z.add_0_l.
    destruct IH as (IH1 & IH2 & IH3);
      [intros; apply Hds; lia | intros; apply Hdd; lia
      |intros; apply Hss; lia|].
    set (mn := for_each (seqZ 0 (Z.of_nat n))
                 (fun k => relocate_at (s k) (d k)) m) in *.
    assert (mn !! s (Z.of_nat n) = m !! s (Z.of_nat n)) as Hsrc.
    { apply IH3. intros k Hk. split.
      - intros E. apply (Hss k (Z.of_nat n)); [lia|lia|lia|congruence].
      - intros E. apply (Hds k (Z.of_nat n)); [lia|lia|lia|congruence]. }
    unfold relocate_at. rewrite Hsrc.
    repeat split.
    + intros k Hk. destruct (decide (k = Z.of_nat n)) as [->|Hne].
      * rewrite lookup_delete_ne by (apply not_eq_sym, Hds; lia).
        apply lookup_partial_alter_eq.
      * rewrite lookup_delete_ne by (apply not_eq_sym, Hds; lia).
        rewrite lookup_partial_alter_ne by (apply not_eq_sym, Hdd; lia).
        apply IH1. lia.
    + intros k Hk Hnot. destruct (decide (k = Z.of_nat n)) as [->|Hne].
      * apply lookup_delete_eq.
      * rewrite lookup_delete_ne by (apply not_eq_sym, Hss; lia).
        rewrite lookup_partial_alter_ne by (apply Hnot; lia).
        apply IH2; [lia|]. intros k' Hk'. apply Hnot. lia.
    + intros p Hp.
      destruct (Hp (Z.of_nat n) ltac:(lia)) as [Hps Hpd].
      rewrite lookup_delete_ne by (apply not_eq_sym; exact Hps).
      rewrite lookup_partial_alter_ne by (apply not_eq_sym; exact Hpd).
      apply IH3. intros k Hk. apply Hp. lia.
Qed.

(** A run of assignments [*d k = *s k], [k = 0 .. n - 1], in which no
    destination is a source that is still to be read. *)
Lemma copy_steps (s d : Z -> Z) (n : nat) (m : gmap Z T) :
  (forall k k', 0 <= k -> k < k' -> k' < Z.of_nat n -> d k <> s k') ->
  (forall k k', 0 <= k -> k < k' -> k' < Z.of_nat n -> d k <> d k') ->
  let m' := for_each (seqZ 0 (Z.of_nat n))
              (fun k => copy_at (s k) (d k)) m in
  (forall k, 0 <= k < Z.of_nat n ->
     m' !! d k = match m !! d k with
                 | Some _ => m !! s k
                 | None => None
                 end) /\
  (forall p, (forall k, 0 <= k < Z.of_nat n -> p <> d k) ->
     m' !! p = m !! p).
Proof.
  induction n as [|n IH]; intros Hds Hdd; cbv zeta.
  - cbn [Z.of_nat seqZ]. repeat split; intros; try lia; reflexivity.
  - rewrite seqZ_S, for_each_snoc, Z.add_0_l.
    destruct IH as (IH1 & IH3);
      [intros; apply Hds; lia | intros; apply Hdd; lia|].
    set (mn := for_each (seqZ 0 (Z.of_nat n))
                 (fun k => copy_at (s k) (d k)) m) in *.
    assert (mn !! s (Z.of_nat n) = m !! s (Z.of_nat n)) as Hsrc.
    { apply IH3. intros k Hk E.
      apply (Hds k (Z.of_nat n)); [lia|lia|lia|congruence]. }
    assert (mn !! d (Z.of_nat n) = m !! d (Z.of_nat n)) as Hdst.
    { apply IH3. intros k Hk E.
      apply (Hdd k (Z.of_nat n)); [lia|lia|lia|congruence]. }
    unfold copy_at. rewrite Hsrc, Hdst. split.
    + intros k Hk. destruct (decide (k = Z.of_nat n)) as [->|Hne].
      * destruct (m !! d (Z.of_nat n)) eqn:E.
        -- apply lookup_partial_alter_eq.
        -- exact Hdst.
      * destruct (m !! d (Z.of_nat n)).
        -- rewrite lookup_partial_alter_ne by (apply not_eq_sym, Hdd; lia).
           apply IH1. lia.
        -- apply IH1. lia.
    + intros p Hp.
      destruct (m !! d (Z.of_nat n)).
      * rewrite lookup_partial_alter_ne by (apply not_eq_sym, Hp; lia).
        apply IH3. intros k Hk. apply Hp. lia.
      * apply IH3. intros k Hk. apply Hp. lia.
Qed.

Lemma for_each_ext (l : list Z) (f g : Z -> gmap Z T -> gmap Z T) : forall m,
  (forall i, i ∈ l -> f i = g i) -> for_each l f m = for_each l g m.
Proof.
  induction l as [|x l IH] using rev_ind; intros m Hfg; [reflexivity|].
  rewrite !for_each_snoc, IH, Hfg.
  - reflexivity.
  - apply elem_of_app. right. apply list_elem_of_singleton. reflexivity.
  - intros i Hi. apply Hfg, elem_of_app. left. exact Hi.
Qed.

Lemma min_spec x y : min x y = Z.min x y.
Proof. unfold min. destruct (Z.ltb_spec y x); lia. Qed.

Lemma relocate_moves_spec (src dst : Span T) (m : gmap Z T) :
  span_fits src -> span_fits dst -> disjoint_spans src dst ->
  let n := min (Span.size src) (Span.size dst) in
  snd (relocate src dst m) = n /\
  (forall i, 0 <= i < n ->
     fst (relocate src dst m) !! Span.at_ dst i = m !! Span.at_ src i /\
     fst (relocate src dst m) !! Span.at_ src i = None) /\
  (forall p, outside src p -> outside dst p ->
     fst (relocate src dst m) !! p = m !! p).
Proof.
  intros Hs Hd Hdis. cbv zeta. split; [reflexivity|].
  unfold relocate. cbn [fst]. rewrite min_spec.
  set (n := Z.min (Span.size src) (Span.size dst)).
  assert (0 <= n <= Span.size src /\ n <= Span.size dst) as Hn.
  { destruct Hs as (_ & _ & ? & _), Hd as (_ & _ & ? & _). lia. }
  assert (forall i, 0 <= i < n -> Span.at_ src i = Span.data src + i * sizeof)
    as Hsa by (intros; apply at_exact; [assumption|lia]).
  assert (forall i, 0 <= i < n -> Span.at_ dst i = Span.data dst + i * sizeof)
    as Hda by (intros; apply at_exact; [assumption|lia]).
  assert (0 < sizeof) as Hsz by apply Hs.
  destruct Hs as (_ & Hs1 & Hs2 & Hs3), Hd as (_ & Hd1 & Hd2 & Hd3).
  unfold disjoint_spans in Hdis.
  rewrite <- (Z2Nat.id n) by lia.
  destruct (relocate_steps (Span.at_ src) (Span.at_ dst) (Z.to_nat n) m)
    as (H1 & H2 & H3).
  - rewrite Z2Nat.id by lia. intros k k' ? ? ?.
    rewrite Hsa, Hda by lia. nia.
  - rewrite Z2Nat.id by lia. intros k k' ? ? ?. rewrite !Hda by lia. nia.
  - rewrite Z2Nat.id by lia. intros k k' ? ? ?. rewrite !Hsa by lia. nia.
  - rewrite Z2Nat.id in * by lia. split.
    + intros i Hi. split; [apply H1; lia|].
      apply H2; [lia|]. intros k' Hk'. rewrite Hsa, Hda by lia. nia.
    + intros p Hps Hpd. apply H3. intros k Hk.
      rewrite Hsa, Hda by lia. unfold outside in *. nia.
Qed.


Lemma relocate_backward_shifts_spec (src dst : Span T) (r : Z) (m : gmap Z T) :
  span_fits src -> span_fits dst ->
  Span.size src <= Span.size dst -> 1 <= r ->
  Span.data dst + Span.size dst * sizeof
    = Span.data src + (Span.size src + r) * sizeof ->
  let m' := fst (relocate_backward src dst m) in
  snd (relocate_backward src dst m) = Span.size src /\
  (forall i, 0 <= i < Span.size src ->
     m' !! (Span.at_ src i + r * sizeof) = m !! Span.at_ src i) /\
  (forall i, 0 <= i < Span.size src -> i < r ->
     m' !! Span.at_ src i = None) /\
  (forall p, outside src p ->
     (p < Span.data src + r * sizeof \/
      Span.data src + (Span.size src + r) * sizeof <= p) ->
     m' !! p = m !! p).
Proof.
  intros Hs Hd Hle Hr Hend. cbv zeta. split; [reflexivity|].
  unfold relocate_backward. cbn [fst].
  assert (forall i, 0 <= i < Span.size src ->
            Span.at_ src i = Span.data src + i * sizeof)
    as Hsa by (intros; apply at_exact; [assumption|lia]).
  assert (forall i, 0 <= i < Span.size dst ->
            Span.at_ dst i = Span.data dst + i * sizeof)
    as Hda by (intros; apply at_exact; [assumption|lia]).
  destruct Hs as (Hsz & Hs1 & Hn & Hs3), Hd as (_ & Hd1 & Hd2 & Hd3).
  set (n := Span.size src) in *.
  pose (s := fun k => Span.data src + (n - 1 - k) * sizeof).
  pose (d := fun k => Span.data src + (n - 1 - k + r) * sizeof).
  rewrite (for_each_ext _ _ (fun k => relocate_at (s k) (d k))).
  2:{ intros k Hk. apply elem_of_seqZ in Hk.
      assert (is_size_t (n - 1)) as Hn1 by (unfold is_size_t; nia).
      assert (is_size_t (Span.size dst - 1)) as Hdd1
        by (unfold is_size_t; nia).
      rewrite (wrap_small _ Hn1), (wrap_small _ Hdd1).
      rewrite (wrap_small (n - 1 - k))
        by (unfold is_size_t in *; lia).
      rewrite (wrap_small (Span.size dst - 1 - k))
        by (unfold is_size_t in *; lia).
      rewrite Hsa, Hda by lia.
      unfold s, d. f_equal. nia. }
  rewrite <- (Z2Nat.id n) by lia.
  destruct (relocate_steps s d (Z.to_nat n) m) as (H1 & H2 & H3).
  - rewrite Z2Nat.id by lia. intros k k' ? ? ?. unfold s, d. nia.
  - rewrite Z2Nat.id by lia. intros k k' ? ? ?. unfold d. nia.
  - rewrite Z2Nat.id by lia. intros k k' ? ? ?. unfold s. nia.
  - rewrite Z2Nat.id in * by lia. repeat split.
    + intros i Hi. rewrite Hsa by lia.
      specialize (H1 (n - 1 - i) ltac:(lia)). unfold s, d in H1.
      replace (n - 1 - (n - 1 - i)) with i in H1 by lia.
      rewrite <- H1. f_equal. lia.
    + intros i Hi Hir. rewrite Hsa by lia.
      specialize (H2 (n - 1 - i) ltac:(lia)). unfold s, d in H2.
      replace (n - 1 - (n - 1 - i)) with i in H2 by lia.
      apply H2. intros k' Hk'. nia.
    + intros p Hps Hpd. apply H3. intros k Hk. unfold s, d.
      unfold outside in Hps. nia.
Qed.


Lemma copy_shifts_left_spec (src dst : Span T) (r : Z) (m : gmap Z T) :
  span_fits src -> span_fits dst -> 0 <= r ->
  Span.data src = Span.data dst + r * sizeof ->
  let n := min (Span.size src) (Span.size dst) in
  snd (copy src dst m) = n /\
  (forall i, 0 <= i < n ->
     fst (copy src dst m) !! Span.at_ dst i
     = match m !! Span.at_ dst i with
       | Some _ => m !! Span.at_ src i
       | None => None
       end) /\
  (forall p, (p < Span.data dst \/ Span.data dst + n * sizeof <= p) ->
     fst (copy src dst m) !! p = m !! p).
Proof.
  intros Hs Hd Hr Hdata. cbv zeta. split; [reflexivity|].
  unfold copy. cbn [fst]. rewrite min_spec.
  set (n := Z.min (Span.size src) (Span.size dst)).
  assert (0 <= n <= Span.size src /\ n <= Span.size dst) as Hn.
  { destruct Hs as (_ & _ & ? & _), Hd as (_ & _ & ? & _). lia. }
  assert (forall i, 0 <= i < n -> Span.at_ src i = Span.data src + i * sizeof)
    as Hsa by (intros; apply at_exact; [assumption|lia]).
  assert (forall i, 0 <= i < n -> Span.at_ dst i = Span.data dst + i * sizeof)
    as Hda by (intros; apply at_exact; [assumption|lia]).
  assert (0 < sizeof) as Hsz by apply Hs.
  rewrite <- (Z2Nat.id n) by lia.
  destruct (copy_steps (Span.at_ src) (Span.at_ dst) (Z.to_nat n) m)
    as (H1 & H3).
  - rewrite Z2Nat.id by lia. intros k k' ? ? ?.
    rewrite Hsa, Hda by lia. nia.
  - rewrite Z2Nat.id by lia. intros k k' ? ? ?. rewrite !Hda by lia. nia.
  - rewrite Z2Nat.id in * by lia. split.
    + intros i Hi. apply H1. lia.
    + intros p Hp. apply H3. intros k Hk. rewrite Hda by lia. nia.
Qed.


Lemma uninitialized_copy_loop (dst : Span T) (l : list T) :
  forall (m : gmap Z T) (i0 : Z),
  0 < sizeof -> 0 <= Span.data dst -> 0 <= i0 ->
  Span.data dst + (i0 + Z.of_nat (length l)) * sizeof <= SIZE_MAX ->
  let m' :=
    fst (foldl (fun '(m, i) x => (<[Span.at_ dst i := x]> m, i + 1))
               (m, i0) l) in
  (forall (j : nat) v, l !! j = Some v ->
     m' !! (Span.data dst + (i0 + Z.of_nat j) * sizeof) = Some v) /\
  (forall p, (p < Span.data dst + i0 * sizeof \/
              Span.data dst + (i0 + Z.of_nat (length l)) * sizeof <= p) ->
     m' !! p = m !! p).
Proof.
  induction l as [|x l IH]; intros m i0 Hsz Hd Hi0 Hfit; cbv zeta.
  - split; [intros j v Hj; rewrite lookup_nil in Hj; discriminate|].
    reflexivity.
  - cbn [foldl length] in *.
    assert (Span.at_ dst i0 = Span.data dst + i0 * sizeof) as Hat.
    { unfold Span.at_. apply wrap_small. unfold is_size_t, Span.data in *.
      nia. }
    destruct (IH (<[Span.at_ dst i0 := x]> m) (i0 + 1) Hsz Hd ltac:(lia)
                ltac:(nia)) as [IH1 IH2].
    split.
    + intros [|j] v Hj; cbn [lookup list_lookup] in Hj.
      * injection Hj as <-. rewrite IH2 by nia.
        rewrite Z.add_0_r, <- Hat. apply lookup_insert_eq.
      * rewrite <- (IH1 j v Hj). f_equal. lia.
    + intros p Hp. rewrite IH2 by nia.
      apply lookup_insert_ne. rewrite Hat. nia.
Qed.

Lemma uninitialized_copy_post_spec (src : list T) (dst : Span T)
  (m : gmap Z T) :
  0 < sizeof -> 0 <= Span.data dst ->
  Span.data dst + Z.of_nat (length src) * sizeof <= SIZE_MAX ->
  snd (uninitialized_copy src dst m) = Z.of_nat (length src) /\
  (forall (j : nat) v, src !! j = Some v ->
     fst (uninitialized_copy src dst m) !! Span.at_ dst (Z.of_nat j)
       = Some v) /\
  (forall p, (p < Span.data dst \/
              Span.data dst + Z.of_nat (length src) * sizeof <= p) ->
     fst (uninitialized_copy src dst m) !! p = m !! p).
Proof.
  intros Hsz Hd Hfit. split; [reflexivity|].
  unfold uninitialized_copy. cbn [fst].
  destruct (uninitialized_copy_loop dst src m 0 Hsz Hd ltac:(lia)
              ltac:(lia)) as [H1 H2].
  split.
  - intros j v Hj.
    assert (Span.at_ dst (Z.of_nat j)
            = Span.data dst + (0 + Z.of_nat j) * sizeof) as ->.
    { pose proof (lookup_lt_Some _ _ _ Hj).
      unfold Span.at_. rewrite Z.add_0_l. apply wrap_small.
      unfold is_size_t, Span.data in *. nia. }
    apply H1. exact Hj.
  - intros p Hp. apply H2. lia.
Qed.

(** [uninitialized_copy] from a range of values constructs the values, in
    order, from the start of the destination and reports their number; how
    far it writes depends on the source only, not on the size of the
    destination; nothing outside the written places changes. *)
Theorem uninitialized_copy_post (src : list T) (dst : Span T)
  (m : gmap Z T) :
  0 < sizeof -> 0 <= Span.data dst ->
  Span.data dst + Z.of_nat (length src) * sizeof <= SIZE_MAX ->
  snd (uninitialized_copy src dst m) = Z.of_nat (length src) /\
  (forall (j : nat) v, src !! j = Some v ->
     fst (uninitialized_copy src dst m) !! Span.at_ dst (Z.of_nat j)
       = Some v) /\
  (forall p, (p < Span.data dst \/
              Span.data dst + Z.of_nat (length src) * sizeof <= p) ->
     fst (uninitialized_copy src dst m) !! p = m !! p).
Proof. exact (uninitialized_copy_post_spec src dst m). Qed.

End RangeFacts.

Lemma construct_fill_post_witness :
  fst (construct (Span.mk 4096 3 : Span Z) (copied 7) ∅) !! 4104 = Some 7 /\
  fst (fill (Span.mk 4096 3 : Span Z) 7 two_ints) !! 4100 = Some 7 /\
  fst (fill (Span.mk 4096 3 : Span Z) 7 two_ints) !! 4104 = None.
Proof.
  split; [|split].
  - destruct (construct_fill_post (Span.mk 4096 3 : Span Z) (copied 7) 7 ∅)
      as ((_ & H & _) & _).
    + vm_compute; intuition discriminate.
    + apply (H 2). vm_compute; intuition discriminate.
  - destruct (construct_fill_post (Span.mk 4096 3 : Span Z) (copied 7) 7
                two_ints) as (_ & _ & H & _).
    + vm_compute; intuition discriminate.
    + apply (H 1).
      * vm_compute; intuition discriminate.
      * exists 20. vm_compute. reflexivity.
  - destruct (construct_fill_post (Span.mk 4096 3 : Span Z) (copied 7) 7
                two_ints) as (_ & _ & _ & H & _).
    + vm_compute; intuition discriminate.
    + apply (H 4104). vm_compute. reflexivity.
Defined.

Lemma destroy_backward_post_witness :
  fst (destroy_backward (Span.mk 4096 2 : Span Z) two_ints) !! 4100 = None.
Proof.
  destruct (destroy_backward_post (Span.mk 4096 2 : Span Z) two_ints)
    as (_ & H1 & _).
  - vm_compute; intuition discriminate.
  - apply (H1 1). vm_compute; intuition discriminate.
Defined.




Lemma uninitialized_copy_post_witness :
  fst (uninitialized_copy [30; 40] (Span.mk 4096 0 : Span Z) ∅) !! 4100
  = Some 40.
Proof.
  destruct (uninitialized_copy_post [30; 40] (Span.mk 4096 0 : Span Z) ∅)
    as (_ & H & _).
  - reflexivity.
  - vm_compute; discriminate.
  - vm_compute; discriminate.
  - apply (H 1%nat 40). reflexivity.
Defined.

(** * Further properties: the allocator and the array *)

Section ArrayFacts.
Context {T : Type} `{ElementType T}.

Lemma built_length (args : pack T) n : length (built args n) = n.
Proof. unfold built. rewrite length_fmap, length_seq. reflexivity. Qed.

Lemma built_lookup (args : pack T) n i x :
  built args n !! i = Some x -> x = args i /\ (i < n)%nat.
Proof.
  unfold built. rewrite list_lookup_fmap. intros E.
  destruct (seq 0 n !! i) as [k|] eqn:Hk; [|discriminate].
  apply lookup_seq in Hk as [-> Hk]. injection E as <-. split; [reflexivity|lia].
Qed.

Lemma built_copied (v : T) n : built (copied v) n = replicate n v.
Proof.
  unfold built. generalize 0%nat. induction n as [|n IH]; intros k.
  - reflexivity.
  - cbn [seq fmap list_fmap replicate]. f_equal. apply IH.
Qed.

Lemma bind_some {X Y} (c : M T X) (k : X -> M T Y) h x h' :
  c h = Some (x, h') -> bind c k h = k x h'.
Proof. intros E. unfold bind. rewrite E. reflexivity. Qed.

Lemma on_objects_eq {X} (f : gmap Z T -> gmap Z T * X) (h : heap T) :
  on_objects f h
  = Some (snd (f (objects h)), Heap (fst (f (objects h))) (next_free h)).
Proof. unfold on_objects. destruct (f (objects h)). reflexivity. Qed.

Lemma heap_alignment_pow2 :
  element_ok ->
  is_pow2 heap_alignment = true /\ is_size_t heap_alignment /\
  8 <= heap_alignment.
Proof.
  intros (_ & _ & Hp & Hal). unfold heap_alignment, max, sizeof_ptr.
  destruct (Z.ltb_spec alignof 8).
  - repeat split; try reflexivity; unfold SIZE_MAX; lia.
  - repeat split; try assumption; apply Hal.
Qed.

(** What [GlobalAllocator::allocate] returns. *)
Lemma allocate_spec (sz : Z) (h : heap T) :
  element_ok -> 0 <= sz -> heap_has_room h sz ->
  exists b h',
    GlobalAllocator.allocate sz alignof h = Some (b, h') /\
    MemoryBlock.size b = align_forward sz heap_alignment /\
    sz <= MemoryBlock.size b < sz + heap_alignment /\
    MemoryBlock.size b mod heap_alignment = 0 /\
    MemoryBlock.ptr b mod heap_alignment = 0 /\
    next_free h <= MemoryBlock.ptr b /\ MemoryBlock.ptr b <> 0 /\
    MemoryBlock.ptr b + MemoryBlock.size b <= next_free h' /\
    MemoryBlock.ptr b + MemoryBlock.size b <= SIZE_MAX /\
    next_free h' <= SIZE_MAX /\
    objects h' = objects h.
Proof.
  intros Hel Hsz [Hpos Hroom].
  destruct (heap_alignment_pow2 Hel) as (Hp & Hal & H8).
  destruct (align_forward_bounds sz heap_alignment Hp Hal Hsz ltac:(lia))
    as [[Hs1 Hs2] Hs3].
  destruct (align_forward_bounds (next_free h) heap_alignment Hp Hal
              ltac:(lia) ltac:(lia)) as [[Hp1 Hp2] Hp3].
  unfold GlobalAllocator.allocate, aligned_alloc. fold heap_alignment.
  destruct (Z.leb_spec (align_forward (next_free h) heap_alignment
                        + align_forward sz heap_alignment) SIZE_MAX)
    as [Hfit|Hno]; [|lia].
  destruct (Z.eqb_spec (align_forward (next_free h) heap_alignment) 0)
    as [E|Hne]; [lia|].
  eexists _, _. split; [reflexivity|].
  cbn [MemoryBlock.ptr MemoryBlock.size next_free objects].
  repeat split; try lia; try assumption.
Qed.

Lemma capacity_bytes (a : Array T) :
  0 < sizeof -> 0 <= MemoryBlock.size (Array.m_block a) ->
  0 <= Array.capacity a /\
  Array.capacity a * sizeof <= MemoryBlock.size (Array.m_block a).
Proof.
  intros Hs Hb. unfold Array.capacity.
  pose proof (Z.mul_div_le (MemoryBlock.size (Array.m_block a)) sizeof Hs).
  pose proof (Z.div_pos (MemoryBlock.size (Array.m_block a)) sizeof Hb Hs).
  lia.
Qed.

Lemma as_span_fits (a : Array T) (h : heap T) :
  element_ok -> array_ok a h -> span_fits (Array.as_span a).
Proof.
  intros (Hs & _) (H1 & H2 & H3 & H4 & H5).
  destruct (capacity_bytes a Hs H2) as [Hc1 Hc2].
  unfold span_fits, Array.as_span, Span.data, Span.size.
  cbn [Span.m_data Span.m_count]. unfold Array.data, Array.size in *.
  repeat split; try lia. nia.
Qed.

Lemma as_raw_span_fits (a : Array T) (h : heap T) :
  element_ok -> array_ok a h -> span_fits (Array.as_raw_span a).
Proof.
  intros (Hs & _) (H1 & H2 & H3 & H4 & H5).
  destruct (capacity_bytes a Hs H2) as [Hc1 Hc2].
  unfold span_fits, Array.as_raw_span, Span.data, Span.size.
  cbn [Span.m_data Span.m_count]. unfold Array.data.
  repeat split; try lia.
Qed.

(** The address of an element depends on the pointer of the span only. *)
Lemma at_same_data (s1 s2 : Span T) i :
  Span.data s1 = Span.data s2 -> Span.at_ s1 i = Span.at_ s2 i.
Proof. intros E. unfold Span.at_. rewrite E. reflexivity. Qed.

(** What [reserve] does when it has to grow. *)
Lemma reserve_shape (n : Z) (a : Array T) (h : heap T) :
  element_ok -> array_ok a h ->
  Array.capacity a < n -> heap_has_room h (n * sizeof) ->
  exists a' h',
    Array.reserve n a h = Some (a', h') /\
    array_ok a' h' /\
    n <= Array.capacity a' /\
    Array.m_count a' = Array.m_count a /\
    Array.m_allocator a' = Array.m_allocator a /\
    MemoryBlock.size (Array.m_block a')
      = align_forward (n * sizeof) heap_alignment /\
    next_free h <= MemoryBlock.ptr (Array.m_block a') /\
    (forall i, 0 <= i < Array.size a ->
       objects h' !! Span.at_ (Array.as_span a') i
       = objects h !! Span.at_ (Array.as_span a) i) /\
    (forall p, p < next_free h ->
       (p < Array.data a \/ Array.data a + Array.size a * sizeof <= p) ->
       objects h' !! p = objects h !! p) /\
    (forall i, 0 <= i < Array.size a ->
       objects h' !! Span.at_ (Array.as_span a) i = None).
Proof.
  intros Hel Hok Hn Hroom.
  pose proof (as_span_fits a h Hel Hok) as Hsrc.
  destruct Hel as (Hs & Hss & Hp & Hal).
  destruct Hok as (H1 & H2 & H3 & H4 & H5).
  destruct (capacity_bytes a Hs H2) as [Hc1 Hc2].
  assert (0 <= n * sizeof) as Hbytes by nia.
  destruct (allocate_spec (n * sizeof) h (conj Hs (conj Hss (conj Hp Hal)))
              Hbytes Hroom)
    as (b & h1 & Halloc & Hsize & [Hb1 Hb2] & Hb3 & Hb4 & Hb5 & Hb6 & Hb7
        & Hb8 & Hb9 & Hobj).
  assert (is_size_t (n * sizeof)) as Hw.
  { destruct Hroom as [? ?]. destruct (heap_alignment_pow2
      (conj Hs (conj Hss (conj Hp Hal)))) as (_ & _ & ?).
    unfold is_size_t. lia. }
  set (dst := Span.mk (MemoryBlock.ptr b) (MemoryBlock.size b / sizeof)
              : Span T).
  assert (0 <= MemoryBlock.size b / sizeof /\
          MemoryBlock.size b / sizeof * sizeof <= MemoryBlock.size b /\
          n <= MemoryBlock.size b / sizeof) as (Hd1 & Hd2 & Hd3).
  { pose proof (Z.mul_div_le (MemoryBlock.size b) sizeof Hs).
    assert (n <= MemoryBlock.size b / sizeof)
      by (apply Z.div_le_lower_bound; lia).
    lia. }
  assert (span_fits dst) as Hdst.
  { unfold span_fits, dst, Span.data, Span.size.
    cbn [Span.m_data Span.m_count]. repeat split; lia. }
  assert (disjoint_spans (Array.as_span a) dst) as Hdis.
  { left. unfold Array.as_span, dst, Span.data, Span.size.
    cbn [Span.m_data Span.m_count]. unfold Array.data, Array.size in *. nia. }
  destruct (relocate_moves_spec (Array.as_span a) dst (objects h1) Hsrc Hdst
              Hdis) as (_ & Hmove & Hframe).
  assert (min (Span.size (Array.as_span a)) (Span.size dst) = Array.size a)
    as Hmin.
  { rewrite min_spec. unfold Array.as_span, dst, Span.size.
    cbn [Span.m_count]. lia. }
  rewrite Hmin in Hmove.
  unfold Array.reserve.
  destruct (Z.leb_spec n (Array.capacity a)) as [|_]; [lia|].
  unfold Array.alignment.
  rewrite (wrap_small _ Hw).
  rewrite (bind_some _ _ _ _ _ Halloc).
  rewrite (bind_some _ _ _ _ _ (on_objects_eq _ _)).
  unfold GlobalAllocator.deallocate, bind, ret, free. fold dst.
  eexists _, _. split; [reflexivity|].
  split; [|split; [|split; [|split; [|split; [|split; [|split;
    [|split]]]]]]].
  - unfold array_ok, Array.set_block, Array.capacity, Array.size.
    cbn [Array.m_block Array.m_count next_free]. unfold Array.size in *. lia.
  - unfold Array.capacity, Array.set_block. cbn [Array.m_block]. lia.
  - reflexivity.
  - reflexivity.
  - cbn [Array.set_block Array.m_block]. exact Hsize.
  - cbn [Array.set_block Array.m_block]. exact Hb5.
  - intros i Hi. cbn [objects].
    destruct (Hmove i Hi) as [Hm _].
    rewrite (at_same_data _ dst) by reflexivity.
    rewrite Hm, Hobj. reflexivity.
  - intros p Hp1 Hp2. cbn [objects]. rewrite Hframe, Hobj; [reflexivity| |].
    + unfold outside, Array.as_span, Span.data, Span.size.
      cbn [Span.m_data Span.m_count]. exact Hp2.
    + left. unfold dst, Span.data. cbn [Span.m_data]. lia.
  - intros i Hi. cbn [objects]. apply (Hmove i Hi).
Qed.

Lemma reserve_spec (n : Z) (a : Array T) (h : heap T) (l : list T) :
  element_ok -> array_ok a h -> holds a h l ->
  Array.capacity a < n -> heap_has_room h (n * sizeof) ->
  exists a' h',
    Array.reserve n a h = Some (a', h') /\
    array_ok a' h' /\ holds a' h' l /\
    n <= Array.capacity a' /\
    Array.m_count a' = Array.m_count a /\
    Array.m_allocator a' = Array.m_allocator a /\
    MemoryBlock.size (Array.m_block a')
      = align_forward (n * sizeof) heap_alignment /\
    next_free h <= MemoryBlock.ptr (Array.m_block a') /\
    (forall p, p < next_free h ->
       (p < Array.data a \/ Array.data a + Array.size a * sizeof <= p) ->
       objects h' !! p = objects h !! p) /\
    (forall i, 0 <= i < Array.size a ->
       objects h' !! Span.at_ (Array.as_span a) i = None).
Proof.
  intros Hel Hok [Hlen Hget] Hn Hroom.
  destruct (reserve_shape n a h Hel Hok Hn Hroom)
    as (a' & h' & Hres & Hok' & Hcap & Hcnt & Halloc & Hsize & Hfresh
        & Hmove & Hframe & Hdead).
  exists a', h'. split; [exact Hres|]. split; [exact Hok'|].
  split; [|repeat split; assumption].
  split; [unfold Array.size in *; congruence|].
  intros i v Hi. pose proof (lookup_lt_Some _ _ _ Hi) as Hlt.
  unfold Array.get. rewrite Hmove by lia. apply (Hget i v Hi).
Qed.

(** [reserve] within the capacity does nothing. *)
Lemma reserve_noop (n : Z) (a : Array T) (h : heap T) :
  n <= Array.capacity a -> Array.reserve n a h = Some (a, h).
Proof.
  intros Hn. unfold Array.reserve.
  destruct (Z.leb_spec n (Array.capacity a)); [reflexivity|lia].
Qed.

(** Constructing one more element at [end()] of an array with a free
    slot. *)
Lemma store_at_end (v : T) (a : Array T) (h : heap T) (l : list T) :
  element_ok -> array_ok a h -> holds a h l ->
  Array.size a + 1 <= Array.capacity a ->
  let a' := Array.set_count a (wrap (Array.m_count a + 1)) in
  let h' := Heap (<[Array.end_ a := v]> (objects h)) (next_free h) in
  array_ok a' h' /\ holds a' h' (l ++ [v]) /\
  Array.m_block a' = Array.m_block a.
Proof.
  intros Hel Hok [Hlen Hget] Hcap. cbv zeta.
  destruct Hel as (Hs & Hss & Hp & Hal).
  destruct Hok as (H1 & H2 & H3 & H4 & H5).
  destruct (capacity_bytes a Hs H2) as [Hc1 Hc2].
  unfold Array.size in *.
  assert (is_size_t (Array.m_count a + 1)) as Hw
    by (unfold is_size_t; nia).
  rewrite (wrap_small _ Hw).
  assert (forall i, 0 <= i <= Array.m_count a ->
            wrap (Array.data a + i * sizeof) = Array.data a + i * sizeof)
    as Hat.
  { intros i Hi. apply wrap_small. unfold is_size_t, Array.data. nia. }
  split; [|split; [|reflexivity]].
  - unfold array_ok, Array.set_count, Array.capacity, Array.size in *.
    cbn [Array.m_block Array.m_count next_free]. lia.
  - split.
    + unfold Array.size, Array.set_count. cbn [Array.m_count].
      rewrite length_app. cbn [length]. lia.
    + intros i x Hi. unfold Array.get, Array.as_span, Array.set_count,
        Span.at_, Span.data, Array.data, Array.size, Array.end_.
      cbn [objects Array.m_block Array.m_count Span.m_data].
      fold (Array.data a). unfold Array.size.
      pose proof (lookup_lt_Some _ _ _ Hi) as Hlt.
      rewrite length_app in Hlt. cbn [length] in Hlt.
      destruct (decide (i = length l)) as [->|Hne].
      * rewrite lookup_app_r, Nat.sub_diag in Hi by lia.
        injection Hi as <-. rewrite Hlen. apply lookup_insert_eq.
      * rewrite lookup_app_l in Hi by lia.
        rewrite lookup_insert_ne.
        -- apply (Hget i x Hi).
        -- rewrite !Hat by lia. nia.
Qed.

Lemma append_spec (v : T) (a : Array T) (h : heap T) (l : list T) :
  element_ok -> array_ok a h -> holds a h l ->
  (Array.size a + 1 <= Array.capacity a \/
   heap_has_room h ((Array.size a + 1) * sizeof)) ->
  exists a' h',
    Array.append v a h = Some (a', h') /\
    array_ok a' h' /\ holds a' h' (l ++ [v]) /\
    (Array.size a + 1 <= Array.capacity a ->
     Array.m_block a' = Array.m_block a).
Proof.
  intros Hel Hok Hl Hroom.
  assert (is_size_t (Array.size a + 1)) as Hw.
  { destruct (heap_alignment_pow2 Hel) as (_ & _ & H8).
    pose proof (proj1 Hel) as Hs. destruct Hok as (H1 & H2 & H3 & H4 & H5).
    destruct (capacity_bytes a Hs H2) as [Hc1 Hc2].
    unfold is_size_t. destruct Hroom as [|[? ?]]; nia. }
  unfold Array.append. rewrite (wrap_small _ Hw).
  destruct (Z_le_gt_dec (Array.size a + 1) (Array.capacity a)) as [Hfit|Hgrow].
  - rewrite (bind_some _ _ _ _ _ (reserve_noop _ a h Hfit)).
    rewrite (bind_some _ _ _ _ _ (on_objects_eq _ _)).
    unfold ret. cbn [fst snd].
    destruct (store_at_end v a h l Hel Hok Hl Hfit) as (Ha & Hb & Hc).
    eexists _, _. split; [reflexivity|]. split; [exact Ha|].
    split; [exact Hb|]. intros _. exact Hc.
  - destruct Hroom as [|Hroom]; [lia|].
    destruct (reserve_spec (Array.size a + 1) a h l Hel Hok Hl ltac:(lia)
                Hroom)
      as (a1 & h1 & Hres & Hok1 & Hl1 & Hcap1 & Hcnt & _).
    rewrite (bind_some _ _ _ _ _ Hres).
    rewrite (bind_some _ _ _ _ _ (on_objects_eq _ _)).
    unfold ret. cbn [fst snd].
    assert (Array.size a1 + 1 <= Array.capacity a1) as Hfit1
      by (unfold Array.size in *; lia).
    destruct (store_at_end v a1 h1 l Hel Hok1 Hl1 Hfit1) as (Ha & Hb & Hc).
    eexists _, _. split; [reflexivity|]. split; [exact Ha|].
    split; [exact Hb|]. intros ?. lia.
Qed.

(** Appending to an array that holds the values [l] gives an array that
    holds [l ++ [v]], whether the array has to grow or not; without growth
    the block is kept. *)
Theorem append_appends (v : T) (a : Array T) (h : heap T) (l : list T) :
  element_ok -> array_ok a h -> holds a h l ->
  (Array.size a + 1 <= Array.capacity a \/
   heap_has_room h ((Array.size a + 1) * sizeof)) ->
  exists a' h',
    Array.append v a h = Some (a', h') /\
    array_ok a' h' /\ holds a' h' (l ++ [v]) /\
    (Array.size a + 1 <= Array.capacity a ->
     Array.m_block a' = Array.m_block a).
Proof. exact (append_spec v a h l). Qed.

(** [reserve(n)] beyond the capacity, when [n * sizeof(T)] does not
    overflow [size_t] and the platform heap has room for that many bytes,
    moves the array to a fresh block
    that holds at least [n] elements: the values and the size are kept, the
    block has exactly [n * sizeof(T)] bytes rounded up to the alignment of
    the allocator, every old place of an element is left dead, and no other
    allocated address changes.  Nothing is said of a count whose size in
    bytes wraps around: [reserve] does not check the multiplication. *)
Theorem reserve_keeps_elements (n : Z) (a : Array T) (h : heap T)
  (l : list T) :
  element_ok -> array_ok a h -> holds a h l ->
  Array.capacity a < n ->
  n * sizeof <= SIZE_MAX -> heap_has_room h (n * sizeof) ->
  exists a' h',
    Array.reserve n a h = Some (a', h') /\
    array_ok a' h' /\ holds a' h' l /\
    n <= Array.capacity a' /\
    Array.m_count a' = Array.m_count a /\
    Array.m_allocator a' = Array.m_allocator a /\
    MemoryBlock.size (Array.m_block a')
      = align_forward (n * sizeof) heap_alignment /\
    next_free h <= MemoryBlock.ptr (Array.m_block a') /\
    (forall p, p < next_free h ->
       (p < Array.data a \/ Array.data a + Array.size a * sizeof <= p) ->
       objects h' !! p = objects h !! p) /\
    (forall i, 0 <= i < Array.size a ->
       objects h' !! Span.at_ (Array.as_span a) i = None).
Proof.
  intros Hel Hok Hl Hn _ Hroom.
  exact (reserve_spec n a h l Hel Hok Hl Hn Hroom).
Qed.

Lemma with_count_spec (alloc : GlobalAllocator.t) (n : Z) (args : pack T)
  (h : heap T) :
  element_ok -> 0 <= n -> heap_has_room h (n * sizeof) ->
  exists a h',
    Array.with_count alloc n args h = Some (a, h') /\
    array_ok a h' /\ holds a h' (built args (Z.to_nat n)) /\
    Array.size a = n /\ n <= Array.capacity a /\
    Array.m_allocator a = alloc.
Proof.
  intros Hel Hn Hroom.
  destruct (heap_alignment_pow2 Hel) as (_ & _ & H8).
  pose proof Hel as (Hs & _).
  unfold Array.with_count, Array.with_uninit.
  destruct (Z.eqb_spec n 0) as [->|Hne].
  - unfold bind at 1. unfold ret at 1.
    rewrite (bind_some _ _ _ _ _ (on_objects_eq _ _)). unfold ret.
    eexists _, _. split; [reflexivity|].
    destruct Hroom as [Hr1 Hr2].
    unfold array_ok, holds, Array.with_allocator, Array.capacity, Array.size.
    rewrite built_length.
    cbn [Array.m_block Array.m_count Array.m_allocator MemoryBlock.ptr
         MemoryBlock.size next_free].
    unfold MemoryBlock.empty. cbn [MemoryBlock.ptr MemoryBlock.size].
    rewrite Z.div_0_l by lia.
    repeat split; try lia.
    intros i x Hi. apply built_lookup in Hi as [_ Hi]. lia.
  - assert (0 <= n * sizeof) as Hbytes by nia.
    destruct (allocate_spec (n * sizeof) h Hel Hbytes Hroom)
      as (b & h1 & Halloc & Hsize & [Hb1 Hb2] & Hb3 & Hb4 & Hb5 & Hb6 & Hb7
          & Hb8 & Hb9 & Hobj).
    pose proof Hroom as [Hr1 Hr2].
    assert (is_size_t (n * sizeof)) as Hw.
    { unfold is_size_t. lia. }
    unfold Array.alignment. rewrite (wrap_small _ Hw).
    rewrite (bind_some _ _ _ _ _
               (bind_some _ _ _ _ _ Halloc : bind _ _ h = _)).
    unfold ret at 1.
    rewrite (bind_some _ _ _ _ _ (on_objects_eq _ _)). unfold ret.
    eexists _, _. split; [reflexivity|].
    set (a := Array.mk b n (Array.m_allocator (Array.with_allocator alloc))).
    assert (n <= Array.capacity a) as Hcap.
    { unfold Array.capacity, a. cbn [Array.m_block].
      apply Z.div_le_lower_bound; lia. }
    assert (span_fits (Array.as_span a)) as Hfits.
    { unfold span_fits, Array.as_span, Span.data, Span.size, Array.data,
        Array.size, a.
      cbn [Span.m_data Span.m_count Array.m_block Array.m_count].
      repeat split; lia. }
    destruct (construct_post_spec (Array.as_span a) args (objects h1) Hfits)
      as (_ & Hhit & _).
    split; [|split; [|split; [reflexivity|split; [exact Hcap|reflexivity]]]].
    + unfold a, Array.capacity in Hcap. cbn [Array.m_block] in Hcap.
      unfold array_ok, Array.size, Array.capacity, a.
      cbn [Array.m_block Array.m_count next_free]. lia.
    + split.
      * unfold Array.size, a. cbn [Array.m_count].
        rewrite built_length. lia.
      * intros i x Hi. apply built_lookup in Hi as [-> Hi].
        unfold Array.get. cbn [objects].
        rewrite Hhit, Nat2Z.id; [reflexivity|].
        unfold Array.as_span, Span.size, Array.size, a.
        cbn [Span.m_count Array.m_count]. lia.
Qed.

(** [Array(allocator, count, args...)] returns, when [count * sizeof(T)]
    does not overflow and the heap has room for it, an array of [count]
    elements in a block that holds at least [count] elements.  The element
    at index [i] is the one the pack builds at its [i]-th forwarding: the
    elements are all equal to one value when the pack is copied, and need
    not be when an argument is an rvalue that the first construction moves
    from. *)
Theorem with_count_fills (alloc : GlobalAllocator.t) (n : Z)
  (args : pack T) (h : heap T) :
  element_ok -> 0 <= n -> heap_has_room h (n * sizeof) ->
  exists a h',
    Array.with_count alloc n args h = Some (a, h') /\
    array_ok a h' /\ holds a h' (built args (Z.to_nat n)) /\
    (forall v, args = copied v -> holds a h' (replicate (Z.to_nat n) v)) /\
    Array.size a = n /\ n <= Array.capacity a /\
    Array.m_allocator a = alloc.
Proof.
  intros Hel Hn Hroom.
  destruct (with_count_spec alloc n args h Hel Hn Hroom)
    as (a & h' & H1 & H2 & H3 & H4 & H5 & H6).
  exists a, h'. split; [exact H1|]. split; [exact H2|]. split; [exact H3|].
  split; [|split; [exact H4|split; [exact H5|exact H6]]].
  intros v ->. rewrite <- built_copied. exact H3.
Qed.

Lemma clear_spec (a : Array T) (h : heap T) :
  element_ok -> array_ok a h ->
  exists h',
    Array.clear a h = Some (Array.set_count a 0, h') /\
    array_ok (Array.set_count a 0) h' /\
    holds (Array.set_count a 0) h' [] /\
    next_free h' = next_free h /\
    (forall i, 0 <= i < Array.size a ->
       objects h' !! Span.at_ (Array.as_span a) i = None) /\
    (forall p, outside (Array.as_span a) p ->
       objects h' !! p = objects h !! p).
Proof.
  intros Hel Hok.
  pose proof (as_span_fits a h Hel Hok) as Hfits.
  destruct (destroy_backward_post_spec (Array.as_span a) (objects h) Hfits)
    as (_ & Hdead & Hframe).
  unfold Array.clear.
  rewrite (bind_some _ _ _ _ _ (on_objects_eq _ _)). unfold ret.
  eexists. split; [reflexivity|].
  destruct Hok as (H1 & H2 & H3 & H4 & H5).
  pose proof (proj1 Hel) as Hs.
  destruct (capacity_bytes a Hs H2) as [Hc1 Hc2].
  split; [|split; [|split; [reflexivity|split]]].
  - unfold array_ok, Array.set_count, Array.size, Array.capacity in *.
    cbn [Array.m_block Array.m_count next_free]. lia.
  - split; [reflexivity|]. intros i x Hi. rewrite lookup_nil in Hi.
    discriminate.
  - intros i Hi. cbn [objects]. apply Hdead.
    unfold Array.as_span, Span.size. cbn [Span.m_count]. exact Hi.
  - intros p Hp. cbn [objects]. apply Hframe. exact Hp.
Qed.

(** [clear] destroys every element and sets the size to 0; the block, and
    with it the capacity, is kept, and nothing outside the elements
    changes. *)
Theorem clear_keeps_block (a : Array T) (h : heap T) :
  element_ok -> array_ok a h ->
  exists a' h',
    Array.clear a h = Some (a', h') /\
    Array.size a' = 0 /\ Array.m_block a' = Array.m_block a /\
    Array.capacity a' = Array.capacity a /\
    (forall i, 0 <= i < Array.size a ->
       objects h' !! Span.at_ (Array.as_span a) i = None) /\
    (forall p, outside (Array.as_span a) p ->
       objects h' !! p = objects h !! p).
Proof.
  intros Hel Hok.
  destruct (clear_spec a h Hel Hok) as (h' & Hc & _ & _ & _ & Hd & Hf).
  exists (Array.set_count a 0), h'.
  repeat split; try assumption.
Qed.

(** [Array(Array&& other)] hands block, size and allocator of [other] to
    the new array, leaves [other] empty (null block, size 0) and touches no
    memory. *)
Theorem move_construct_transfers (other : Array T) (h : heap T) :
  Array.move_construct other h
  = Some ((other, Array.with_allocator (Array.m_allocator other)), h).
Proof.
  unfold Array.move_construct, Array.move_assign, Array.clear.
  rewrite (bind_some _ _ _ _ _
             (bind_some _ _ _ _ _ (on_objects_eq _ _) : bind _ _ h = _)).
  unfold ret at 1. unfold Array.deallocate, Array.default, Array.set_count,
    Array.data.
  cbn [Array.m_block MemoryBlock.ptr MemoryBlock.empty Z.eqb negb].
  unfold bind, ret. destruct other, h. reflexivity.
Qed.

Lemma move_assign_spec (this other : Array T) (h : heap T) :
  element_ok -> array_ok this h ->
  exists h',
    Array.move_assign this other h
    = Some ((other, Array.with_allocator (Array.m_allocator other)), h') /\
    next_free h' = next_free h /\
    (forall i, 0 <= i < Array.size this ->
       objects h' !! Span.at_ (Array.as_span this) i = None) /\
    (forall p, outside (Array.as_span this) p ->
       objects h' !! p = objects h !! p).
Proof.
  intros Hel Hok.
  destruct (clear_spec this h Hel Hok) as (h1 & Hc & _ & _ & Hnf & Hd & Hf).
  unfold Array.move_assign.
  rewrite (bind_some _ _ _ _ _ Hc).
  unfold Array.deallocate.
  destruct (negb (Array.data (Array.set_count this 0) =? 0)).
  - unfold GlobalAllocator.deallocate, bind, ret, free.
    exists h1. split; [destruct other; reflexivity|].
    split; [exact Hnf|]. split; assumption.
  - unfold bind, ret.
    exists h1. split; [destruct other; reflexivity|].
    split; [exact Hnf|]. split; assumption.
Qed.

(** [operator=(Array&& other)] destroys the elements of the destination,
    hands block, size and allocator of [other] to it and leaves [other]
    empty; what [other] held, in memory that does not overlap the old
    elements of the destination, the destination holds afterwards. *)
Theorem move_assign_transfers (this other : Array T) (h : heap T)
  (l : list T) :
  element_ok -> array_ok this h -> span_fits (Array.as_span other) ->
  holds other h l ->
  disjoint_spans (Array.as_span this) (Array.as_span other) ->
  exists h',
    Array.move_assign this other h
    = Some ((other, Array.with_allocator (Array.m_allocator other)), h') /\
    holds other h' l /\
    (forall i, 0 <= i < Array.size this ->
       objects h' !! Span.at_ (Array.as_span this) i = None).
Proof.
  intros Hel Hok Hfo [Hlen Hget] Hdis.
  destruct (move_assign_spec this other h Hel Hok)
    as (h' & Hm & _ & Hd & Hf).
  exists h'. split; [exact Hm|]. split; [|exact Hd].
  split; [exact Hlen|]. intros i v Hi.
  pose proof (lookup_lt_Some _ _ _ Hi) as Hlt.
  unfold Array.get. rewrite Hf; [apply (Hget i v Hi)|].
  rewrite at_exact
    by (try assumption; unfold Array.as_span, Span.size;
        cbn [Span.m_count]; lia).
  destruct Hfo as (Hs & Ho1 & Ho2 & Ho3).
  unfold disjoint_spans, outside, Array.as_span, Span.data, Span.size in *.
  cbn [Span.m_data Span.m_count] in *. nia.
Qed.

Lemma remove_spec (idx : Z) (a : Array T) (h : heap T) (l : list T) :
  element_ok -> array_ok a h -> holds a h l -> 0 <= idx < Array.size a ->
  exists x h',
    Array.remove idx a h
      = Some ((Some x, Array.set_count a (Array.size a - 1)), h') /\
    l !! Z.to_nat idx = Some x /\
    array_ok (Array.set_count a (Array.size a - 1)) h' /\
    next_free h' = next_free h /\
    (forall i, 0 <= i < idx ->
       objects h' !! Span.at_ (Array.as_span a) i = l !! Z.to_nat i) /\
    objects h' !! Span.at_ (Array.as_span a) idx = None /\
    (forall i, idx < i < Array.size a - 1 ->
       objects h' !! Span.at_ (Array.as_span a) i = l !! Z.to_nat (i + 1)) /\
    (idx < Array.size a - 1 ->
     objects h' !! Span.at_ (Array.as_span a) (Array.size a - 1)
       = last l) /\
    (forall p, outside (Array.as_span a) p ->
       objects h' !! p = objects h !! p).
Proof.
  intros Hel Hok [Hlen Hget] Hidx.
  pose proof (as_span_fits a h Hel Hok) as Hfits.
  pose proof Hfits as (Hs & Hd0 & Hn0 & Hmax).
  set (s := Array.as_span a) in *.
  assert (Span.size s = Array.size a) as Hss by reflexivity.
  assert (Span.data s = Array.data a) as Hsd by reflexivity.
  rewrite Hss in Hn0, Hmax.
  assert (forall i, 0 <= i <= Array.size a ->
            Span.at_ s i = Span.data s + i * sizeof) as Hat.
  { intros i Hi. apply at_exact; [exact Hfits|]. rewrite Hss. exact Hi. }
  assert (forall i, 0 <= i < Array.size a ->
            objects h !! Span.at_ s i = l !! Z.to_nat i) as Hold.
  { intros i Hi.
    destruct (l !! Z.to_nat i) as [y|] eqn:Hy.
    - pose proof (Hget _ _ Hy) as Hg. rewrite Z2Nat.id in Hg by lia.
      exact Hg.
    - apply lookup_ge_None in Hy. lia. }
  assert (is_Some (l !! Z.to_nat idx)) as [x Hx].
  { apply lookup_lt_is_Some_2. lia. }
  pose proof (Hget _ _ Hx) as Hgx. rewrite Z2Nat.id in Hgx by lia.
  unfold Array.remove.
  rewrite (proj2 (Z.ltb_lt idx (Array.size a))) by lia. cbn [negb].
  rewrite (bind_some _ _ h (Array.get a idx h) h eq_refl).
  rewrite (bind_some _ _ _ _ _ (on_objects_eq _ _)). cbn [fst snd objects].
  rewrite (bind_some _ _ _ _ _ (on_objects_eq _ _)).
  cbn [fst snd objects next_free]. unfold ret. fold s.
  assert (is_size_t (Array.size a)) as Hsz.
  { unfold is_size_t. split; [lia|]. nia. }
  assert (wrap (Array.m_count a - 1) = Array.size a - 1) as ->.
  { apply wrap_small. unfold is_size_t, Array.size in *. lia. }
  assert (wrap (idx + 1) = idx + 1) as ->.
  { apply wrap_small. unfold is_size_t in *. lia. }
  set (src := Span.sub s (Span.bounds (idx + 1) None None)).
  set (dst := Span.sub s (Span.bounds idx None None)).
  set (m1 := delete (Span.at_ s idx) (objects h)).
  assert (Span.data src = Span.data s + (idx + 1) * sizeof) as Hsrcd.
  { unfold src, Span.sub. cbn [Span.end_ Span.count Span.start Span.data
      Span.m_data]. apply Hat. lia. }
  assert (Span.data dst = Span.data s + idx * sizeof) as Hdstd.
  { unfold dst, Span.sub. cbn [Span.end_ Span.count Span.start Span.data
      Span.m_data]. apply Hat. lia. }
  assert (Span.size src = Array.size a - idx - 1) as Hsrcn.
  { unfold src, Span.sub. cbn [Span.end_ Span.count Span.start Span.size
      Span.m_count]. rewrite Hss. rewrite wrap_small; [lia|].
    unfold is_size_t in *. lia. }
  assert (Span.size dst = Array.size a - idx) as Hdstn.
  { unfold dst, Span.sub. cbn [Span.end_ Span.count Span.start Span.size
      Span.m_count]. rewrite Hss. rewrite wrap_small; [lia|].
    unfold is_size_t in *. lia. }
  assert (span_fits src) as Hfsrc.
  { unfold span_fits. rewrite Hsrcd, Hsrcn. repeat split; try lia; nia. }
  assert (span_fits dst) as Hfdst.
  { unfold span_fits. rewrite Hdstd, Hdstn. repeat split; try lia; nia. }
  destruct (copy_shifts_left_spec src dst 1 m1 Hfsrc Hfdst ltac:(lia)
              ltac:(lia)) as (_ & Hhit & Hmiss).
  rewrite min_spec, Hsrcn, Hdstn in Hhit, Hmiss.
  replace (Z.min (Array.size a - idx - 1) (Array.size a - idx))
    with (Array.size a - idx - 1) in Hhit, Hmiss by lia.
  rewrite Hdstd in Hmiss.
  assert (forall i, 0 <= i < Array.size a - idx - 1 ->
            Span.at_ dst i = Span.at_ s (idx + i)) as Hatd.
  { intros i Hi. rewrite at_exact by (try assumption; lia).
    rewrite Hat by lia. lia. }
  assert (forall i, 0 <= i < Array.size a - idx - 1 ->
            Span.at_ src i = Span.at_ s (idx + i + 1)) as Hats.
  { intros i Hi. rewrite at_exact by (try assumption; lia).
    rewrite Hat by lia. lia. }
  assert (forall i, 0 <= i < Array.size a -> i <> idx ->
            m1 !! Span.at_ s i = l !! Z.to_nat i) as Hm1.
  { intros i Hi Hne. unfold m1.
    rewrite lookup_delete_ne by (rewrite !Hat by lia; nia).
    apply Hold. exact Hi. }
  assert (m1 !! Span.at_ s idx = None) as Hm1dead.
  { unfold m1. apply lookup_delete_eq. }
  set (m2 := fst (copy src dst m1)) in *.
  exists x, (Heap m2 (next_free h)).
  split; [rewrite Hgx; reflexivity|]. split; [exact Hx|].
  cbn [objects next_free].
  split; [|split; [reflexivity|split; [|split; [|split; [|split]]]]].
  - destruct Hok as (H1 & H2 & H3 & H4 & H5).
    unfold array_ok, Array.set_count, Array.size, Array.capacity in *.
    cbn [Array.m_block Array.m_count next_free]. lia.
  - intros i Hi.
    rewrite Hmiss by (rewrite Hat by lia; left; nia).
    apply Hm1; lia.
  - destruct (Z_lt_le_dec idx (Array.size a - 1)) as [Hin|Hlast].
    + replace (Span.at_ s idx) with (Span.at_ dst 0)
        by (rewrite Hatd by lia; f_equal; lia).
      rewrite Hhit by lia. rewrite Hatd by lia.
      rewrite Z.add_0_r, Hm1dead. reflexivity.
    + rewrite Hmiss by (rewrite Hat by lia; right; nia).
      exact Hm1dead.
  - intros i Hi.
    replace (Span.at_ s i) with (Span.at_ dst (i - idx))
      by (rewrite Hatd by lia; f_equal; lia).
    rewrite Hhit by lia. rewrite Hatd, Hats by lia.
    replace (idx + (i - idx)) with i by lia.
    rewrite !Hm1 by lia.
    destruct (l !! Z.to_nat i) as [y|] eqn:Hy.
    + reflexivity.
    + apply lookup_ge_None in Hy. lia.
  - intros Hnl.
    rewrite Hmiss by (rewrite Hat by lia; right; nia).
    rewrite Hm1 by lia. rewrite last_lookup. f_equal. lia.
  - intros p Hp.
    unfold outside in Hp. rewrite Hss in Hp.
    rewrite Hmiss by nia.
    unfold m1. apply lookup_delete_ne. rewrite Hat by lia. nia.
Qed.

(** [remove(idx)] with [idx] in bounds returns the element at [idx],
    destroys it and leaves an array of one element less in the same block.
    The elements before [idx] are kept and every later place takes the
    value of its right neighbour by copy assignment.  The place [idx]
    itself was destroyed before the assignment, which constructs nothing:
    it holds no live element afterwards, so the array holds the old values
    without the removed one only when the last element is removed.  When
    [idx] is not the last index the old last place is left alive beyond
    the new size.  With [idx] out of bounds the call aborts. *)
Theorem remove_assigns_over_destroyed_slot (idx : Z) (a : Array T)
  (h : heap T) (l : list T) :
  element_ok -> array_ok a h -> holds a h l -> 0 <= idx ->
  (idx < Array.size a ->
   exists x a' h',
     Array.remove idx a h = Some ((Some x, a'), h') /\
     l !! Z.to_nat idx = Some x /\
     array_ok a' h' /\ Array.size a' = Array.size a - 1 /\
     Array.m_block a' = Array.m_block a /\
     (forall i, 0 <= i < idx -> Array.get a' i h' = l !! Z.to_nat i) /\
     Array.get a' idx h' = None /\
     (forall i, idx < i < Array.size a' ->
        Array.get a' i h' = l !! Z.to_nat (i + 1)) /\
     (idx = Array.size a - 1 -> holds a' h' (take (Z.to_nat idx) l)) /\
     (idx < Array.size a - 1 ->
      objects h' !! Span.at_ (Array.as_span a) (Array.size a - 1)
        = last l)) /\
  (Array.size a <= idx -> Array.remove idx a h = None).
Proof.
  intros Hel Hok Hh H0. split.
  - intros Hlt.
    destruct (remove_spec idx a h l Hel Hok Hh ltac:(lia))
      as (x & h' & Hr & Hx & Hok' & _ & Hlow & Hdead & Hhigh & Hlast & _).
    exists x, (Array.set_count a (Array.size a - 1)), h'.
    split; [exact Hr|]. split; [exact Hx|]. split; [exact Hok'|].
    split; [reflexivity|]. split; [reflexivity|].
    split; [exact Hlow|]. split; [exact Hdead|]. split; [exact Hhigh|].
    split; [|exact Hlast].
    intros Hidx. destruct Hh as [Hlen _]. split.
    + unfold Array.set_count, Array.size. cbn [Array.m_count].
      rewrite length_take_le by lia. unfold Array.size in *. lia.
    + intros j v Hj.
      pose proof (lookup_lt_Some _ _ _ Hj) as Hjlt.
      rewrite length_take_le in Hjlt by lia.
      rewrite lookup_take_lt in Hj by lia.
      pose proof (Hlow (Z.of_nat j) ltac:(lia)) as Hg.
      rewrite Nat2Z.id in Hg. rewrite <- Hj. exact Hg.
  - intros Hge. unfold Array.remove.
    rewrite (proj2 (Z.ltb_ge idx (Array.size a))) by lia. reflexivity.
Qed.

Lemma insert_range_in_place (idx : Z) (range : list T) (a : Array T)
  (h : heap T) (l : list T) :
  element_ok -> array_ok a h -> holds a h l ->
  0 <= idx <= Array.size a -> (1 <= length range)%nat ->
  Array.size a + Z.of_nat (length range) <= Array.capacity a ->
  let k := Z.of_nat (length range) in
  let m1 :=
    fst (relocate_backward
           (Span.sub (Array.as_span a) (Span.bounds idx None None))
           (Span.sub (Array.as_raw_span a)
              (Span.bounds 0 (Some (wrap (Array.size a + k))) None))
           (objects h)) in
  let m2 :=
    fst (uninitialized_copy range
           (Span.sub (Array.as_raw_span a) (Span.bounds idx None None))
           m1) in
  let a' := Array.set_count a (wrap (Array.m_count a + k)) in
  let h' := Heap m2 (next_free h) in
  array_ok a' h' /\
  holds a' h' (take (Z.to_nat idx) l ++ range ++ drop (Z.to_nat idx) l) /\
  Array.m_block a' = Array.m_block a.
Proof.
  intros Hel Hok [Hlen Hget] Hidx Hk1 Hcap k.
  pose proof (as_span_fits a h Hel Hok) as Hfs.
  pose proof (as_raw_span_fits a h Hel Hok) as Hfr.
  pose proof Hfr as (Hs & Hd0 & Hc0 & Hmax).
  set (s := Array.as_span a) in *. set (r := Array.as_raw_span a) in *.
  assert (Span.size s = Array.size a) as Hss by reflexivity.
  assert (Span.size r = Array.capacity a) as Hrs by reflexivity.
  assert (Span.data r = Span.data s) as Hrd by reflexivity.
  rewrite Hrs in Hc0, Hmax. rewrite Hrd in Hd0, Hmax.
  assert (forall i, 0 <= i <= Array.capacity a ->
            Span.at_ r i = Span.data s + i * sizeof) as Hatr.
  { intros i Hi. rewrite at_exact by (try assumption; rewrite Hrs; lia).
    rewrite Hrd. reflexivity. }
  assert (forall i, Span.at_ s i = Span.at_ r i) as Hsr by reflexivity.
  assert (is_size_t (Array.size a + k)) as Hw1.
  { unfold is_size_t. split; [lia|]. nia. }
  assert (is_size_t (Array.size a - idx)) as Hw2.
  { unfold is_size_t in *. lia. }
  fold k in Hcap.
  intros m1 m2 a' h'.
  set (src := Span.sub s (Span.bounds idx None None)) in *.
  set (dst := Span.sub r (Span.bounds 0 (Some (wrap (Array.size a + k)))
                            None)) in *.
  set (ucd := Span.sub r (Span.bounds idx None None)) in *.
  assert (Span.data src = Span.data s + idx * sizeof) as Hsrcd.
  { unfold src, Span.sub. cbn [Span.end_ Span.count Span.start Span.data
      Span.m_data]. rewrite Hsr. apply Hatr. lia. }
  assert (Span.size src = Array.size a - idx) as Hsrcn.
  { unfold src, Span.sub. cbn [Span.end_ Span.count Span.start Span.size
      Span.m_count]. rewrite Hss. apply wrap_small. exact Hw2. }
  assert (Span.data dst = Span.data s) as Hdstd.
  { unfold dst, Span.sub. cbn [Span.end_ Span.count Span.start Span.data
      Span.m_data]. rewrite Hatr by lia. lia. }
  assert (Span.size dst = Array.size a + k) as Hdstn.
  { unfold dst, Span.sub. cbn [Span.end_ Span.count Span.start Span.size
      Span.m_count]. rewrite (wrap_small _ Hw1), Z.sub_0_r.
    apply wrap_small. exact Hw1. }
  assert (Span.data ucd = Span.data s + idx * sizeof) as Hucd.
  { unfold ucd, Span.sub. cbn [Span.end_ Span.count Span.start Span.data
      Span.m_data]. apply Hatr. lia. }
  assert (span_fits src) as Hfsrc.
  { unfold span_fits. rewrite Hsrcd, Hsrcn. repeat split; try lia; nia. }
  assert (span_fits dst) as Hfdst.
  { unfold span_fits. rewrite Hdstd, Hdstn. repeat split; try lia; nia. }
  destruct (relocate_backward_shifts_spec src dst k (objects h) Hfsrc Hfdst
              ltac:(lia) ltac:(lia) ltac:(rewrite Hdstd, Hdstn, Hsrcd, Hsrcn;
                                          lia))
    as (_ & Hmoved & _ & Hframe1).
  fold m1 in Hmoved, Hframe1.
  rewrite Hsrcd, Hsrcn in Hframe1. rewrite Hsrcn in Hmoved.
  destruct (uninitialized_copy_post_spec range ucd m1 Hs
              ltac:(rewrite Hucd; nia) ltac:(rewrite Hucd; fold k; nia))
    as (_ & Hnew & Hframe2).
  fold m2 in Hnew, Hframe2. fold k in Hframe2. rewrite Hucd in Hframe2.
  assert (forall i, 0 <= i < Array.size a - idx ->
            Span.at_ src i = Span.data s + (idx + i) * sizeof) as Hats.
  { intros i Hi. rewrite at_exact by (try assumption; lia). lia. }
  assert (forall i, 0 <= i < k ->
            Span.at_ ucd i = Span.data s + (idx + i) * sizeof) as Hatu.
  { intros i Hi. unfold Span.at_. rewrite Hucd. rewrite wrap_small; [lia|].
    unfold is_size_t. split; nia. }
  assert (wrap (Array.m_count a + k) = Array.size a + k) as Hcnt.
  { apply wrap_small. exact Hw1. }
  split; [|split; [|reflexivity]].
  - destruct Hok as (H1 & H2 & H3 & H4 & H5).
    unfold array_ok, a', h', Array.set_count, Array.size, Array.capacity
      in *.
    cbn [Array.m_block Array.m_count next_free]. rewrite Hcnt. lia.
  - assert (length (take (Z.to_nat idx) l) = Z.to_nat idx) as Hlt.
    { apply length_take_le. lia. }
    split.
    + unfold a', Array.set_count, Array.size. cbn [Array.m_count].
      rewrite Hcnt, !length_app, Hlt, length_drop.
      unfold Array.size, k in *. lia.
    + intros j v Hj.
      unfold Array.get, h'. cbn [objects].
      change (Span.at_ (Array.as_span a') (Z.of_nat j))
        with (Span.at_ r (Z.of_nat j)).
      pose proof (lookup_lt_Some _ _ _ Hj) as Hjlt.
      rewrite !length_app, Hlt, length_drop in Hjlt.
      rewrite Hatr by lia.
      destruct (decide (j < Z.to_nat idx)%nat) as [Hlo|Hlo].
      * rewrite lookup_app_l in Hj by lia.
        rewrite lookup_take_lt in Hj by lia.
        rewrite Hframe2 by (left; nia).
        rewrite Hframe1 by (unfold outside; rewrite ?Hsrcd; left; nia).
        pose proof (Hget j v Hj) as Hg. unfold Array.get in Hg.
        fold s in Hg. rewrite Hsr, Hatr in Hg by lia. exact Hg.
      * rewrite lookup_app_r in Hj by lia. rewrite Hlt in Hj.
        destruct (decide (j - Z.to_nat idx < length range)%nat)
          as [Hmid|Hhi].
        -- rewrite lookup_app_l in Hj by lia.
           pose proof (Hnew _ _ Hj) as Hn.
           rewrite Hatu in Hn by lia. rewrite <- Hn.
           replace (idx + Z.of_nat (j - Z.to_nat idx)) with (Z.of_nat j)
             by lia.
           reflexivity.
        -- rewrite lookup_app_r in Hj by lia.
           rewrite lookup_drop in Hj.
           rewrite Hframe2 by (right; nia).
           pose proof (Hmoved (Z.of_nat j - k - idx) ltac:(lia)) as Hm.
           rewrite Hats in Hm by lia.
           replace (Span.data s + (idx + (Z.of_nat j - k - idx)) * sizeof
                    + k * sizeof)
             with (Span.data s + Z.of_nat j * sizeof) in Hm by lia.
           rewrite Hm.
           pose proof (Hget _ v Hj) as Hg. unfold Array.get in Hg.
           fold s in Hg. rewrite Hsr, Hatr in Hg by lia.
           replace (Z.of_nat (Z.to_nat idx
                               + (j - Z.to_nat idx - length range)))
             with (idx + (Z.of_nat j - k - idx)) in Hg by (unfold k; lia).
           exact Hg.
Qed.

Lemma insert_range_spec (idx : Z) (range : list T) (a : Array T)
  (h : heap T) (l : list T) :
  element_ok -> array_ok a h -> holds a h l ->
  0 <= idx <= Array.size a ->
  (Array.size a + Z.of_nat (length range) <= Array.capacity a \/
   heap_has_room h ((Array.size a + Z.of_nat (length range)) * sizeof)) ->
  exists a' h',
    Array.insert_range idx range a h = Some (a', h') /\
    array_ok a' h' /\
    holds a' h' (take (Z.to_nat idx) l ++ range ++ drop (Z.to_nat idx) l) /\
    (Array.size a + Z.of_nat (length range) <= Array.capacity a ->
     Array.m_block a' = Array.m_block a).
Proof.
  intros Hel Hok Hh Hidx Hroom.
  unfold Array.insert_range.
  destruct (Z.eqb_spec (Z.of_nat (length range)) 0) as [Hz|Hnz].
  - exists a, h. unfold ret. split; [reflexivity|]. split; [exact Hok|].
    split; [|reflexivity].
    destruct range; [|discriminate]. cbn [app].
    rewrite take_drop. exact Hh.
  - set (k := Z.of_nat (length range)) in *.
    assert (1 <= length range)%nat as Hk1 by lia.
    pose proof (as_span_fits a h Hel Hok) as (Hs & Hd0 & Hn0 & Hmax).
    unfold Array.as_span, Span.data, Span.size in Hd0, Hn0, Hmax.
    cbn [Span.m_data Span.m_count] in Hd0, Hn0, Hmax.
    destruct (Z_le_gt_dec (Array.size a + k) (Array.capacity a))
      as [Hfit|Hgrow].
    + assert (wrap (Array.size a + k) = Array.size a + k) as Hw.
      { apply wrap_small.
        pose proof (as_raw_span_fits a h Hel Hok) as (_ & Hr0 & Hc0 & Hrm).
        unfold Array.as_raw_span, Span.data, Span.size in Hr0, Hc0, Hrm.
        cbn [Span.m_data Span.m_count] in Hr0, Hc0, Hrm.
        unfold is_size_t. split; [lia|]. nia. }
      rewrite (bind_some _ _ _ _ _
                 (reserve_noop (wrap (Array.size a + k)) a h
                    ltac:(rewrite Hw; exact Hfit))).
      rewrite (bind_some _ _ _ _ _ (on_objects_eq _ _)).
      rewrite (bind_some _ _ _ _ _ (on_objects_eq _ _)).
      cbn [fst snd objects next_free uninitialized_copy]. unfold ret.
      eexists _, _. split; [reflexivity|].
      destruct (insert_range_in_place idx range a h l Hel Hok Hh Hidx Hk1
                  Hfit) as (Ha & Hb & Hc).
      split; [exact Ha|]. split; [exact Hb|]. intros _. exact Hc.
    + destruct Hroom as [Hfit|Hroom]; [lia|].
      assert (wrap (Array.size a + k) = Array.size a + k) as Hw.
      { apply wrap_small. destruct Hroom as [Hr1 Hr2].
        destruct (heap_alignment_pow2 Hel) as (_ & _ & H8).
        unfold is_size_t. split; [lia|]. nia. }
      destruct (reserve_spec (Array.size a + k) a h l Hel Hok Hh
                  ltac:(lia) Hroom)
        as (a1 & h1 & Hres & Hok1 & Hh1 & Hcap1 & Hcnt1 & _).
      rewrite Hw, (bind_some _ _ _ _ _ Hres).
      rewrite (bind_some _ _ _ _ _ (on_objects_eq _ _)).
      rewrite (bind_some _ _ _ _ _ (on_objects_eq _ _)).
      cbn [fst snd objects next_free uninitialized_copy]. unfold ret.
      eexists _, _. split; [reflexivity|].
      assert (Array.size a1 = Array.size a) as Hsz1 by exact Hcnt1.
      destruct (insert_range_in_place idx range a1 h1 l Hel Hok1 Hh1
                  ltac:(rewrite Hsz1; exact Hidx) Hk1
                  ltac:(rewrite Hsz1; exact Hcap1)) as (Ha & Hb & Hc).
      split; [exact Ha|]. split; [exact Hb|]. intros Hc'. lia.
Qed.

(** [insert_range(idx, range)] on an array that holds [l], with
    [idx <= size()], leaves an array that holds the elements of [l] before
    [idx], then the range, then the rest of [l], whether the array has to
    grow or not. *)
Theorem insert_range_inserts (idx : Z) (range : list T) (a : Array T)
  (h : heap T) (l : list T) :
  element_ok -> array_ok a h -> holds a h l ->
  0 <= idx <= Array.size a ->
  (Array.size a + Z.of_nat (length range) <= Array.capacity a \/
   heap_has_room h ((Array.size a + Z.of_nat (length range)) * sizeof)) ->
  exists a' h',
    Array.insert_range idx range a h = Some (a', h') /\
    array_ok a' h' /\
    holds a' h' (take (Z.to_nat idx) l ++ range ++ drop (Z.to_nat idx) l) /\
    (Array.size a + Z.of_nat (length range) <= Array.capacity a ->
     Array.m_block a' = Array.m_block a).
Proof. exact (insert_range_spec idx range a h l). Qed.

Lemma construct_tail_in_place (n : Z) (args : pack T) (a : Array T)
  (h : heap T) (l : list T) :
  element_ok -> array_ok a h -> holds a h l ->
  0 <= n -> Array.size a + n <= Array.capacity a ->
  let sp : Span T :=
    Span.mk (Span.at_ (Array.as_raw_span a) (Array.size a)) n in
  let a' := Array.set_count a (Array.size a + n) in
  let h' := Heap (fst (construct sp args (objects h))) (next_free h) in
  array_ok a' h' /\ holds a' h' (l ++ built args (Z.to_nat n)) /\
  Array.m_block a' = Array.m_block a.
Proof.
  intros Hel Hok [Hlen Hget] Hn Hcap.
  pose proof (as_raw_span_fits a h Hel Hok) as Hfr.
  pose proof Hfr as (Hs & Hd0 & Hc0 & Hmax).
  set (r := Array.as_raw_span a) in *.
  assert (Span.size r = Array.capacity a) as Hrs by reflexivity.
  rewrite Hrs in Hc0, Hmax.
  assert (forall i, 0 <= i <= Array.capacity a ->
            Span.at_ r i = Span.data r + i * sizeof) as Hatr.
  { intros i Hi. apply at_exact; [exact Hfr|]. rewrite Hrs. exact Hi. }
  destruct Hok as (H1 & H2 & H3 & H4 & H5).
  intros sp a' h'.
  assert (Span.data sp = Span.data r + Array.size a * sizeof) as Hspd.
  { unfold sp, Span.data at 1. cbn [Span.m_data]. apply Hatr. lia. }
  assert (Span.size sp = n) as Hspn by reflexivity.
  assert (span_fits sp) as Hfsp.
  { unfold span_fits. rewrite Hspd, Hspn. repeat split; try lia; nia. }
  destruct (construct_post_spec sp args (objects h) Hfsp)
    as (_ & Hhit & Hmiss).
  rewrite Hspn in Hhit.
  split; [|split; [|reflexivity]].
  - unfold array_ok, a', h', Array.set_count, Array.size, Array.capacity
      in *.
    cbn [Array.m_block Array.m_count next_free]. lia.
  - split.
    + unfold a', Array.set_count, Array.size. cbn [Array.m_count].
      rewrite length_app, built_length. unfold Array.size in *. lia.
    + intros j x Hj.
      unfold Array.get, h'. cbn [objects].
      change (Span.at_ (Array.as_span a') (Z.of_nat j))
        with (Span.at_ r (Z.of_nat j)).
      pose proof (lookup_lt_Some _ _ _ Hj) as Hjlt.
      rewrite length_app, built_length in Hjlt.
      destruct (decide (j < length l)%nat) as [Hlo|Hhi].
      * rewrite lookup_app_l in Hj by exact Hlo.
        rewrite Hmiss.
        -- apply (Hget j x Hj).
        -- unfold outside. rewrite Hspd. left. rewrite Hatr by lia. nia.
      * rewrite lookup_app_r in Hj by lia.
        apply built_lookup in Hj as [-> Hj].
        replace (Span.at_ r (Z.of_nat j))
          with (Span.at_ sp (Z.of_nat j - Array.size a)).
        -- rewrite Hhit by lia. do 2 f_equal. lia.
        -- rewrite at_exact by (try assumption; rewrite Hspn; lia).
           rewrite Hspd, Hatr by lia. lia.
Qed.

Lemma append_n_spec (n : Z) (args : pack T) (a : Array T) (h : heap T)
  (l : list T) :
  element_ok -> array_ok a h -> holds a h l -> 0 <= n ->
  (Array.size a + n <= Array.capacity a \/
   heap_has_room h ((Array.size a + n) * sizeof)) ->
  exists a' h',
    Array.append_n n args a h = Some (a', h') /\
    array_ok a' h' /\ holds a' h' (l ++ built args (Z.to_nat n)) /\
    (Array.size a + n <= Array.capacity a ->
     Array.m_block a' = Array.m_block a).
Proof.
  intros Hel Hok Hl Hn Hroom.
  assert (is_size_t (Array.size a + n)) as Hw.
  { destruct (heap_alignment_pow2 Hel) as (_ & _ & H8).
    pose proof (proj1 Hel) as Hs. destruct Hok as (H1 & H2 & H3 & H4 & H5).
    destruct (capacity_bytes a Hs H2) as [Hc1 Hc2].
    unfold is_size_t. destruct Hroom as [|[? ?]]; nia. }
  unfold Array.append_n. rewrite (wrap_small _ Hw).
  destruct (Z_le_gt_dec (Array.size a + n) (Array.capacity a))
    as [Hfit|Hgrow].
  - rewrite (bind_some _ _ _ _ _ (reserve_noop _ a h Hfit)).
    rewrite (bind_some _ _ _ _ _ (on_objects_eq _ _)).
    unfold ret. cbn [fst snd construct].
    destruct (construct_tail_in_place n args a h l Hel Hok Hl Hn Hfit)
      as (Ha & Hb & Hc).
    change (Span.size (Span.sub (Array.as_raw_span a)
              (Span.bounds (Array.size a) None (Some n)))) with n.
    rewrite (wrap_small _ Hw : wrap (Array.m_count a + n) = _).
    eexists _, _. split; [reflexivity|]. split; [exact Ha|].
    split; [exact Hb|]. intros _. exact Hc.
  - destruct Hroom as [|Hroom]; [lia|].
    destruct (reserve_spec (Array.size a + n) a h l Hel Hok Hl ltac:(lia)
                Hroom)
      as (a1 & h1 & Hres & Hok1 & Hl1 & Hcap1 & Hcnt & _).
    rewrite (bind_some _ _ _ _ _ Hres).
    rewrite (bind_some _ _ _ _ _ (on_objects_eq _ _)).
    unfold ret. cbn [fst snd construct].
    assert (Array.size a1 = Array.size a) as Hsz1 by exact Hcnt.
    assert (Array.size a1 + n <= Array.capacity a1) as Hfit1 by lia.
    destruct (construct_tail_in_place n args a1 h1 l Hel Hok1 Hl1 Hn Hfit1)
      as (Ha & Hb & Hc).
    change (Span.size (Span.sub (Array.as_raw_span a1)
              (Span.bounds (Array.size a1) None (Some n)))) with n.
    rewrite Hcnt.
    rewrite (wrap_small _ Hw : wrap (Array.m_count a + n) = _).
    rewrite Hsz1 in Ha, Hb at 1.
    eexists _, _. split; [reflexivity|]. split; [exact Ha|].
    split; [exact Hb|]. intros ?. lia.
Qed.

(** [append_n(n, args...)] on an array that holds [l] leaves, when the
    array need not grow or the new size in bytes does not overflow and the
    heap has room for it, an array that holds [l] followed by [n] new
    elements.  The [i]-th new element is the one the pack builds at its
    [i]-th forwarding: the new elements are [n] copies of one value when the
    pack is copied, and need not be when an argument is an rvalue that the
    first construction moves from. *)
Theorem append_n_appends (n : Z) (args : pack T) (a : Array T) (h : heap T)
  (l : list T) :
  element_ok -> array_ok a h -> holds a h l -> 0 <= n ->
  (Array.size a + n <= Array.capacity a \/
   heap_has_room h ((Array.size a + n) * sizeof)) ->
  exists a' h',
    Array.append_n n args a h = Some (a', h') /\
    array_ok a' h' /\ holds a' h' (l ++ built args (Z.to_nat n)) /\
    (forall v, args = copied v ->
       holds a' h' (l ++ replicate (Z.to_nat n) v)) /\
    (Array.size a + n <= Array.capacity a ->
     Array.m_block a' = Array.m_block a).
Proof.
  intros Hel Hok Hl Hn Hroom.
  destruct (append_n_spec n args a h l Hel Hok Hl Hn Hroom)
    as (a' & h' & H1 & H2 & H3 & H4).
  exists a', h'. split; [exact H1|]. split; [exact H2|]. split; [exact H3|].
  split; [|exact H4].
  intros v ->. rewrite <- built_copied. exact H3.
Qed.

Lemma destroy_tail_in_place (count : Z) (a : Array T) (h : heap T)
  (l : list T) :
  element_ok -> array_ok a h -> holds a h l ->
  0 <= count <= Array.size a ->
  let sp := Span.sub (Array.as_span a) (Span.bounds count None None) in
  let a' := Array.set_count a count in
  let h' := Heap (fst (destroy_backward sp (objects h))) (next_free h) in
  array_ok a' h' /\ holds a' h' (take (Z.to_nat count) l) /\
  (forall i, count <= i < Array.size a ->
     objects h' !! Span.at_ (Array.as_span a) i = None).
Proof.
  intros Hel Hok [Hlen Hget] Hcount.
  pose proof (as_span_fits a h Hel Hok) as Hfs.
  pose proof Hfs as (Hs & Hd0 & Hn0 & Hmax).
  set (s := Array.as_span a) in *.
  assert (Span.size s = Array.size a) as Hss by reflexivity.
  rewrite Hss in Hn0, Hmax.
  assert (forall i, 0 <= i <= Array.size a ->
            Span.at_ s i = Span.data s + i * sizeof) as Hat.
  { intros i Hi. apply at_exact; [exact Hfs|]. rewrite Hss. exact Hi. }
  destruct Hok as (H1 & H2 & H3 & H4 & H5).
  intros sp a' h'.
  assert (Span.data sp = Span.data s + count * sizeof) as Hspd.
  { unfold sp, Span.sub. cbn [Span.end_ Span.count Span.start Span.data
      Span.m_data]. apply Hat. lia. }
  assert (Span.size sp = Array.size a - count) as Hspn.
  { unfold sp, Span.sub. cbn [Span.end_ Span.count Span.start Span.size
      Span.m_count]. rewrite Hss. apply wrap_small.
    unfold is_size_t. split; [lia|]. nia. }
  assert (span_fits sp) as Hfsp.
  { unfold span_fits. rewrite Hspd, Hspn. repeat split; try lia; nia. }
  destruct (destroy_backward_post_spec sp (objects h) Hfsp)
    as (_ & Hdead & Hframe).
  rewrite Hspn in Hdead.
  split; [|split].
  - unfold array_ok, a', h', Array.set_count, Array.size, Array.capacity
      in *.
    cbn [Array.m_block Array.m_count next_free]. lia.
  - split.
    + unfold a', Array.set_count, Array.size. cbn [Array.m_count].
      rewrite length_take_le by lia. lia.
    + intros j x Hj.
      pose proof (lookup_lt_Some _ _ _ Hj) as Hjlt.
      rewrite length_take_le in Hjlt by lia.
      rewrite lookup_take_lt in Hj by lia.
      unfold Array.get, h'. cbn [objects].
      change (Span.at_ (Array.as_span a') (Z.of_nat j))
        with (Span.at_ s (Z.of_nat j)).
      rewrite Hframe.
      * apply (Hget j x Hj).
      * unfold outside. rewrite Hspd. left. rewrite Hat by lia. nia.
  - intros i Hi. unfold h'. cbn [objects].
    replace (Span.at_ s i) with (Span.at_ sp (i - count)).
    + apply Hdead. lia.
    + rewrite at_exact by (try assumption; rewrite Hspn; lia).
      rewrite Hspd, Hat by lia. lia.
Qed.

Lemma resize_spec (count : Z) (args : pack T) (a : Array T) (h : heap T)
  (l : list T) :
  element_ok -> array_ok a h -> holds a h l -> 0 <= count ->
  (count <= Array.capacity a \/ heap_has_room h (count * sizeof)) ->
  exists a' h',
    Array.resize count args a h = Some (a', h') /\
    array_ok a' h' /\
    holds a' h' (take (Z.to_nat count) l
                 ++ built args (Z.to_nat (count - Array.size a))) /\
    Array.size a' = count /\
    (forall i, count <= i < Array.size a ->
       objects h' !! Span.at_ (Array.as_span a) i = None).
Proof.
  intros Hel Hok Hl Hcount Hroom.
  pose proof Hl as [Hlen _].
  pose proof (proj1 Hel) as Hs.
  assert (0 <= Array.size a <= Array.capacity a) as Hsc by apply Hok.
  assert (is_size_t count) as Hw.
  { destruct (heap_alignment_pow2 Hel) as (_ & _ & H8).
    pose proof Hok as (H1 & H2 & H3 & H4 & H5).
    destruct (capacity_bytes a Hs H2) as [Hc1 Hc2].
    unfold is_size_t. destruct Hroom as [|[? ?]]; nia. }
  unfold Array.resize.
  destruct (Z.gtb_spec count (Array.size a)) as [Hgt|Hle].
  - rewrite take_ge by lia.
    assert (wrap (count - Array.size a) = count - Array.size a) as Hwn.
    { apply wrap_small. unfold is_size_t in *. lia. }
    destruct (Z.gtb_spec count (Array.capacity a)) as [Hgrow|Hfit].
    + destruct Hroom as [|Hroom]; [lia|].
      destruct (reserve_spec count a h l Hel Hok Hl ltac:(lia) Hroom)
        as (a1 & h1 & Hres & Hok1 & Hl1 & Hcap1 & Hcnt & _).
      unfold bind, ret. rewrite Hres, on_objects_eq.
      cbn [fst snd construct].
      assert (Array.size a1 = Array.size a) as Hsz1 by exact Hcnt.
      destruct (construct_tail_in_place (count - Array.size a) args a1 h1 l
                  Hel Hok1 Hl1 ltac:(lia) ltac:(lia)) as (Ha & Hb & Hc).
      unfold Span.sub. cbn [Span.end_ Span.count Span.start].
      rewrite Hsz1 in *. rewrite Hwn.
      replace (Array.size a + (count - Array.size a)) with count
        in Ha, Hb by lia.
      eexists _, _. split; [reflexivity|]. split; [exact Ha|].
      split; [exact Hb|]. split; [reflexivity|]. intros i Hi. lia.
    + unfold bind, ret. rewrite on_objects_eq.
      cbn [fst snd construct].
      destruct (construct_tail_in_place (count - Array.size a) args a h l
                  Hel Hok Hl ltac:(lia) ltac:(lia)) as (Ha & Hb & Hc).
      unfold Span.sub. cbn [Span.end_ Span.count Span.start].
      rewrite Hwn.
      replace (Array.size a + (count - Array.size a)) with count
        in Ha, Hb by lia.
      eexists _, _. split; [reflexivity|]. split; [exact Ha|].
      split; [exact Hb|]. split; [reflexivity|]. intros i Hi. lia.
  - replace (Z.to_nat (count - Array.size a)) with 0%nat by lia.
    change (built args 0) with (@nil T). rewrite app_nil_r.
    destruct (Z.ltb_spec count (Array.size a)) as [Hlt|Hge].
    + unfold bind, ret. rewrite on_objects_eq.
      cbn [fst snd].
      destruct (destroy_tail_in_place count a h l Hel Hok Hl ltac:(lia))
        as (Ha & Hb & Hc).
      eexists _, _. split; [reflexivity|]. split; [exact Ha|].
      split; [exact Hb|]. split; [reflexivity|exact Hc].
    + unfold bind, ret.
      assert (count = Array.size a) as -> by lia.
      rewrite take_ge by lia.
      eexists _, _. split; [reflexivity|].
      replace (Array.set_count a (Array.size a)) with a
        by (destruct a; reflexivity).
      split; [exact Hok|]. split; [exact Hl|]. split; [reflexivity|].
      intros i Hi. lia.
Qed.

(** [resize(count, args...)] on an array that holds [l] leaves, when the
    array need not grow or [count * sizeof(T)] does not overflow and the
    heap has room for it, an array of [count] elements: the first [count]
    elements of [l], followed, when [count] exceeds the old size, by new
    elements, the [i]-th of which is the one the pack builds at its [i]-th
    forwarding (copies of one value when the pack is copied); the elements
    cut off are destroyed. *)
Theorem resize_truncates_or_pads (count : Z) (args : pack T) (a : Array T)
  (h : heap T) (l : list T) :
  element_ok -> array_ok a h -> holds a h l -> 0 <= count ->
  (count <= Array.capacity a \/ heap_has_room h (count * sizeof)) ->
  exists a' h',
    Array.resize count args a h = Some (a', h') /\
    array_ok a' h' /\
    holds a' h' (take (Z.to_nat count) l
                 ++ built args (Z.to_nat (count - Array.size a))) /\
    (forall v, args = copied v ->
       holds a' h' (take (Z.to_nat count) l
                    ++ replicate (Z.to_nat (count - Array.size a)) v)) /\
    Array.size a' = count /\
    (forall i, count <= i < Array.size a ->
       objects h' !! Span.at_ (Array.as_span a) i = None).
Proof.
  intros Hel Hok Hl Hcount Hroom.
  destruct (resize_spec count args a h l Hel Hok Hl Hcount Hroom)
    as (a' & h' & H1 & H2 & H3 & H4 & H5).
  exists a', h'. split; [exact H1|]. split; [exact H2|]. split; [exact H3|].
  split; [|split; [exact H4|exact H5]].
  intros v ->. rewrite <- built_copied. exact H3.
Qed.

Lemma remove_range_spec (start end_ : Z) (a : Array T) (h : heap T)
  (l : list T) :
  element_ok -> array_ok a h -> holds a h l ->
  0 <= start -> start <= end_ -> end_ <= Array.size a ->
  exists a' h',
    Array.remove_range start end_ a h = Some (a', h') /\
    array_ok a' h' /\
    Array.size a' = Array.size a - (end_ - start) /\
    Array.m_block a' = Array.m_block a /\
    (forall i, 0 <= i < start -> Array.get a' i h' = l !! Z.to_nat i) /\
    (forall i, start <= i < end_ -> Array.get a' i h' = None) /\
    (forall i, end_ <= i < Array.size a' ->
       Array.get a' i h' = l !! Z.to_nat (i + (end_ - start))).
Proof.
  intros Hel Hok [Hlen Hget] Hst Hse Hen.
  pose proof (as_span_fits a h Hel Hok) as Hfs.
  pose proof Hfs as (Hs & Hd0 & Hn0 & Hmax).
  set (s := Array.as_span a) in *.
  assert (Span.size s = Array.size a) as Hss by reflexivity.
  rewrite Hss in Hn0, Hmax.
  assert (forall i, 0 <= i <= Array.size a ->
            Span.at_ s i = Span.data s + i * sizeof) as Hat.
  { intros i Hi. apply at_exact; [exact Hfs|]. rewrite Hss. exact Hi. }
  assert (forall i, 0 <= i < Array.size a ->
            objects h !! Span.at_ s i = l !! Z.to_nat i) as Hold.
  { intros i Hi.
    destruct (l !! Z.to_nat i) as [y|] eqn:Hy.
    - pose proof (Hget _ _ Hy) as Hg. rewrite Z2Nat.id in Hg by lia.
      exact Hg.
    - apply lookup_ge_None in Hy. lia. }
  assert (is_size_t (Array.size a)) as Hsz.
  { unfold is_size_t. split; [lia|]. nia. }
  unfold Array.remove_range, bind, ret. rewrite !on_objects_eq.
  cbn [fst snd objects next_free]. fold s.
  assert (wrap (end_ - start) = end_ - start) as Hw1.
  { apply wrap_small. unfold is_size_t in *. lia. }
  assert (wrap (Array.m_count a - wrap (end_ - start))
          = Array.size a - (end_ - start)) as ->.
  { rewrite Hw1. apply wrap_small. unfold is_size_t, Array.size in *. lia. }
  set (dead := Span.sub s (Span.bounds start (Some end_) None)).
  set (src := Span.sub s (Span.bounds end_ None None)).
  set (dst := Span.sub s (Span.bounds start None None)).
  assert (Span.data dead = Span.data s + start * sizeof) as Hdd.
  { unfold dead, Span.sub. cbn [Span.end_ Span.count Span.start Span.data
      Span.m_data]. apply Hat. lia. }
  assert (Span.size dead = end_ - start) as Hdn.
  { unfold dead, Span.sub. cbn [Span.end_ Span.count Span.start Span.size
      Span.m_count]. exact Hw1. }
  assert (Span.data src = Span.data s + end_ * sizeof) as Hsrcd.
  { unfold src, Span.sub. cbn [Span.end_ Span.count Span.start Span.data
      Span.m_data]. apply Hat. lia. }
  assert (Span.size src = Array.size a - end_) as Hsrcn.
  { unfold src, Span.sub. cbn [Span.end_ Span.count Span.start Span.size
      Span.m_count]. rewrite Hss. apply wrap_small.
    unfold is_size_t in *. lia. }
  assert (Span.data dst = Span.data s + start * sizeof) as Hdstd.
  { unfold dst, Span.sub. cbn [Span.end_ Span.count Span.start Span.data
      Span.m_data]. apply Hat. lia. }
  assert (Span.size dst = Array.size a - start) as Hdstn.
  { unfold dst, Span.sub. cbn [Span.end_ Span.count Span.start Span.size
      Span.m_count]. rewrite Hss. apply wrap_small.
    unfold is_size_t in *. lia. }
  assert (span_fits dead) as Hfdead.
  { unfold span_fits. rewrite Hdd, Hdn. repeat split; try lia; nia. }
  assert (span_fits src) as Hfsrc.
  { unfold span_fits. rewrite Hsrcd, Hsrcn. repeat split; try lia; nia. }
  assert (span_fits dst) as Hfdst.
  { unfold span_fits. rewrite Hdstd, Hdstn. repeat split; try lia; nia. }
  destruct (destroy_backward_post_spec dead (objects h) Hfdead)
    as (_ & Hdead1 & Hframe1).
  set (m1 := fst (destroy_backward dead (objects h))) in *.
  unfold outside in Hframe1. rewrite Hdd, Hdn in Hframe1.
  rewrite Hdn in Hdead1.
  assert (forall i, 0 <= i < Array.size a -> (i < start \/ end_ <= i) ->
            m1 !! Span.at_ s i = l !! Z.to_nat i) as Hm1.
  { intros i Hi Hout. rewrite Hframe1 by (rewrite Hat by lia; nia).
    apply Hold. exact Hi. }
  assert (forall i, start <= i < end_ -> m1 !! Span.at_ s i = None)
    as Hm1dead.
  { intros i Hi.
    replace (Span.at_ s i) with (Span.at_ dead (i - start)).
    - apply Hdead1. lia.
    - rewrite at_exact by (try assumption; rewrite Hdn; lia).
      rewrite Hdd, Hat by lia. lia. }
  destruct (copy_shifts_left_spec src dst (end_ - start) m1 Hfsrc Hfdst
              ltac:(lia) ltac:(rewrite Hsrcd, Hdstd; lia))
    as (_ & Hhit & Hmiss).
  set (m2 := fst (copy src dst m1)) in *.
  rewrite min_spec, Hsrcn, Hdstn in Hhit, Hmiss.
  replace (Z.min (Array.size a - end_) (Array.size a - start))
    with (Array.size a - end_) in Hhit, Hmiss by lia.
  rewrite Hdstd in Hmiss.
  assert (forall k, 0 <= k < Array.size a - end_ ->
            Span.at_ dst k = Span.at_ s (start + k)) as Hatd.
  { intros k Hk. rewrite at_exact by (try assumption; lia).
    rewrite Hdstd, Hat by lia. lia. }
  assert (forall k, 0 <= k < Array.size a - end_ ->
            Span.at_ src k = Span.at_ s (end_ + k)) as Hats.
  { intros k Hk. rewrite at_exact by (try assumption; lia).
    rewrite Hsrcd, Hat by lia. lia. }
  set (a' := Array.set_count a (Array.size a - (end_ - start))).
  exists a', (Heap m2 (next_free h)). split; [reflexivity|].
  assert (forall i, Array.get a' i (Heap m2 (next_free h))
                    = m2 !! Span.at_ s i) as Hgeta by reflexivity.
  split; [|split; [reflexivity|split; [reflexivity|split; [|split]]]].
  - destruct Hok as (H1 & H2 & H3 & H4 & H5).
    unfold array_ok, a', Array.set_count, Array.size, Array.capacity in *.
    cbn [Array.m_block Array.m_count next_free]. lia.
  - intros i Hi. rewrite Hgeta.
    rewrite Hmiss by (rewrite Hat by lia; left; nia).
    apply Hm1; lia.
  - intros i Hi. rewrite Hgeta.
    destruct (Z_lt_le_dec (i - start) (Array.size a - end_)) as [Hin|Hout].
    + replace (Span.at_ s i) with (Span.at_ dst (i - start))
        by (rewrite Hatd by lia; f_equal; lia).
      rewrite Hhit by lia. rewrite Hatd by lia.
      replace (start + (i - start)) with i by lia.
      rewrite Hm1dead by lia. reflexivity.
    + rewrite Hmiss by (rewrite Hat by lia; right; nia).
      apply Hm1dead. lia.
  - intros i Hi. rewrite Hgeta.
    unfold a', Array.set_count, Array.size in Hi. cbn [Array.m_count] in Hi.
    fold (Array.size a) in Hi.
    replace (Span.at_ s i) with (Span.at_ dst (i - start))
      by (rewrite Hatd by lia; f_equal; lia).
    rewrite Hhit by lia. rewrite Hatd, Hats by lia.
    replace (start + (i - start)) with i by lia.
    replace (end_ + (i - start)) with (i + (end_ - start)) by lia.
    rewrite !Hm1 by lia.
    destruct (l !! Z.to_nat i) as [y|] eqn:Hy.
    + reflexivity.
    + apply lookup_ge_None in Hy. lia.
Qed.

(** [remove(start, end)] with [start <= end <= size()] destroys the
    elements at the indices from [start] up to [end] and leaves an array
    of [end - start] elements less in the same block.  The elements before
    [start] are kept and every place from [end] on, as far as the new size
    reaches, takes by copy assignment the value [end - start] places to its
    right.  The places from [start] up to [end] were destroyed before the
    assignment, which constructs nothing: they hold no live element
    afterwards.  So the array holds the old values without the removed ones
    when the removed range is empty or reaches the end of the array. *)
Theorem remove_range_assigns_over_destroyed_slots (start end_ : Z)
  (a : Array T) (h : heap T) (l : list T) :
  element_ok -> array_ok a h -> holds a h l ->
  0 <= start -> start <= end_ -> end_ <= Array.size a ->
  exists a' h',
    Array.remove_range start end_ a h = Some (a', h') /\
    array_ok a' h' /\
    Array.size a' = Array.size a - (end_ - start) /\
    Array.m_block a' = Array.m_block a /\
    (forall i, 0 <= i < start -> Array.get a' i h' = l !! Z.to_nat i) /\
    (forall i, start <= i < end_ -> Array.get a' i h' = None) /\
    (forall i, end_ <= i < Array.size a' ->
       Array.get a' i h' = l !! Z.to_nat (i + (end_ - start))) /\
    (start = end_ \/ end_ = Array.size a ->
     holds a' h' (take (Z.to_nat start) l ++ drop (Z.to_nat end_) l)).
Proof.
  intros Hel Hok Hh Hst Hse Hen.
  destruct (remove_range_spec start end_ a h l Hel Hok Hh Hst Hse Hen)
    as (a' & h' & H1 & H2 & H3 & H4 & Hlow & Hmid & Hhigh).
  exists a', h'. split; [exact H1|]. split; [exact H2|]. split; [exact H3|].
  split; [exact H4|]. split; [exact Hlow|]. split; [exact Hmid|].
  split; [exact Hhigh|].
  intros Hcase. destruct Hh as [Hlen _].
  assert (length (take (Z.to_nat start) l) = Z.to_nat start) as Hlt.
  { apply length_take_le. lia. }
  split.
  - rewrite H3, length_app, Hlt, length_drop. lia.
  - intros j v Hj.
    pose proof (lookup_lt_Some _ _ _ Hj) as Hjlt.
    rewrite length_app, Hlt, length_drop in Hjlt.
    destruct (decide (j < Z.to_nat start)%nat) as [Hlo|Hhi].
    + rewrite lookup_app_l in Hj by lia.
      rewrite lookup_take_lt in Hj by lia.
      pose proof (Hlow (Z.of_nat j) ltac:(lia)) as Hg.
      rewrite Nat2Z.id in Hg. rewrite <- Hj. exact Hg.
    + rewrite lookup_app_r in Hj by lia. rewrite Hlt in Hj.
      rewrite lookup_drop in Hj.
      pose proof (Hhigh (Z.of_nat j) ltac:(lia)) as Hg.
      replace (Z.to_nat (Z.of_nat j + (end_ - start)))
        with (Z.to_nat end_ + (j - Z.to_nat start))%nat in Hg by lia.
      rewrite <- Hj. exact Hg.
Qed.

Lemma construct_front (sp : Span T) (c : Z) (x : T) (a : Array T)
  (h : heap T) :
  element_ok -> array_ok a h ->
  Span.data sp = Array.data a -> Span.size sp = c ->
  0 <= c <= Array.capacity a ->
  let a' := Array.set_count a c in
  let h' := Heap (fst (construct sp (copied x) (objects h))) (next_free h) in
  array_ok a' h' /\ holds a' h' (replicate (Z.to_nat c) x).
Proof.
  intros Hel Hok Hd Hn Hc a' h'.
  pose proof (as_raw_span_fits a h Hel Hok) as (Hs & Hd0 & Hc0 & Hmax).
  unfold Array.as_raw_span, Span.data, Span.size in Hd0, Hc0, Hmax.
  cbn [Span.m_data Span.m_count] in Hd0, Hc0, Hmax.
  assert (span_fits sp) as Hfsp.
  { unfold span_fits. rewrite Hd, Hn. repeat split; try lia; nia. }
  destruct (construct_post_spec sp (copied x) (objects h) Hfsp)
    as (_ & Hhit & _).
  rewrite Hn in Hhit.
  split.
  - destruct Hok as (H1 & H2 & H3 & H4 & H5).
    unfold array_ok, a', h', Array.set_count, Array.size, Array.capacity
      in *.
    cbn [Array.m_block Array.m_count next_free]. lia.
  - split.
    + unfold a', Array.set_count, Array.size. cbn [Array.m_count].
      rewrite length_replicate. lia.
    + intros j v Hj. apply lookup_replicate in Hj as [-> Hj].
      unfold Array.get, h'. cbn [objects].
      rewrite (at_same_data (Array.as_span a') sp) by (symmetry; exact Hd).
      apply Hhit. lia.
Qed.

Lemma fill_front (sp : Span T) (c : Z) (x : T) (a : Array T) (h : heap T)
  (l : list T) :
  element_ok -> array_ok a h -> holds a h l ->
  Span.data sp = Array.data a -> Span.size sp = c ->
  0 <= c <= Array.size a ->
  let a' := Array.set_count a c in
  let h' := Heap (fst (fill sp x (objects h))) (next_free h) in
  array_ok a' h' /\ holds a' h' (replicate (Z.to_nat c) x).
Proof.
  intros Hel Hok [Hlen Hget] Hd Hn Hc a' h'.
  pose proof (as_raw_span_fits a h Hel Hok) as (Hs & Hd0 & Hc0 & Hmax).
  unfold Array.as_raw_span, Span.data, Span.size in Hd0, Hc0, Hmax.
  cbn [Span.m_data Span.m_count] in Hd0, Hc0, Hmax.
  assert (Array.size a <= Array.capacity a) as Hsc by apply Hok.
  assert (span_fits sp) as Hfsp.
  { unfold span_fits. rewrite Hd, Hn. repeat split; try lia; nia. }
  destruct (fill_post_spec sp x (objects h) Hfsp) as (_ & Hhit & _).
  rewrite Hn in Hhit.
  split.
  - destruct Hok as (H1 & H2 & H3 & H4 & H5).
    unfold array_ok, a', h', Array.set_count, Array.size, Array.capacity
      in *.
    cbn [Array.m_block Array.m_count next_free]. lia.
  - split.
    + unfold a', Array.set_count, Array.size. cbn [Array.m_count].
      rewrite length_replicate. lia.
    + intros j v Hj. apply lookup_replicate in Hj as [-> Hj].
      unfold Array.get, h'. cbn [objects].
      rewrite (at_same_data (Array.as_span a') sp) by (symmetry; exact Hd).
      apply Hhit; [lia|].
      destruct (lookup_lt_is_Some_2 l j ltac:(lia)) as [y Hy].
      exists y.
      rewrite <- (at_same_data (Array.as_span a) sp) by (symmetry; exact Hd).
      apply (Hget j y Hy).
Qed.

Lemma destroy_backward_nothing (sp : Span T) (m : gmap Z T) :
  Span.size sp = 0 -> destroy_backward sp m = (m, 0).
Proof. intros E. unfold destroy_backward. rewrite E. reflexivity. Qed.

Lemma assign_spec (count : Z) (x : T) (a : Array T) (h : heap T)
  (l : list T) :
  element_ok -> array_ok a h -> holds a h l -> 0 <= count ->
  (count <= Array.capacity a \/ heap_has_room h (count * sizeof)) ->
  exists a' h',
    Array.assign count x a h = Some (a', h') /\
    array_ok a' h' /\
    holds a' h'
      (replicate (Z.to_nat (Z.min count (Array.size a))) x
       ++ replicate (Z.to_nat (count - Array.size a))
            (if count <=? Array.capacity a then value_init else x)) /\
    Array.size a' = count.
Proof.
  intros Hel Hok Hl Hcount Hroom.
  pose proof (proj1 Hel) as Hs.
  assert (0 <= Array.size a <= Array.capacity a) as Hsc by apply Hok.
  unfold Array.assign.
  destruct (Z.leb_spec count (Array.capacity a)) as [Hfit|Hgrow].
  - destruct (Z.leb_spec count (Array.size a)) as [Hle|Hgt].
    + unfold bind, ret. rewrite on_objects_eq. cbn [fst snd].
      replace (Z.to_nat (count - Array.size a)) with 0%nat by lia.
      cbn [replicate]. rewrite app_nil_r.
      replace (Z.min count (Array.size a)) with count by lia.
      destruct (fill_front
                  (Span.sub (Array.as_span a)
                     (Span.bounds 0 None (Some count)))
                  count x a h l Hel Hok Hl) as (Ha & Hb).
      * unfold Span.sub. cbn [Span.end_ Span.count Span.start Span.data
          Span.m_data].
        rewrite at_exact
          by (try apply (as_span_fits a h Hel Hok);
              unfold Array.as_span, Span.size; cbn [Span.m_count]; lia).
        unfold Array.as_span, Span.data. cbn [Span.m_data]. lia.
      * reflexivity.
      * lia.
      * eexists _, _. split; [reflexivity|]. split; [exact Ha|].
        split; [exact Hb|reflexivity].
    + unfold bind, ret. rewrite !on_objects_eq.
      cbn [fst snd objects next_free].
      replace (Z.min count (Array.size a)) with (Array.size a) by lia.
      destruct (fill_front (Array.as_span a) (Array.size a) x a h l Hel Hok
                  Hl eq_refl eq_refl ltac:(lia)) as (Ha & Hb).
      replace (Array.set_count a (Array.size a)) with a in Ha, Hb
        by (destruct a; reflexivity).
      destruct (construct_tail_in_place (count - Array.size a)
                  (copied value_init) a _ _ Hel Ha Hb ltac:(lia) ltac:(lia))
        as (Hc & Hd & _).
      rewrite built_copied in Hd.
      cbn [objects next_free] in Hc, Hd.
      replace (Array.size a + (count - Array.size a)) with count
        in Hc, Hd by lia.
      assert (wrap (count - Array.size a) = count - Array.size a) as Hw.
      { apply wrap_small.
        pose proof (as_raw_span_fits a h Hel Hok) as (_ & Hr0 & Hc0 & Hrm).
        unfold Array.as_raw_span, Span.data, Span.size in Hr0, Hc0, Hrm.
        cbn [Span.m_data Span.m_count] in Hr0, Hc0, Hrm.
        unfold is_size_t. split; [lia|]. nia. }
      unfold Span.sub. cbn [Span.end_ Span.count Span.start]. rewrite Hw.
      eexists _, _. split; [reflexivity|]. split; [exact Hc|].
      split; [exact Hd|reflexivity].
  - destruct Hroom as [|Hroom]; [lia|].
    destruct (heap_alignment_pow2 Hel) as (_ & _ & H8).
    pose proof Hroom as [Hr1 Hr2].
    assert (0 <= count * sizeof) as Hbytes by nia.
    destruct (allocate_spec (count * sizeof) h Hel Hbytes Hroom)
      as (b & h1 & Halloc & Hsize & [Hb1 Hb2] & Hb3 & Hb4 & Hb5 & Hb6 & Hb7
          & Hb8 & Hb9 & Hobj).
    assert (is_size_t (count * sizeof)) as Hw.
    { unfold is_size_t. lia. }
    set (tmp := Array.mk b count (Array.m_allocator a) : Array T).
    assert (Array.with_uninit (Array.m_allocator a) count h
            = Some (tmp, h1)) as Huninit.
    { unfold Array.with_uninit.
      rewrite (proj2 (Z.eqb_neq count 0)) by lia.
      unfold Array.alignment. rewrite (wrap_small _ Hw).
      rewrite (bind_some _ _ _ _ _ Halloc). reflexivity. }
    assert (array_ok a h1) as Hok1.
    { destruct Hok as (H1 & H2 & H3 & H4 & H5).
      unfold array_ok. repeat split; try lia. }
    destruct (move_assign_spec a tmp h1 Hel Hok1)
      as (h2 & Hmove & Hnf2 & _ & _).
    assert (Array.destructor
              (Array.with_allocator (Array.m_allocator tmp)) h2
            = Some (Array.with_allocator (Array.m_allocator tmp), h2))
      as Hdtor.
    { unfold Array.destructor, Array.clear.
      rewrite (bind_some _ _ _ _ _
                 (bind_some _ _ _ _ _ (on_objects_eq _ _)
                  : bind _ _ h2 = _)).
      rewrite destroy_backward_nothing by reflexivity.
      unfold ret, Array.deallocate. cbn [fst snd].
      destruct h2. reflexivity. }
    unfold bind, ret. rewrite Huninit. cbv beta iota.
    rewrite Hmove. cbn [fst snd]. rewrite Hdtor, on_objects_eq.
    cbn [fst snd].
    assert (array_ok tmp h2) as Hok2.
    { unfold array_ok, tmp, Array.size, Array.capacity.
      cbn [Array.m_block Array.m_count].
      rewrite Hnf2. repeat split; try lia.
      apply Z.div_le_lower_bound; lia. }
    destruct (construct_front
                (Span.sub (Array.as_span tmp)
                   (Span.bounds 0 None (Some count)))
                count x tmp h2 Hel Hok2) as (Ha & Hb).
    + unfold Span.sub. cbn [Span.end_ Span.count Span.start Span.data
        Span.m_data].
      rewrite at_exact
        by (try apply (as_span_fits tmp h2 Hel Hok2);
            unfold Array.as_span, Span.size, Array.size, tmp;
            cbn [Span.m_count Array.m_count]; lia).
      unfold Array.as_span, Span.data. cbn [Span.m_data]. lia.
    + reflexivity.
    + apply Hok2.
    + replace (replicate (Z.to_nat (Z.min count (Array.size a))) x
               ++ replicate (Z.to_nat (count - Array.size a)) x)
        with (replicate (Z.to_nat count) x).
      * eexists _, _. split; [reflexivity|]. split; [exact Ha|].
        split; [exact Hb|reflexivity].
      * rewrite <- replicate_add. f_equal. lia.
Qed.

(** [assign(count, x)] leaves an array of [count] elements.  They are all
    equal to [x] when [count <= size()] and when [count > capacity()]; in
    between, the elements beyond the old size are value-initialised. *)
Theorem assign_fills (count : Z) (x : T) (a : Array T) (h : heap T)
  (l : list T) :
  element_ok -> array_ok a h -> holds a h l -> 0 <= count ->
  (count <= Array.capacity a \/ heap_has_room h (count * sizeof)) ->
  exists a' h',
    Array.assign count x a h = Some (a', h') /\
    array_ok a' h' /\
    holds a' h'
      (replicate (Z.to_nat (Z.min count (Array.size a))) x
       ++ replicate (Z.to_nat (count - Array.size a))
            (if count <=? Array.capacity a then value_init else x)) /\
    Array.size a' = count.
Proof. exact (assign_spec count x a h l). Qed.

(** [GlobalAllocator::allocate] returns, when the platform heap has room, a
    non-null block of the requested size rounded up to a multiple of
    [max(sizeof(void* ), alignment)]: at least the bytes asked for, fewer
    than one alignment more, at an aligned address beyond every earlier
    allocation; no object is touched. *)
Theorem allocate_rounds_size_up (sz : Z) (h : heap T) :
  element_ok -> 0 <= sz -> heap_has_room h sz ->
  exists b h',
    GlobalAllocator.allocate sz alignof h = Some (b, h') /\
    MemoryBlock.size b = align_forward sz heap_alignment /\
    sz <= MemoryBlock.size b < sz + heap_alignment /\
    MemoryBlock.size b mod heap_alignment = 0 /\
    MemoryBlock.ptr b mod heap_alignment = 0 /\
    next_free h <= MemoryBlock.ptr b /\ MemoryBlock.ptr b <> 0 /\
    MemoryBlock.ptr b + MemoryBlock.size b <= next_free h' /\
    MemoryBlock.ptr b + MemoryBlock.size b <= SIZE_MAX /\
    next_free h' <= SIZE_MAX /\ objects h' = objects h.
Proof. exact (allocate_spec sz h). Qed.

End ArrayFacts.

(** ** The properties of the array at an array of [int]s *)

Lemma int_element_ok : element_ok (T := Z).
Proof. vm_compute. intuition discriminate. Qed.

Lemma heap_4096_has_room (bytes : Z) :
  0 <= bytes <= 4096 -> heap_has_room heap_4096 bytes.
Proof.
  intros Hb. unfold heap_has_room, heap_4096. cbn [next_free].
  change (heap_alignment (T := Z)) with 8. unfold SIZE_MAX. lia.
Qed.

Lemma heap_10_20_has_room (bytes : Z) :
  0 <= bytes <= 4096 -> heap_has_room heap_10_20 bytes.
Proof.
  intros Hb. unfold heap_has_room, heap_10_20. cbn [next_free].
  change (heap_alignment (T := Z)) with 8. unfold SIZE_MAX. lia.
Qed.

Lemma array_10_20_ok : array_ok array_10_20 heap_10_20.
Proof. vm_compute. intuition discriminate. Qed.

Lemma array_10_20_holds : holds array_10_20 heap_10_20 [10; 20].
Proof.
  split; [reflexivity|].
  intros [|[|i]] v Hi; try discriminate; injection Hi as <-;
    vm_compute; reflexivity.
Qed.

Lemma default_ok_10_20 : array_ok (Array.default : Array Z) heap_10_20.
Proof. vm_compute. intuition discriminate. Qed.

Lemma allocate_rounds_size_up_witness :
  exists b h',
    GlobalAllocator.allocate 20 4 heap_4096 = Some (b, h') /\
    MemoryBlock.size b = 24 /\ MemoryBlock.ptr b mod 8 = 0.
Proof.
  destruct (allocate_rounds_size_up 20 heap_4096 int_element_ok ltac:(lia)
              (heap_4096_has_room 20 ltac:(lia)))
    as (b & h' & H1 & H2 & _ & _ & H3 & _).
  exists b, h'. split; [exact H1|]. split; [exact H2|exact H3].
Defined.

Lemma append_appends_witness :
  exists a' h',
    Array.append 30 array_10_20 heap_10_20 = Some (a', h') /\
    holds a' h' [10; 20; 30].
Proof.
  destruct (append_appends 30 array_10_20 heap_10_20 [10; 20]
              int_element_ok array_10_20_ok array_10_20_holds)
    as (a' & h' & H1 & _ & H2 & _).
  - left. vm_compute. discriminate.
  - exists a', h'. split; [exact H1|exact H2].
Defined.

Lemma reserve_keeps_elements_witness :
  exists a' h',
    Array.reserve 10 array_10_20 heap_10_20 = Some (a', h') /\
    holds a' h' [10; 20] /\ 10 <= Array.capacity a'.
Proof.
  destruct (reserve_keeps_elements 10 array_10_20 heap_10_20 [10; 20]
              int_element_ok array_10_20_ok array_10_20_holds)
    as (a' & h' & H1 & _ & H2 & H3 & _).
  - vm_compute. reflexivity.
  - vm_compute. discriminate.
  - apply heap_10_20_has_room. vm_compute. intuition discriminate.
  - exists a', h'. split; [exact H1|]. split; [exact H2|exact H3].
Defined.

Lemma with_count_fills_witness :
  exists a h',
    Array.with_count GlobalAllocator.mk 3 (copied 7) heap_4096
    = Some (a, h') /\
    holds a h' [7; 7; 7].
Proof.
  destruct (with_count_fills GlobalAllocator.mk 3 (copied 7) heap_4096
              int_element_ok ltac:(lia))
    as (a & h' & H1 & _ & _ & H2 & _).
  - apply heap_4096_has_room. vm_compute. intuition discriminate.
  - exists a, h'. split; [exact H1|exact (H2 7 eq_refl)].
Defined.

Lemma clear_keeps_block_witness :
  exists a' h',
    Array.clear array_10_20 heap_10_20 = Some (a', h') /\
    Array.size a' = 0 /\ Array.capacity a' = 6 /\
    objects h' !! 4100 = None.
Proof.
  destruct (clear_keeps_block array_10_20 heap_10_20 int_element_ok
              array_10_20_ok)
    as (a' & h' & H1 & H2 & _ & H3 & H4 & _).
  exists a', h'. split; [exact H1|]. split; [exact H2|].
  split; [exact H3|]. apply (H4 1). vm_compute. intuition discriminate.
Defined.

Lemma move_assign_transfers_witness :
  exists h',
    Array.move_assign Array.default array_10_20 heap_10_20
    = Some ((array_10_20, Array.with_allocator GlobalAllocator.mk), h') /\
    holds array_10_20 h' [10; 20].
Proof.
  destruct (move_assign_transfers Array.default array_10_20 heap_10_20
              [10; 20] int_element_ok default_ok_10_20)
    as (h' & H1 & H2 & _).
  - vm_compute. intuition discriminate.
  - exact array_10_20_holds.
  - left. vm_compute. discriminate.
  - exists h'. split; [exact H1|exact H2].
Defined.

Lemma remove_assigns_over_destroyed_slot_witness :
  (exists a' h',
     Array.remove 0 array_10_20 heap_10_20 = Some ((Some 10, a'), h') /\
     Array.size a' = 1 /\ Array.get a' 0 h' = None) /\
  (exists a' h',
     Array.remove 1 array_10_20 heap_10_20 = Some ((Some 20, a'), h') /\
     holds a' h' [10]).
Proof.
  split.
  - destruct (remove_assigns_over_destroyed_slot 0 array_10_20 heap_10_20
                [10; 20] int_element_ok array_10_20_ok array_10_20_holds
                ltac:(lia))
      as [H _].
    destruct H as (x & a' & h' & H1 & H2 & _ & H3 & _ & _ & H4 & _).
    + vm_compute. reflexivity.
    + injection H2 as <-. exists a', h'.
      split; [exact H1|]. split; [exact H3|exact H4].
  - destruct (remove_assigns_over_destroyed_slot 1 array_10_20 heap_10_20
                [10; 20] int_element_ok array_10_20_ok array_10_20_holds
                ltac:(lia))
      as [H _].
    destruct H as (x & a' & h' & H1 & H2 & _ & _ & _ & _ & _ & _ & H3 & _).
    + vm_compute. reflexivity.
    + injection H2 as <-. exists a', h'.
      split; [exact H1|]. apply H3. reflexivity.
Defined.

Lemma insert_range_inserts_witness :
  exists a' h',
    Array.insert_range 1 [30; 40] array_10_20 heap_10_20 = Some (a', h') /\
    holds a' h' [10; 30; 40; 20].
Proof.
  destruct (insert_range_inserts 1 [30; 40] array_10_20 heap_10_20 [10; 20]
              int_element_ok array_10_20_ok array_10_20_holds)
    as (a' & h' & H1 & _ & H2 & _).
  - vm_compute. intuition discriminate.
  - left. vm_compute. discriminate.
  - exists a', h'. split; [exact H1|exact H2].
Defined.

Lemma append_n_appends_witness :
  exists a' h',
    Array.append_n 2 (copied 7) array_10_20 heap_10_20 = Some (a', h') /\
    holds a' h' [10; 20; 7; 7].
Proof.
  destruct (append_n_appends 2 (copied 7) array_10_20 heap_10_20 [10; 20]
              int_element_ok array_10_20_ok array_10_20_holds ltac:(lia))
    as (a' & h' & H1 & _ & _ & H2 & _).
  - left. vm_compute. discriminate.
  - exists a', h'. split; [exact H1|exact (H2 7 eq_refl)].
Defined.

Lemma resize_truncates_or_pads_witness :
  exists a' h',
    Array.resize 4 (copied 0) array_10_20 heap_10_20 = Some (a', h') /\
    holds a' h' [10; 20; 0; 0].
Proof.
  destruct (resize_truncates_or_pads 4 (copied 0) array_10_20 heap_10_20
              [10; 20] int_element_ok array_10_20_ok array_10_20_holds
              ltac:(lia))
    as (a' & h' & H1 & _ & _ & H2 & _).
  - left. vm_compute. discriminate.
  - exists a', h'. split; [exact H1|exact (H2 0 eq_refl)].
Defined.

Lemma remove_range_assigns_over_destroyed_slots_witness :
  (exists a' h',
     Array.remove_range 0 1 array_10_20 heap_10_20 = Some (a', h') /\
     Array.size a' = 1 /\ Array.get a' 0 h' = None) /\
  (exists a' h',
     Array.remove_range 1 2 array_10_20 heap_10_20 = Some (a', h') /\
     holds a' h' [10]).
Proof.
  split.
  - destruct (remove_range_assigns_over_destroyed_slots 0 1 array_10_20
                heap_10_20 [10; 20] int_element_ok array_10_20_ok
                array_10_20_holds ltac:(lia) ltac:(lia))
      as (a' & h' & H1 & _ & H2 & _ & _ & H3 & _).
    + vm_compute. discriminate.
    + exists a', h'. split; [exact H1|]. split; [exact H2|].
      apply (H3 0). lia.
  - destruct (remove_range_assigns_over_destroyed_slots 1 2 array_10_20
                heap_10_20 [10; 20] int_element_ok array_10_20_ok
                array_10_20_holds ltac:(lia) ltac:(lia))
      as (a' & h' & H1 & _ & _ & _ & _ & _ & _ & H2).
    + vm_compute. discriminate.
    + exists a', h'. split; [exact H1|]. apply H2. right. reflexivity.
Defined.

Lemma assign_fills_witness :
  exists a' h',
    Array.assign 8 5 array_10_20 heap_10_20 = Some (a', h') /\
    holds a' h' [5; 5; 5; 5; 5; 5; 5; 5].
Proof.
  destruct (assign_fills 8 5 array_10_20 heap_10_20 [10; 20]
              int_element_ok array_10_20_ok array_10_20_holds ltac:(lia))
    as (a' & h' & H1 & _ & H2 & _).
  - right. apply heap_10_20_has_room. vm_compute. intuition discriminate.
  - exists a', h'. split; [exact H1|exact H2].
Defined.
